(** * AAPPR_py: graph loading, random connected graphs and neighbourhoods

    A shallow embedding of [src/datasets.py] ([loadsnap]) and
    [src/graphs.py] ([create_connected_graph], [get_neighborhood_indices]),
    together with the parts of networkx, scipy.sparse and the [random]
    module that these functions call, modelled after their documented
    behaviour. *)

From Stdlib Require Import ZArith QArith.QArith_base Lia Ascii String.
From stdpp Require Import base decidable numbers option list sorting relations
  gmap fin_sets strings.

Local Open Scope Z_scope.

(** ** Exceptions and results *)

(** The exceptions that the two modules and the libraries under them can
    raise.  The source raises [ValueError] at every validation site; the
    sites differ by their message only. *)
Inductive exn : Type :=
  | ValueError (msg : string)
  | AssertionError (msg : string)
  | IndexError (msg : string)
  | NetworkXPointlessConcept (msg : string)
  | NetworkXError (msg : string).

Inductive result (A : Type) : Type :=
  | Ok (a : A)
  | Raise (e : exn)
  | OutOfFuel.
Arguments Ok {A} a.
Arguments Raise {A} e.
Arguments OutOfFuel {A}.

(** ** scipy.sparse *)

Module sp.

(** A matrix in compressed sparse column form: column [j] holds the
    entries [data[k]] at the rows [indices[k]] for
    [indptr[j] <= k < indptr[j+1]].  The values the source stores are the
    float64 numbers 1.0 and sums of them, which are exact integers. *)
Record csc_matrix : Type := mkCsc {
  shape : nat * nat;
  indptr : list nat;
  indices : list nat;
  data : list Z
}.

Inductive format : Type := CSC | CSR | COO.

(** A [sp.spmatrix] of any format, given by its format and by the matrix
    that [tocsc()] yields (the matrix itself for the CSC format). *)
Record spmatrix : Type := mkSp {
  fmt : format;
  csc_form : csc_matrix
}.

Definition is_csc (m : spmatrix) : bool :=
  match fmt m with CSC => true | _ => false end.

Definition tocsc (m : spmatrix) : spmatrix := mkSp CSC (csc_form m).

(** The column pointers for columns of the given lengths. *)
Fixpoint prefix_sums (acc : nat) (lens : list nat) : list nat :=
  match lens with
  | [] => [acc]
  | k :: lens' => acc :: prefix_sums (acc + k) lens'
  end.

(** The CSC matrix with the given columns of (row, value) entries. *)
Definition csc_of_columns (nrows : nat) (cols : list (list (nat * Z)))
  : csc_matrix :=
  mkCsc (nrows, length cols)
        (prefix_sums 0 (length <$> cols))
        ((concat cols).*1)
        ((concat cols).*2).

(** [a[s:e]] on an array, for non-negative bounds. *)
Definition slice {A} (a : list A) (s e : nat) : list A :=
  take (e - s) (drop s a).

(** The stored entries of column [j]. *)
Definition column (m : csc_matrix) (j : nat) : list (nat * Z) :=
  match indptr m !! j, indptr m !! S j with
  | Some s, Some e => zip (slice (indices m) s e) (slice (data m) s e)
  | _, _ => []
  end.

Definition sum_values (l : list (nat * Z)) : Z := foldr Z.add 0 (l.*2).

(** The entry [m[i, j]]: stored entries at the same place add up. *)
Definition get (m : csc_matrix) (i j : nat) : Z :=
  sum_values (filter (λ rv, rv.1 = i) (column m j)).

(** [m.sum(axis=1)], flattened: the sum of every row. *)
Definition row_sums (m : csc_matrix) : list Z :=
  (λ i, sum_values (filter (λ rv, rv.1 = i) (zip (indices m) (data m))))
    <$> seq 0 (shape m).1.

(** [sp.diags(d, format='csc')]: the diagonal matrix of [d]; the
    conversion to CSC stores the non-zero entries only. *)
Definition diags (d : list Z) : csc_matrix :=
  csc_of_columns (length d)
    (imap (λ j x, if decide (x = 0) then [] else [(j, x)]) d).

(** [m.diagonal()] *)
Definition diagonal (m : csc_matrix) : list Z :=
  (λ i, get m i i) <$> seq 0 (Nat.min (shape m).1 (shape m).2).

(** The format invariants of a CSC matrix. *)
Definition well_formed (m : csc_matrix) : Prop :=
  length (indptr m) = S (shape m).2
  ∧ indptr m !! 0%nat = Some 0%nat
  ∧ last (indptr m) = Some (length (indices m))
  ∧ Sorted le (indptr m)
  ∧ length (data m) = length (indices m)
  ∧ Forall (λ i, i < (shape m).1)%nat (indices m).

End sp.

(** ** networkx.Graph *)

Module nx.

(** An undirected [nx.Graph]: the nodes in insertion order (the order of
    [list(G)], which [nx.adjacency_matrix] uses for rows and columns) and
    the adjacency structure [G._adj].  Edge attributes are never set by the
    source, so a neighbour dictionary is kept as the set of its keys. *)
Record Graph : Type := mkGraph {
  nodes : list Z;
  adj : gmap Z (gset Z)
}.

(** [nx.Graph()] *)
Definition empty_graph : Graph := mkGraph [] ∅.

(** [G[u]], with the empty neighbourhood for a node without entry. *)
Definition neighbors (g : Graph) (u : Z) : gset Z := default ∅ (adj g !! u).

(** [G.add_node(u)]: a node that is present is left as it is. *)
Definition add_node (g : Graph) (u : Z) : Graph :=
  if decide (u ∈ nodes g) then g
  else mkGraph (nodes g ++ [u]) (<[u := ∅]> (adj g)).

(** [G.add_nodes_from(l)] *)
Definition add_nodes_from (g : Graph) (l : list Z) : Graph :=
  foldl add_node g l.

(** [G.add_edge(u, v)]: both end points become nodes when they are not,
    and each is entered in the other's neighbour dictionary. *)
Definition add_edge (g : Graph) (u v : Z) : Graph :=
  let g1 := add_node (add_node g u) v in
  let a1 := <[u := {[v]} ∪ neighbors g1 u]> (adj g1) in
  let a2 := <[v := {[u]} ∪ default ∅ (a1 !! v)]> a1 in
  mkGraph (nodes g1) a2.

(** [G.add_edges_from(l)] *)
Definition add_edges_from (g : Graph) (l : list (Z * Z)) : Graph :=
  foldl (λ g e, add_edge g e.1 e.2) g l.

(** One level of the breadth-first search: the nodes seen so far together
    with all their neighbours. *)
Definition expand (g : Graph) (seen : gset Z) : gset Z :=
  seen ∪ ⋃ (neighbors g <$> elements seen).

(** [_plain_bfs(G, n, source)]: the set of nodes reachable from [source].
    The search proceeds level by level; after as many levels as there are
    nodes nothing new can be found. *)
Definition plain_bfs (g : Graph) (source : Z) : gset Z :=
  Nat.iter (length (nodes g)) (expand g) {[source]}.

(** [nx.connected_components(G)]: for every node, in node order, that was
    not seen yet, the set found by the search from it. *)
Fixpoint connected_components_from (g : Graph) (l : list Z) (seen : gset Z)
  : list (gset Z) :=
  match l with
  | [] => []
  | v :: l' =>
      if decide (v ∈ seen) then connected_components_from g l' seen
      else let c := plain_bfs g v in
           c :: connected_components_from g l' (seen ∪ c)
  end.

Definition connected_components (g : Graph) : list (gset Z) :=
  connected_components_from g (nodes g) ∅.

(** [nx.is_connected(G)]: the search from the first node reaches every
    node; the null graph raises. *)
Definition is_connected (g : Graph) : result bool :=
  match nodes g with
  | [] => Raise (NetworkXPointlessConcept
                   "Connectivity is undefined for the null graph.")
  | v :: _ => Ok (bool_decide (size (plain_bfs g v) = length (nodes g)))
  end.

(** [G.edges()]: every edge once, reported from the end point that comes
    first in node order. *)
Fixpoint edges_from (g : Graph) (l : list Z) (seen : gset Z) : list (Z * Z) :=
  match l with
  | [] => []
  | u :: l' =>
      ((λ v, (u, v)) <$> elements (neighbors g u ∖ seen))
        ++ edges_from g l' (seen ∪ {[u]})
  end.

Definition edges (g : Graph) : list (Z * Z) := edges_from g (nodes g) ∅.

(** [nx.adjacency_matrix(G).astype(np.float64).tocsc()]: rows and columns
    follow the node order; column [j] has a 1 at every row whose node is a
    neighbour of the [j]-th node. *)
Definition is_neighbor_row (g : Graph) (v : Z) (i : nat) : bool :=
  match nodes g !! i with
  | Some u => bool_decide (u ∈ neighbors g v)
  | None => false
  end.

Definition adjacency_csc (g : Graph) : sp.csc_matrix :=
  sp.csc_of_columns (length (nodes g))
    ((λ v, (λ i, (i, 1)) <$> filter (λ i, is_neighbor_row g v i)
                                    (seq 0 (length (nodes g))))
       <$> nodes g).

(** The call itself raises on a graph without nodes. *)
Definition adjacency_matrix (g : Graph) : result sp.csc_matrix :=
  match nodes g with
  | [] => Raise (NetworkXError "Graph has no nodes or edges")
  | _ :: _ => Ok (adjacency_csc g)
  end.

End nx.

(** ** Runs: events, the world and the random module *)

(** An event of the run: the calls that create or change the graph and
    matrix objects of [create_connected_graph]. *)
Inductive event : Type :=
  | EvGraph                  (* nx.Graph() *)
  | EvAddNodes (l : list Z)  (* g.add_nodes_from(l) *)
  | EvAddEdge (u v : Z)      (* g.add_edge(u, v) *)
  | EvAdjacencyMatrix        (* nx.adjacency_matrix(g) *)
  | EvDiags.                 (* sp.diags(degrees) *)

(** The state a run threads through: the random source, an arbitrary
    infinite sequence [draws] of raw values with the position of the next
    one, and the events so far, oldest first. *)
Record world : Type := mkWorld {
  draws : nat → N;
  cursor : nat;
  events : list event
}.

(** Computations that read and advance the world and may raise. *)
Definition M (A : Type) : Type := world → result A * world.

Definition ret {A} (a : A) : M A := λ w, (Ok a, w).
Definition raise {A} (e : exn) : M A := λ w, (Raise e, w).
Definition out_of_fuel {A} : M A := λ w, (OutOfFuel, w).
Definition bind {A B} (c : M A) (k : A → M B) : M B :=
  λ w, match c w with
       | (Ok a, w') => k a w'
       | (Raise e, w') => (Raise e, w')
       | (OutOfFuel, w') => (OutOfFuel, w')
       end.
Definition lift {A} (r : result A) : M A := λ w, (r, w).
Definition emit (e : event) : M unit :=
  λ w, (Ok tt, mkWorld (draws w) (cursor w) (events w ++ [e])).

Notation "'let*' x := c1 'in' c2" := (bind c1 (λ x, c2))
  (at level 10, x binder, c1 at level 200, c2 at level 200).

(** [for x in l: s = body(x, s)] *)
Fixpoint for_each {A S} (l : list A) (body : A → S → M S) (s : S) : M S :=
  match l with
  | [] => ret s
  | x :: l' => let* s' := body x s in for_each l' body s'
  end.

(** A Python float: a finite value is a rational (every finite double is
    one, and comparisons of doubles are exact), or one of the specials. *)
Inductive pyfloat : Type :=
  | Finite (q : Q)
  | NaN
  | PosInf
  | NegInf.

(** [x <= y] on floats; every comparison with NaN is false. *)
Definition float_le (x y : pyfloat) : bool :=
  match x, y with
  | NaN, _ | _, NaN => false
  | NegInf, _ => true
  | _, PosInf => true
  | Finite a, Finite b => Qle_bool a b
  | _, _ => false
  end.

Module random.

(** The next raw value of the source. *)
Definition next_raw : M N :=
  λ w, (Ok (draws w (cursor w)),
        mkWorld (draws w) (S (cursor w)) (events w)).

(** [random.random()]: a double [k / 2^53] with [0 <= k < 2^53], that is,
    a float in the range [0.0 <= x < 1.0]. *)
Definition random : M pyfloat :=
  let* k := next_raw in
  ret (Finite (Z.of_N (k mod 2 ^ 53) # 2 ^ 53)).

(** [random._randbelow(n)] for [n > 0]: an integer in [0, n).  The
    library draws bits until a value below [n] comes up; here every call
    takes one raw value and reduces it, so that the sequence of draws is
    the sequence of the values that the calls return. *)
Definition randbelow (n : nat) : M nat :=
  let* k := next_raw in ret (N.to_nat k mod n)%nat.

(** [random.choice(seq)] *)
Definition choice {A} (seq : list A) : M A :=
  match seq with
  | [] => raise (IndexError "Cannot choose from an empty sequence")
  | _ :: _ =>
      let* i := randbelow (length seq) in
      match seq !! i with
      | Some x => ret x
      | None => raise (IndexError "list index out of range")
      end
  end.

(** [random.sample(range(n), 2)]: two distinct positions.  The first is
    drawn from the pool [0, ..., n-1]; its slot is refilled with the last
    element of the pool and the second is drawn from the first [n-1]
    slots. *)
Definition sample2 (n : nat) : M (nat * nat) :=
  if bool_decide (n < 2)%nat
  then raise (ValueError "Sample larger than population or is negative")
  else
    let* j1 := randbelow n in
    let* j2 := randbelow (n - 1) in
    ret (j1, if bool_decide (j2 = j1) then (n - 1)%nat else j2).

End random.

(** ** [create_connected_graph] (graphs.py) *)

(** Lines 28-31: one Bernoulli trial for every pair [i < j]. *)
Definition sample_edges (n : Z) (edge_probability : pyfloat) (g : nx.Graph)
  : M nx.Graph :=
  for_each (seqZ 0 n) (λ i g,
    for_each (seqZ (i + 1) (n - (i + 1))) (λ j g,
      let* x := random.random in
      if float_le x edge_probability
      then let* _ := emit (EvAddEdge i j) in ret (nx.add_edge g i j)
      else ret g) g) g.

(** Lines 35-46: the body of the repair loop once the graph was found
    not to be connected.  [None] stands for the [break].  [list(s)] of a
    Python set [s] enumerates it in an order the language leaves open;
    here it is the order of [elements]. *)
Definition repair_iteration (g : nx.Graph) : M (option nx.Graph) :=
  let components := nx.connected_components g in
  if bool_decide (length components ≤ 1)%nat then ret None
  else
    let* idx := random.sample2 (length components) in
    match components !! idx.1, components !! idx.2 with
    | Some comp1, Some comp2 =>
        let* node1 := random.choice (elements comp1) in
        let* node2 := random.choice (elements comp2) in
        let* _ := emit (EvAddEdge node1 node2) in
        ret (Some (nx.add_edge g node1 node2))
    | _, _ => raise (IndexError "list index out of range")
    end.

(** Lines 34-46: [while not nx.is_connected(g): ...].  One unit of fuel
    pays for one evaluation of the loop condition. *)
Fixpoint repair_loop (fuel : nat) (g : nx.Graph) : M nx.Graph :=
  match fuel with
  | O => out_of_fuel
  | S fuel' =>
      let* c := lift (nx.is_connected g) in
      if c : bool then ret g
      else
        let* r := repair_iteration g in
        match r with
        | None => ret g
        | Some g' => repair_loop fuel' g'
        end
  end.

(** Lines 19-49: validation, sampling, repair and the final assertion. *)
Definition build_connected_graph (fuel : nat) (n : Z)
    (edge_probability : pyfloat) : M nx.Graph :=
  if negb (float_le (Finite 0) edge_probability
           && float_le edge_probability (Finite 1))  (* not 0 <= p <= 1 *)
  then raise (ValueError "edge_probability must be between 0 and 1")
  else if bool_decide (n < 1)
  then raise (ValueError "n must be greater than 0")
  else
    let* _ := emit EvGraph in
    let* _ := emit (EvAddNodes (seqZ 0 n)) in
    let* g := sample_edges n edge_probability
           (nx.add_nodes_from nx.empty_graph (seqZ 0 n)) in
    let* g := repair_loop fuel g in
    let* c := lift (nx.is_connected g) in
    if c : bool then ret g
    else raise (AssertionError "Graph could not be connected.").

(** [create_connected_graph(n, edge_probability)] *)
Definition create_connected_graph (fuel : nat) (n : Z)
    (edge_probability : pyfloat) : M (sp.csc_matrix * sp.csc_matrix) :=
  let* g := build_connected_graph fuel n edge_probability in
  let* adj_matrix := lift (nx.adjacency_matrix g) in
  let* _ := emit EvAdjacencyMatrix in
  let degrees := sp.row_sums adj_matrix in
  let* _ := emit EvDiags in
  ret (adj_matrix, sp.diags degrees).

(** ** [get_neighborhood_indices] (graphs.py) *)

Definition rbind {A B} (r : result A) (k : A → result B) : result B :=
  match r with
  | Ok a => k a
  | Raise e => Raise e
  | OutOfFuel => OutOfFuel
  end.

Notation "'let+' x := c1 'in' c2" := (rbind c1 (λ x, c2))
  (at level 10, x binder, c1 at level 200, c2 at level 200).

(** [max(l)] and [min(l)]; [None] for the empty list, on which the source
    never calls them ([indices and ...] stops at the empty list). *)
Definition py_max (l : list Z) : option Z :=
  match l with [] => None | x :: l' => Some (foldl Z.max x l') end.
Definition py_min (l : list Z) : option Z :=
  match l with [] => None | x :: l' => Some (foldl Z.min x l') end.

(** [a[i]] on a numpy array: a negative index counts from the end. *)
Definition np_getitem (a : list nat) (i : Z) : result nat :=
  let k := if bool_decide (i < 0) then i + Z.of_nat (length a) else i in
  if bool_decide (k < 0) then Raise (IndexError "index out of bounds")
  else match a !! Z.to_nat k with
       | Some x => Ok x
       | None => Raise (IndexError "index out of bounds")
       end.

Definition out_of_bounds_error : exn :=
  ValueError "An index in 'indices' is out of bounds for the graph size".
Definition negative_index_error : exn :=
  ValueError "Indices must be non-negative".

(** Lines 89-94: the neighbours of every seed join the set. *)
Fixpoint collect_neighbors (m : sp.csc_matrix) (seeds : list Z)
    (acc : gset Z) : result (gset Z) :=
  match seeds with
  | [] => Ok acc
  | idx :: seeds' =>
      let+ start_ptr := np_getitem (sp.indptr m) idx in
      let+ end_ptr := np_getitem (sp.indptr m) (idx + 1) in
      let neighbors := sp.slice (sp.indices m) start_ptr end_ptr in
      collect_neighbors m seeds'
        (acc ∪ list_to_set (Z.of_nat <$> neighbors))
  end.

Definition get_neighborhood_indices (indices : list Z) (adj_mat : sp.spmatrix)
  : result (list Z) :=
  let num_nodes := Z.of_nat (sp.shape (sp.csc_form adj_mat)).1 in
  if from_option (λ mx, bool_decide (num_nodes ≤ mx)) false (py_max indices)
  then Raise out_of_bounds_error
  else if from_option (λ mn, bool_decide (mn < 0)) false (py_min indices)
  then Raise negative_index_error
  else if bool_decide (indices = []) then Ok []
  else
    let adj_mat := if sp.is_csc adj_mat then adj_mat else sp.tocsc adj_mat in
    let+ neighborhood_indices_set :=
      collect_neighbors (sp.csc_form adj_mat) indices (list_to_set indices) in
    let final_indices := merge_sort Z.le (elements neighborhood_indices_set) in
    if forallb (λ idx, bool_decide (idx ∈ final_indices)) indices
    then Ok final_indices
    else Raise (AssertionError
                  "Input indices are not a subset of the result.").

(** ** [loadsnap] (datasets.py) *)

(** Strings are Python strings whose characters are code points below 256.
    The interpreter's limit on the number of digits [int()] accepts is
    taken to be switched off. *)
Module pystr.

(** [c.isspace()] for a code point below 256. *)
Definition isspace (c : ascii) : bool :=
  let n := nat_of_ascii c in
  ((9 <=? n) && (n <=? 13) || (28 <=? n) && (n <=? 32)
   || (n =? 133) || (n =? 160))%nat.

Fixpoint lstrip (s : list ascii) : list ascii :=
  match s with
  | c :: s' => if isspace c then lstrip s' else s
  | [] => []
  end.

(** [s.strip()] *)
Definition strip (s : list ascii) : list ascii :=
  reverse (lstrip (reverse (lstrip s))).

(** [s.split()]: the maximal runs of characters that are not white space.
    [cur] is the run being read, last character first. *)
Fixpoint split_from (cur : list ascii) (s : list ascii) : list (list ascii) :=
  match s with
  | [] => match cur with [] => [] | _ => [reverse cur] end
  | c :: s' =>
      if isspace c
      then match cur with
           | [] => split_from [] s'
           | _ => reverse cur :: split_from [] s'
           end
      else split_from (c :: cur) s'
  end.

Definition split (s : list ascii) : list (list ascii) := split_from [] s.

Definition digit_value (c : ascii) : option Z :=
  let n := nat_of_ascii c in
  if ((48 <=? n) && (n <=? 57))%nat then Some (Z.of_nat n - 48) else None.

(** The digits after the first one: single underscores may separate
    digits. *)
Fixpoint digits_from (acc : Z) (after_underscore : bool) (s : list ascii)
  : option Z :=
  match s with
  | [] => if after_underscore then None else Some acc
  | c :: s' =>
      match digit_value c with
      | Some d => digits_from (10 * acc + d) false s'
      | None =>
          if bool_decide (c = "_"%char) && negb after_underscore
          then digits_from acc true s'
          else None
      end
  end.

Definition decimal (s : list ascii) : option Z :=
  match s with
  | c :: s' =>
      match digit_value c with
      | Some d => digits_from d false s'
      | None => None
      end
  | [] => None
  end.

(** [int(s)]: surrounding white space, an optional sign and a decimal
    number; [None] stands for the [ValueError]. *)
Definition int (s : list ascii) : option Z :=
  match strip s with
  | c :: s' =>
      if bool_decide (c = "-"%char) then Z.opp <$> decimal s'
      else if bool_decide (c = "+"%char) then decimal s'
      else decimal (c :: s')
  | [] => None
  end.

End pystr.

(** What the loop over the lines of the file keeps: the set
    [edges_to_add] and the lines printed so far. *)
Record load_state : Type := mkLoad {
  edges_to_add : gset (Z * Z);
  printed : list string
}.

(** Lines 32-71: the body of the loop for one line. *)
Definition read_line (st : load_state) (line : string) : load_state :=
  let line := pystr.strip (list_ascii_of_string line) in
  match line with
  | [] => st
  | c :: _ =>
      if bool_decide (c = "#"%char) then st
      else
        match pystr.split line with
        | p0 :: p1 :: _ =>
            match pystr.int p0, pystr.int p1 with
            | Some u, Some v =>
                if bool_decide (u ≠ v)
                then mkLoad ({[ (Z.min u v, Z.max u v) ]} ∪ edges_to_add st)
                            (printed st)
                else st
            | _, _ =>
                mkLoad (edges_to_add st)
                       (printed st ++
                          ["Skipping line with non-integer nodes: "
                             +:+ string_of_list_ascii line])
            end
        | _ =>
            mkLoad (edges_to_add st)
                   (printed st ++
                      ["Skipping malformed line: "
                         +:+ string_of_list_ascii line])
        end
  end.

(** Lines 75-78: the end points of all edges. *)
Definition all_nodes_of (edges : list (Z * Z)) : gset Z :=
  foldl (λ all_nodes e, all_nodes ∪ {[e.1]} ∪ {[e.2]}) ∅ edges.

(** [loadsnap], on the lines of the opened file.  A Python set is
    enumerated in an order the language leaves open; here it is the order
    of [elements]. *)
Definition loadsnap (lines : list string)
  : result (nx.Graph * sp.csc_matrix * sp.csc_matrix) * list string :=
  let st := foldl read_line (mkLoad ∅ []) lines in
  let all_nodes := all_nodes_of (elements (edges_to_add st)) in
  let g := nx.add_nodes_from nx.empty_graph
             (merge_sort Z.le (elements all_nodes)) in
  let g := nx.add_edges_from g (elements (edges_to_add st)) in
  (let+ adj_matrix := nx.adjacency_matrix g in
   let degrees := sp.row_sums adj_matrix in
   let deg_matrix := sp.diags degrees in
   Ok (g, adj_matrix, deg_matrix),
   printed st).

(** The edge list of the scenario, one string for each line. *)
Definition sample_lines : list string :=
  ["0 1"; "0 2"; "1 2"; "2 3"; "3 3"; "0 1"].

(** ** Vocabulary of the specification *)

(** [v] is a neighbour of [u]. *)
Definition edge (g : nx.Graph) (u v : Z) : Prop := v ∈ nx.neighbors g u.

(** There is a path from [u] to [v]. *)
Definition reachable (g : nx.Graph) : relation Z := rtc (edge g).

(** A single connected component: every node reaches every node. *)
Definition connected (g : nx.Graph) : Prop :=
  ∀ u v, u ∈ nx.nodes g → v ∈ nx.nodes g → reachable g u v.

(** The invariants of a simple undirected graph. *)
Record graph_wf (g : nx.Graph) : Prop := mkWf {
  wf_nodup : NoDup (nx.nodes g);
  wf_closed : ∀ u v, edge g u v → u ∈ nx.nodes g ∧ v ∈ nx.nodes g;
  wf_sym : ∀ u v, edge g u v → edge g v u;
  wf_irrefl : ∀ u, ¬ edge g u u
}.

(** The number of connected components. *)
Definition component_count (g : nx.Graph) : nat :=
  length (nx.connected_components g).

(** The connected components as a set of sets. *)
Definition classes (g : nx.Graph) : gset (gset Z) :=
  list_to_set (nx.plain_bfs g <$> nx.nodes g).

(** A set of nodes that contains, with a node, its whole component. *)
Definition saturated (g : nx.Graph) (seen : gset Z) : Prop :=
  ∀ x y, x ∈ seen → reachable g x y → y ∈ seen.

(** The nodes that the search from [s] has seen after [k] levels. *)
Definition level (g : nx.Graph) (s : Z) (k : nat) : gset Z :=
  Nat.iter k (nx.expand g) {[s]}.

(** [repairs g l g']: adding the edges of [l] one after the other leads
    from [g] to [g'], and each of them joins two nodes that lie in
    different connected components of the graph it is added to. *)
Inductive repairs : nx.Graph → list (Z * Z) → nx.Graph → Prop :=
  | repairs_nil g : repairs g [] g
  | repairs_cons g u v l g' :
      u ∈ nx.nodes g → v ∈ nx.nodes g → ¬ reachable g u v →
      S (component_count (nx.add_edge g u v)) = component_count g →
      repairs (nx.add_edge g u v) l g' →
      repairs g ((u, v) :: l) g'.

(** The events of the calls [g.add_edge(u, v)] for the pairs of [l]. *)
Definition add_edge_events (l : list (Z * Z)) : list event :=
  (λ e, EvAddEdge e.1 e.2) <$> l.

(** Two worlds of one run: the same random source and, in the second,
    the events [es] after those of the first. *)
Definition extends (w : world) (es : list event) (w' : world) : Prop :=
  draws w' = draws w ∧ (cursor w ≤ cursor w')%nat
  ∧ events w' = events w ++ es.

(** A graph without edges. *)
Definition edgeless (g : nx.Graph) : Prop := ∀ u, nx.neighbors g u = ∅.

(** [p] is a probability: a number with [0 <= p <= 1]. *)
Definition probability (p : pyfloat) : Prop :=
  ∃ q : Q, p = Finite q ∧ (0 <= q)%Q ∧ (q <= 1)%Q.

(** What the sampling phase keeps true of the graph and the world. *)
Definition sampling_inv (g0 : nx.Graph) (w0 : world)
    (g : nx.Graph) (w : world) : Prop :=
  graph_wf g ∧ nx.nodes g = nx.nodes g0
  ∧ ∃ l, extends w0 (add_edge_events l) w.

(** The check of line 19. *)
Definition probability_check (p : pyfloat) : bool :=
  float_le (Finite 0) p && float_le p (Finite 1).

(** A square matrix in well-formed CSC form: what an adjacency matrix is
    once [tocsc()] was applied. *)
Definition adjacency_form (m : sp.spmatrix) : Prop :=
  (sp.shape (sp.csc_form m)).1 = (sp.shape (sp.csc_form m)).2
  ∧ sp.well_formed (sp.csc_form m).

(** The number of rows, [adj_mat.shape[0]]. *)
Definition matrix_size (m : sp.spmatrix) : Z :=
  Z.of_nat (sp.shape (sp.csc_form m)).1.

(** The adjacency matrix of the graph with the edges 0-1, 0-2, 1-2 and
    2-3, and an empty matrix with three rows and columns. *)
Definition example_matrix : sp.spmatrix :=
  sp.mkSp sp.CSC
    (sp.mkCsc (4%nat, 4%nat) [0; 2; 4; 7; 8]%nat [1; 2; 0; 2; 0; 1; 3; 2]%nat
              [1; 1; 1; 1; 1; 1; 1; 1]).

Definition empty_matrix_3 : sp.spmatrix :=
  sp.mkSp sp.CSC (sp.mkCsc (3%nat, 3%nat) [0; 0; 0; 0]%nat [] []).

(** The matrix properties of the specification. *)
Definition symmetric (m : sp.csc_matrix) : Prop :=
  ∀ i j, sp.get m i j = sp.get m j i.
Definition binary (m : sp.csc_matrix) : Prop :=
  ∀ i j, sp.get m i j = 0 ∨ sp.get m i j = 1.
Definition zero_diagonal (m : sp.csc_matrix) : Prop :=
  ∀ i, sp.get m i i = 0.

(** The nodes at the positions [i] and [j] of the node order are
    neighbours. *)
Definition adjacent_at (g : nx.Graph) (i j : nat) : bool :=
  match nx.nodes g !! j with
  | Some v => nx.is_neighbor_row g v i
  | None => false
  end.

(** The pair of integers that a line of the file stands for; [None] for
    the lines that [loadsnap] skips (comments, blank lines, lines with
    fewer than two fields or with a field that is not an integer). *)
Definition line_pair (line : string) : option (Z * Z) :=
  let line := pystr.strip (list_ascii_of_string line) in
  match line with
  | [] => None
  | c :: _ =>
      if bool_decide (c = "#"%char) then None
      else match pystr.split line with
           | p0 :: p1 :: _ =>
               match pystr.int p0, pystr.int p1 with
               | Some u, Some v => Some (u, v)
               | _, _ => None
               end
           | _ => None
           end
  end.

(** The parts of what [loadsnap] computes and returns. *)
Definition loaded_edges (lines : list string) : gset (Z * Z) :=
  edges_to_add (foldl read_line (mkLoad ∅ []) lines).
Definition loaded_graph (lines : list string) : nx.Graph :=
  nx.add_edges_from
    (nx.add_nodes_from nx.empty_graph
       (merge_sort Z.le
          (elements (all_nodes_of (elements (loaded_edges lines))))))
    (elements (loaded_edges lines)).

(** The same edge list as the lines that iterating over the file of the
    module's example yields: a comment first, every line with its newline
    character. *)
Definition newline : string := String "010"%char EmptyString.
Definition sample_file : list string :=
  (λ line, line +:+ newline)
    <$> ["# Sample graph file"; "0 1"; "0 2"; "1 2"; "2 3"; "3 3"; "0 1"].

(** The pairs [(i, j)] with [0 <= i < j < n], in the order in which the
    two loops of lines 28-29 visit them. *)
Definition all_pairs (n : Z) : list (Z * Z) :=
  concat ((λ i, (λ j, (i, j)) <$> seqZ (i + 1) (n - (i + 1))) <$> seqZ 0 n).

(** The row indices stored for column [j]:
    [indices[indptr[j]:indptr[j+1]]]. *)
Definition column_rows (m : sp.csc_matrix) (j : nat) : list nat :=
  match sp.indptr m !! j, sp.indptr m !! S j with
  | Some s, Some e => sp.slice (sp.indices m) s e
  | _, _ => []
  end.

(** The sum of the entries of row [i]. *)
Definition row_total (m : sp.csc_matrix) (i : nat) : Z :=
  foldr Z.add 0 ((λ j, sp.get m i j) <$> seq 0 (sp.shape m).2).

(** Two files name the same undirected edges: a pair of different
    integers on a line of one is, in this or in the other order, on a
    line of the other. *)
Definition names_edge (lines : list string) (u v : Z) : Prop :=
  ∃ line, line ∈ lines
          ∧ (line_pair line = Some (u, v) ∨ line_pair line = Some (v, u)).
Definition same_edges (lines1 lines2 : list string) : Prop :=
  ∀ u v, u ≠ v → names_edge lines1 u v ↔ names_edge lines2 u v.

(** The float that [random.random()] makes of the raw value [k]. *)
Definition draw_float (k : N) : pyfloat :=
  Finite (Z.of_N (k mod 2 ^ 53) # 2 ^ 53).

(** The pairs of [l] that pass their Bernoulli trial when the trial of the
    first pair takes the draw at position [c] of the source [d], the
    trial of the second pair the next draw, and so on. *)
Fixpoint kept_pairs (d : nat → N) (p : pyfloat) (c : nat)
    (l : list (Z * Z)) : list (Z * Z) :=
  match l with
  | [] => []
  | e :: l' =>
      if float_le (draw_float (d c)) p
      then e :: kept_pairs d p (S c) l'
      else kept_pairs d p (S c) l'
  end.

(** The seeds together with the row indices stored in their columns. *)
Definition closed_neighborhood (m : sp.csc_matrix) (seeds : list Z)
  : gset Z :=
  list_to_set seeds
    ∪ ⋃ ((λ s, list_to_set (Z.of_nat <$> column_rows m (Z.to_nat s)))
           <$> seeds).

(** The sum of the degrees of all nodes. *)
Definition degree_sum (g : nx.Graph) : nat :=
  sum_list ((λ v, size (nx.neighbors g v)) <$> nx.nodes g).

(** ** Breadth-first search and connected components *)

Section search.
Context (g : nx.Graph) (Hwf : graph_wf g).

Lemma elem_of_expand (S : gset Z) (x : Z) :
  x ∈ nx.expand g S ↔ x ∈ S ∨ ∃ u, u ∈ S ∧ edge g u x.
Proof.
  unfold nx.expand. rewrite elem_of_union, elem_of_union_list.
  split; (intros [?|H]; [by left|right]).
  - destruct H as (X & HX & Hx).
    apply list_elem_of_fmap in HX as (u & -> & Hu).
    exists u. by rewrite <- elem_of_elements.
  - destruct H as (u & Hu & Hx). exists (nx.neighbors g u).
    split; [|done]. apply list_elem_of_fmap. exists u.
    by rewrite elem_of_elements.
Qed.

Lemma expand_subseteq (S : gset Z) : S ⊆ nx.expand g S.
Proof. intros x Hx. apply elem_of_expand. by left. Qed.

Lemma level_succ s k : level g s (S k) = nx.expand g (level g s k).
Proof. done. Qed.

Lemma level_sound s k x : x ∈ level g s k → reachable g s x.
Proof.
  revert x. induction k as [|k IH]; intros x; [|rewrite level_succ].
  - unfold level; simpl. intros ->%elem_of_singleton. apply rtc_refl.
  - intros [?|(u & Hu & Hux)]%elem_of_expand; [by apply IH|].
    eapply rtc_r; [by apply IH|done].
Qed.

Lemma level_in_nodes s k :
  s ∈ nx.nodes g → level g s k ⊆ list_to_set (nx.nodes g).
Proof.
  intros Hs x Hx%level_sound. apply elem_of_list_to_set.
  unfold reachable in Hx.
  induction Hx as [|a b c Hab _ IH]; [done|].
  apply IH. by apply (wf_closed g Hwf a b).
Qed.

Lemma level_grows s k :
  nx.expand g (level g s k) = level g s k ∨ (k < size (level g s k))%nat.
Proof.
  induction k as [|k [IH|IH]].
  - right. change (level g s 0) with ({[s]} : gset Z).
    rewrite size_singleton. lia.
  - left. by rewrite level_succ, !IH.
  - destruct (decide (nx.expand g (level g s (S k)) = level g s (S k)))
      as [|Hne]; [by left|right].
    destruct (decide (level g s (S k) = level g s k)) as [Heq|Hne'].
    { exfalso. apply Hne. rewrite level_succ in *. by rewrite !Heq. }
    assert (level g s k ⊂ level g s (S k)) as Hlt%subset_size.
    { apply strict_spec_alt. split; [apply expand_subseteq|done]. }
    lia.
Qed.

Lemma plain_bfs_fixpoint s :
  s ∈ nx.nodes g → nx.expand g (nx.plain_bfs g s) = nx.plain_bfs g s.
Proof.
  intros Hs. destruct (level_grows s (length (nx.nodes g))) as [|Hlt];
    [done|exfalso].
  pose proof (subseteq_size _ _ (level_in_nodes s (length (nx.nodes g)) Hs))
    as Hle.
  rewrite size_list_to_set in Hle by apply Hwf. lia.
Qed.

Lemma elem_of_plain_bfs s x :
  s ∈ nx.nodes g → x ∈ nx.plain_bfs g s ↔ reachable g s x.
Proof.
  intros Hs. split; [apply (level_sound s (length (nx.nodes g)))|].
  intros Hx.
  assert (s ∈ nx.plain_bfs g s) as Hin.
  { unfold nx.plain_bfs. generalize (length (nx.nodes g)). intros k.
    induction k; simpl; [set_solver|by apply expand_subseteq]. }
  assert (∀ a c, rtc (edge g) a c →
            a ∈ nx.plain_bfs g s → c ∈ nx.plain_bfs g s) as Hclosed.
  { induction 1 as [|a b c Hab _ IH]; [done|]. intros Ha.
    apply IH. rewrite <- plain_bfs_fixpoint by done.
    apply elem_of_expand. right. eauto. }
  by apply (Hclosed s x).
Qed.

End search.

Section components.
Context (g : nx.Graph) (Hwf : graph_wf g).

Lemma reachable_sym u v : reachable g u v → reachable g v u.
Proof.
  unfold reachable. induction 1 as [|a b c Hab _ IH]; [done|].
  eapply rtc_r; [done|]. by apply (wf_sym g Hwf).
Qed.

Lemma reachable_in_nodes u v :
  u ∈ nx.nodes g → reachable g u v → v ∈ nx.nodes g.
Proof.
  intros Hu Huv. unfold reachable in Huv.
  induction Huv as [|a b c Hab _ IH]; [done|].
  apply IH. by apply (wf_closed g Hwf a b).
Qed.

Lemma plain_bfs_self s : s ∈ nx.nodes g → s ∈ nx.plain_bfs g s.
Proof. intros Hs. by apply elem_of_plain_bfs. Qed.

Lemma plain_bfs_in_nodes s x :
  s ∈ nx.nodes g → x ∈ nx.plain_bfs g s → x ∈ nx.nodes g.
Proof.
  intros Hs Hx. apply (reachable_in_nodes s); [done|].
  by apply (elem_of_plain_bfs g Hwf s x).
Qed.

Lemma plain_bfs_class u v :
  u ∈ nx.nodes g → reachable g u v → nx.plain_bfs g u = nx.plain_bfs g v.
Proof.
  intros Hu Huv. pose proof (reachable_in_nodes u v Hu Huv) as Hv.
  apply set_eq. intros x. rewrite !elem_of_plain_bfs by done.
  split; intros Hx.
  - by etrans; [apply reachable_sym|].
  - by etrans.
Qed.

Lemma plain_bfs_elem_class u v :
  u ∈ nx.nodes g → v ∈ nx.plain_bfs g u →
  nx.plain_bfs g v = nx.plain_bfs g u.
Proof.
  intros Hu Hv. symmetry. apply plain_bfs_class; [done|].
  by apply (elem_of_plain_bfs g Hwf u v).
Qed.

Lemma saturated_union_bfs seen v :
  v ∈ nx.nodes g → saturated g seen → saturated g (seen ∪ nx.plain_bfs g v).
Proof.
  intros Hv Hs x y [Hx|Hx]%elem_of_union Hxy; apply elem_of_union.
  - left. by apply (Hs x).
  - right. apply elem_of_plain_bfs; [done..|]. etrans; [|done].
    by apply (elem_of_plain_bfs g Hwf v x).
Qed.

Lemma elem_of_components_from l seen c :
  l ⊆ nx.nodes g → saturated g seen →
  (c ∈ nx.connected_components_from g l seen)
  ↔ (∃ v, v ∈ l ∧ (v ∉ seen) ∧ c = nx.plain_bfs g v).
Proof.
  revert seen. induction l as [|v l IH]; intros seen Hl Hs; simpl.
  { split; [by intros ?%elem_of_nil|]. by intros (? & ?%elem_of_nil & _). }
  assert (v ∈ nx.nodes g) as Hv by (apply Hl; left).
  assert (l ⊆ nx.nodes g) as Hl' by (intros x Hx; apply Hl; by right).
  destruct (decide (v ∈ seen)) as [Hin|Hout].
  - rewrite IH by done. split; intros (v' & Hv' & Hns & ->).
    + exists v'. split; [by right|done].
    + exists v'. split; [|done].
      apply elem_of_cons in Hv' as [->|]; done.
  - rewrite elem_of_cons, IH by auto using saturated_union_bfs. split.
    + intros [->|(v' & Hv' & Hns & ->)].
      * exists v. split; [by left|done].
      * exists v'. split; [by right|]. split; [set_solver|done].
    + intros (v' & Hv' & Hns & ->).
      destruct (decide (v' ∈ nx.plain_bfs g v)) as [Hc|Hc].
      * left. by apply plain_bfs_elem_class.
      * right. exists v'. split; [|split; [set_solver|done]].
        apply elem_of_cons in Hv' as [->|]; [|done].
        destruct Hc. by apply plain_bfs_self.
Qed.

Lemma NoDup_components_from l seen :
  l ⊆ nx.nodes g → saturated g seen →
  NoDup (nx.connected_components_from g l seen).
Proof.
  revert seen. induction l as [|v l IH]; intros seen Hl Hs; simpl.
  { constructor. }
  assert (v ∈ nx.nodes g) as Hv by (apply Hl; left).
  assert (l ⊆ nx.nodes g) as Hl' by (intros x Hx; apply Hl; by right).
  destruct (decide (v ∈ seen)); [by apply IH|].
  constructor; [|by apply IH; auto using saturated_union_bfs].
  rewrite elem_of_components_from by auto using saturated_union_bfs.
  intros (v' & Hv' & Hns & Heq).
  apply Hns, elem_of_union. right. rewrite Heq. apply plain_bfs_self. auto.
Qed.

Lemma saturated_empty : saturated g ∅.
Proof. intros x y ?%not_elem_of_empty. done. Qed.

Lemma elem_of_connected_components c :
  c ∈ nx.connected_components g
  ↔ ∃ v, v ∈ nx.nodes g ∧ c = nx.plain_bfs g v.
Proof.
  unfold nx.connected_components.
  rewrite elem_of_components_from by (done || apply saturated_empty).
  split; intros (v & Hv & H); exists v; set_solver.
Qed.

Lemma elem_of_classes c :
  c ∈ classes g ↔ ∃ v, v ∈ nx.nodes g ∧ c = nx.plain_bfs g v.
Proof.
  unfold classes. rewrite elem_of_list_to_set, list_elem_of_fmap.
  split; intros (v & ? & ?); by exists v.
Qed.

Lemma component_count_classes : component_count g = size (classes g).
Proof.
  unfold component_count.
  rewrite <- (size_list_to_set (C := gset (gset Z)));
    [|apply NoDup_components_from; [done|apply saturated_empty]].
  f_equal. apply set_eq. intros c.
  by rewrite elem_of_list_to_set, elem_of_connected_components,
    elem_of_classes.
Qed.

Lemma connected_classes v0 :
  v0 ∈ nx.nodes g →
  connected g ↔ classes g = {[ nx.plain_bfs g v0 ]}.
Proof.
  intros Hv0. split.
  - intros Hc. apply set_eq. intros c.
    rewrite elem_of_classes, elem_of_singleton. split.
    + intros (v & Hv & ->). symmetry. apply plain_bfs_class; auto.
    + intros ->. eauto.
  - intros Heq u v Hu Hv.
    assert (nx.plain_bfs g u = nx.plain_bfs g v) as Huv.
    { assert (nx.plain_bfs g u ∈ classes g) as Hcu
        by (apply elem_of_classes; eauto).
      assert (nx.plain_bfs g v ∈ classes g) as Hcv
        by (apply elem_of_classes; eauto).
      rewrite Heq in Hcu, Hcv.
      apply elem_of_singleton in Hcu, Hcv. congruence. }
    apply elem_of_plain_bfs; [done..|]. rewrite Huv.
    by apply plain_bfs_self.
Qed.

Lemma connected_component_count :
  nx.nodes g ≠ [] → connected g ↔ component_count g = 1%nat.
Proof.
  intros Hne. destruct (nx.nodes g) as [|v0 rest] eqn:Hn; [done|].
  assert (v0 ∈ nx.nodes g) as Hv0 by (rewrite Hn; left).
  rewrite component_count_classes, (connected_classes v0 Hv0). split.
  - intros ->. apply size_singleton.
  - intros (c & Hc)%size_1_elem_of. apply leibniz_equiv in Hc.
    rewrite Hc. f_equal.
    assert (nx.plain_bfs g v0 ∈ classes g) as Hin
      by (apply elem_of_classes; eauto).
    rewrite Hc in Hin. apply elem_of_singleton in Hin. done.
Qed.

Lemma is_connected_spec v0 rest :
  nx.nodes g = v0 :: rest →
  ∃ b, nx.is_connected g = Ok b ∧ (b = true ↔ connected g).
Proof.
  intros Hn. unfold nx.is_connected. rewrite Hn, <- Hn.
  eexists; split; [done|]. rewrite bool_decide_eq_true.
  assert (v0 ∈ nx.nodes g) as Hv0 by (rewrite Hn; left).
  assert (nx.plain_bfs g v0 ⊆ list_to_set (nx.nodes g)) as Hsub.
  { intros x Hx. apply elem_of_list_to_set. by eapply plain_bfs_in_nodes. }
  rewrite <- (size_list_to_set (C := gset Z) (nx.nodes g)) by apply Hwf.
  split.
  - intros Hsz u v Hu Hv.
    assert (nx.plain_bfs g v0 = list_to_set (nx.nodes g)) as Heq.
    { apply set_subseteq_size_eq; [done|lia]. }
    assert (∀ x, x ∈ nx.nodes g → reachable g v0 x) as Hall.
    { intros x Hx. apply (elem_of_plain_bfs g Hwf); [done|].
      rewrite Heq. by apply elem_of_list_to_set. }
    trans v0; [apply reachable_sym|]; by apply Hall.
  - intros Hc. f_equal. apply set_eq. intros x.
    rewrite elem_of_list_to_set. split; [by apply plain_bfs_in_nodes|].
    intros Hx. apply elem_of_plain_bfs; auto.
Qed.

End components.

(** ** Adding an edge *)

Section add_edge.
Context (g : nx.Graph) (Hwf : graph_wf g).
Context (a b : Z) (Ha : a ∈ nx.nodes g) (Hb : b ∈ nx.nodes g).

Lemma add_node_present u : u ∈ nx.nodes g → nx.add_node g u = g.
Proof. intros Hu. unfold nx.add_node. by rewrite decide_True. Qed.

Lemma nodes_add_edge : nx.nodes (nx.add_edge g a b) = nx.nodes g.
Proof. unfold nx.add_edge. by rewrite !add_node_present. Qed.

Lemma edge_add_edge x y :
  edge (nx.add_edge g a b) x y
  ↔ edge g x y ∨ (x = a ∧ y = b) ∨ (x = b ∧ y = a).
Proof.
  unfold edge, nx.neighbors, nx.add_edge. rewrite !add_node_present by done.
  simpl. destruct (decide (x = b)) as [->|Hxb].
  - rewrite lookup_insert_eq. simpl.
    destruct (decide (a = b)) as [->|Hab].
    + rewrite lookup_insert_eq. simpl. set_solver.
    + rewrite lookup_insert_ne by done. set_solver.
  - rewrite lookup_insert_ne by done.
    destruct (decide (x = a)) as [->|Hxa].
    + rewrite lookup_insert_eq. simpl. set_solver.
    + rewrite lookup_insert_ne by done. set_solver.
Qed.

Lemma graph_wf_add_edge : a ≠ b → graph_wf (nx.add_edge g a b).
Proof.
  intros Hab. destruct Hwf as [Hnd Hcl Hsym Hirr]. split.
  - by rewrite nodes_add_edge.
  - intros u v. rewrite nodes_add_edge, edge_add_edge.
    intros [?|[[-> ->]|[-> ->]]]; auto.
  - intros u v. rewrite !edge_add_edge. naive_solver.
  - intros u. rewrite edge_add_edge. naive_solver.
Qed.

Lemma reachable_add_edge_mono x y :
  reachable g x y → reachable (nx.add_edge g a b) x y.
Proof.
  unfold reachable. apply rtc_subrel. intros u v Huv.
  apply edge_add_edge. by left.
Qed.

Lemma reachable_add_edge x y :
  reachable (nx.add_edge g a b) x y
  ↔ reachable g x y
    ∨ (reachable g x a ∧ reachable g b y)
    ∨ (reachable g x b ∧ reachable g a y).
Proof.
  split.
  - unfold reachable. induction 1 as [x|x z y Hxz _ IH]; [by left|].
    apply edge_add_edge in Hxz as [Hxz|[[-> ->]|[-> ->]]].
    + destruct IH as [IH|[[IH1 IH2]|[IH1 IH2]]].
      * left. by eapply rtc_l.
      * right; left. split; [by eapply rtc_l|done].
      * right; right. split; [by eapply rtc_l|done].
    + destruct IH as [IH|[[IH1 IH2]|[IH1 IH2]]].
      * right; left. split; [apply rtc_refl|done].
      * right; left. split; [apply rtc_refl|done].
      * by left.
    + destruct IH as [IH|[[IH1 IH2]|[IH1 IH2]]].
      * right; right. split; [apply rtc_refl|done].
      * by left.
      * right; right. split; [apply rtc_refl|done].
  - assert (edge (nx.add_edge g a b) a b) as Hab
      by (apply edge_add_edge; auto).
    assert (edge (nx.add_edge g a b) b a) as Hba
      by (apply edge_add_edge; auto).
    intros [H|[[H1 H2]|[H1 H2]]].
    + by apply reachable_add_edge_mono.
    + trans a; [by apply reachable_add_edge_mono|].
      eapply rtc_l; [done|]. by apply reachable_add_edge_mono.
    + trans b; [by apply reachable_add_edge_mono|].
      eapply rtc_l; [done|]. by apply reachable_add_edge_mono.
Qed.

Context (Hsep : ¬ reachable g a b).

Lemma separated_distinct : a ≠ b.
Proof. intros ->. apply Hsep. apply rtc_refl. Qed.

Lemma plain_bfs_add_edge x :
  x ∈ nx.nodes g →
  nx.plain_bfs (nx.add_edge g a b) x =
    if decide (x ∈ nx.plain_bfs g a ∪ nx.plain_bfs g b)
    then nx.plain_bfs g a ∪ nx.plain_bfs g b
    else nx.plain_bfs g x.
Proof.
  intros Hx. pose proof (graph_wf_add_edge separated_distinct) as Hwf'.
  assert (∀ u v, u ∈ nx.nodes g →
            v ∈ nx.plain_bfs g u ↔ reachable g u v) as Hspec
    by (intros; by apply elem_of_plain_bfs).
  assert (∀ u v, reachable g u v → reachable g v u) as Hsym
    by (intros; by apply reachable_sym).
  apply set_eq. intros y.
  rewrite (elem_of_plain_bfs _ Hwf') by (by rewrite nodes_add_edge).
  rewrite reachable_add_edge. case_decide as Hc.
  - rewrite elem_of_union, !Hspec in Hc |- * by done. split.
    + intros [H|[[H1 H2]|[H1 H2]]]; [|by auto..].
      destruct Hc as [Hc|Hc]; [left|right]; by etrans.
    + destruct Hc as [Hc|Hc]; intros [H|H]; auto 6.
      * left. by etrans; [apply Hsym|].
      * left. by etrans; [apply Hsym|].
  - rewrite elem_of_union, !Hspec in Hc by done.
    rewrite Hspec by done. split; [|by auto].
    intros [H|[[H1 H2]|[H1 H2]]]; [done|exfalso; apply Hc; auto..].
Qed.

Lemma classes_add_edge :
  classes (nx.add_edge g a b) =
    (classes g ∖ {[ nx.plain_bfs g a; nx.plain_bfs g b ]})
      ∪ {[ nx.plain_bfs g a ∪ nx.plain_bfs g b ]}.
Proof.
  pose proof (graph_wf_add_edge separated_distinct) as Hwf'.
  apply set_eq. intros c.
  rewrite elem_of_union, elem_of_difference, elem_of_singleton.
  rewrite !elem_of_classes, nodes_add_edge.
  split.
  - intros (x & Hx & ->). rewrite plain_bfs_add_edge by done.
    case_decide as Hc; [by right|left]. split; [eauto|].
    intros [Heq|Heq%elem_of_singleton]%elem_of_union;
      [apply elem_of_singleton in Heq|]; apply Hc; apply elem_of_union;
      [left|right]; rewrite <- Heq; by apply plain_bfs_self.
  - intros [[(x & Hx & ->) Hne]| ->].
    + exists x. split; [done|]. rewrite plain_bfs_add_edge by done.
      case_decide as Hc; [|done]. exfalso. apply Hne.
      apply elem_of_union in Hc as [Hc|Hc]; apply elem_of_union;
        [left|right]; apply elem_of_singleton;
        by apply plain_bfs_elem_class.
    + exists a. split; [done|]. rewrite plain_bfs_add_edge by done.
      rewrite decide_True; [done|].
      apply elem_of_union. left. by apply plain_bfs_self.
Qed.

Lemma component_count_add_edge :
  S (component_count (nx.add_edge g a b)) = component_count g.
Proof.
  pose proof (graph_wf_add_edge separated_distinct) as Hwf'.
  rewrite (component_count_classes _ Hwf'), (component_count_classes _ Hwf).
  rewrite classes_add_edge.
  assert (nx.plain_bfs g a ∈ classes g) as Hca
    by (apply elem_of_classes; eauto).
  assert (nx.plain_bfs g b ∈ classes g) as Hcb
    by (apply elem_of_classes; eauto).
  assert (nx.plain_bfs g a ≠ nx.plain_bfs g b) as Hne.
  { intros Heq. apply Hsep. apply (elem_of_plain_bfs g Hwf); [done|].
    rewrite Heq. by apply plain_bfs_self. }
  rewrite size_union.
  2:{ intros c [Hc Hn]%elem_of_difference ->%elem_of_singleton.
      apply elem_of_classes in Hc as (x & Hx & Hc).
      apply Hn, elem_of_union. left. apply elem_of_singleton.
      rewrite Hc. symmetry. apply plain_bfs_elem_class; [done..|].
      rewrite <- Hc. apply elem_of_union. left. by apply plain_bfs_self. }
  assert ({[nx.plain_bfs g a; nx.plain_bfs g b]} ⊆ classes g) as Hs.
  { intros c [Hc|Hc]%elem_of_union; apply elem_of_singleton in Hc;
      by subst c. }
  assert (size ({[nx.plain_bfs g a; nx.plain_bfs g b]} : gset (gset Z))
          = 2%nat) as Hsz.
  { rewrite size_union, !size_singleton; [done|].
    by apply disjoint_singleton_l, not_elem_of_singleton. }
  rewrite size_singleton, size_difference, Hsz by done.
  apply subseteq_size in Hs. lia.
Qed.

End add_edge.

(** ** The random source *)

Section random.

Lemma extends_refl w : extends w [] w.
Proof. unfold extends. by rewrite app_nil_r. Qed.

Lemma extends_trans w1 es1 w2 es2 w3 :
  extends w1 es1 w2 → extends w2 es2 w3 → extends w1 (es1 ++ es2) w3.
Proof.
  intros (Hd1 & Hc1 & He1) (Hd2 & Hc2 & He2). unfold extends.
  rewrite Hd2, Hd1, He2, He1, app_assoc. split_and!; [done|lia|done].
Qed.

Lemma emit_spec e w : ∃ w', emit e w = (Ok tt, w') ∧ extends w [e] w'.
Proof. eexists. split; [done|]. by unfold extends. Qed.

Lemma randbelow_spec n w :
  (0 < n)%nat →
  ∃ k w', random.randbelow n w = (Ok k, w') ∧ (k < n)%nat
          ∧ extends w [] w'.
Proof.
  intros Hn. eexists _, _. split; [done|]. split.
  - apply Nat.mod_upper_bound. lia.
  - unfold extends. simpl. rewrite app_nil_r. split_and!; [done|lia|done].
Qed.

Lemma choice_spec {A} (l : list A) w :
  l ≠ [] →
  ∃ x w', random.choice l w = (Ok x, w') ∧ x ∈ l ∧ extends w [] w'.
Proof.
  intros Hl. destruct l as [|a l]; [done|]. unfold random.choice, bind.
  destruct (randbelow_spec (length (a :: l)) w) as (k & w' & -> & Hk & Hw);
    [simpl; lia|].
  destruct (lookup_lt_is_Some_2 (a :: l) k Hk) as [x Hx]. rewrite Hx.
  exists x, w'. split; [done|]. split; [|done].
  by eapply list_elem_of_lookup_2.
Qed.

Lemma sample2_spec n w :
  (2 ≤ n)%nat →
  ∃ i j w', random.sample2 n w = (Ok (i, j), w')
            ∧ (i < n)%nat ∧ (j < n)%nat ∧ i ≠ j ∧ extends w [] w'.
Proof.
  intros Hn. unfold random.sample2, bind.
  rewrite bool_decide_eq_false_2 by lia.
  destruct (randbelow_spec n w) as (j1 & w1 & -> & Hj1 & Hw1); [lia|].
  destruct (randbelow_spec (n - 1) w1) as (j2 & w2 & -> & Hj2 & Hw2); [lia|].
  eexists _, _, _. split; [done|].
  split_and!; [done|case_bool_decide; lia|case_bool_decide; lia|].
  apply (extends_trans _ [] _ [] _ Hw1 Hw2).
Qed.

(** The first value of the sample can be any position, and the second
    any other one: the choices of the source cover all pairs. *)
Lemma sample2_any n i j c es :
  (i < n)%nat → (j < n)%nat → i ≠ j →
  ∃ x y, ∀ d', d' c = x → d' (S c) = y →
    (random.sample2 n (mkWorld d' c es)).1 = Ok (i, j).
Proof.
  intros Hi Hj Hij.
  exists (N.of_nat i),
    (N.of_nat (if bool_decide (j = n - 1)%nat then i else j)).
  intros d' Hx Hy. unfold random.sample2, bind, random.randbelow, bind,
    random.next_raw, ret. simpl.
  rewrite bool_decide_eq_false_2 by lia. simpl. rewrite Hx, Hy.
  rewrite !Nat2N.id. rewrite (Nat.mod_small i n) by lia.
  do 2 f_equal. case_bool_decide as Hjn.
  - rewrite Nat.mod_small by lia. rewrite bool_decide_eq_true_2; done.
  - rewrite Nat.mod_small by lia. rewrite bool_decide_eq_false_2; done.
Qed.

End random.

(** ** The repair loop *)

Section repair.

Lemma component_count_le g l seen :
  (length (nx.connected_components_from g l seen) ≤ length l)%nat.
Proof.
  revert seen. induction l as [|v l IH]; intros seen; simpl; [lia|].
  case_decide; simpl; [specialize (IH seen)|specialize (IH (seen ∪ nx.plain_bfs g v))]; lia.
Qed.

Lemma component_count_pos g :
  nx.nodes g ≠ [] → (1 ≤ component_count g)%nat.
Proof.
  unfold component_count, nx.connected_components.
  destruct (nx.nodes g) as [|v l]; [done|]. intros _. simpl.
  rewrite decide_False by apply not_elem_of_empty. simpl. lia.
Qed.

Lemma repair_iteration_spec g w :
  graph_wf g → nx.nodes g ≠ [] → ¬ connected g →
  ∃ u v w',
    repair_iteration g w = (Ok (Some (nx.add_edge g u v)), w')
    ∧ u ∈ nx.nodes g ∧ v ∈ nx.nodes g ∧ ¬ reachable g u v
    ∧ S (component_count (nx.add_edge g u v)) = component_count g
    ∧ extends w [EvAddEdge u v] w'.
Proof.
  intros Hwf Hne Hnc. unfold repair_iteration.
  pose proof (component_count_pos g Hne) as Hpos.
  assert (component_count g ≠ 1%nat) as Hn1
    by (by rewrite <- connected_component_count).
  unfold component_count in Hpos, Hn1.
  rewrite bool_decide_eq_false_2 by lia. unfold bind at 1.
  destruct (sample2_spec (length (nx.connected_components g)) w)
    as (i & j & w1 & -> & Hi & Hj & Hij & Hw1); [lia|]. simpl.
  destruct (lookup_lt_is_Some_2 _ _ Hi) as [c1 Hc1].
  destruct (lookup_lt_is_Some_2 _ _ Hj) as [c2 Hc2].
  rewrite Hc1, Hc2.
  assert (c1 ≠ c2) as Hc12.
  { intros ->. apply Hij. eapply NoDup_lookup; [|done..].
    apply NoDup_components_from; [done..|apply saturated_empty]. }
  apply list_elem_of_lookup_2, elem_of_connected_components in Hc1
    as (v1 & Hv1 & ->); [|done].
  apply list_elem_of_lookup_2, elem_of_connected_components in Hc2
    as (v2 & Hv2 & ->); [|done].
  assert (∀ s, s ∈ nx.nodes g → elements (nx.plain_bfs g s) ≠ []) as Hel.
  { intros s Hs Hnil%elements_empty_inv. apply leibniz_equiv in Hnil.
    pose proof (plain_bfs_self g Hwf s Hs) as Hin.
    rewrite Hnil in Hin. by apply not_elem_of_empty in Hin. }
  unfold bind at 1.
  destruct (choice_spec (elements (nx.plain_bfs g v1)) w1)
    as (u & w2 & -> & Hu%elem_of_elements & Hw2); [by apply Hel|].
  unfold bind at 1.
  destruct (choice_spec (elements (nx.plain_bfs g v2)) w2)
    as (v & w3 & -> & Hv%elem_of_elements & Hw3); [by apply Hel|].
  unfold bind at 1.
  destruct (emit_spec (EvAddEdge u v) w3) as (w4 & -> & Hw4).
  pose proof (plain_bfs_in_nodes g Hwf v1 u Hv1 Hu) as Hun.
  pose proof (plain_bfs_in_nodes g Hwf v2 v Hv2 Hv) as Hvn.
  assert (¬ reachable g u v) as Hsep.
  { intros Huv. apply Hc12.
    rewrite <- (plain_bfs_elem_class g Hwf v1 u) by done.
    rewrite <- (plain_bfs_elem_class g Hwf v2 v) by done.
    by apply plain_bfs_class. }
  exists u, v, w4. split; [done|].
  split_and!; [done..|by apply component_count_add_edge|].
  apply (extends_trans _ [] _ _ _ Hw1).
  apply (extends_trans _ [] _ _ _ Hw2).
  by apply (extends_trans _ [] _ _ _ Hw3).
Qed.

Lemma repair_loop_spec fuel : ∀ g w,
  graph_wf g → nx.nodes g ≠ [] → (component_count g ≤ fuel)%nat →
  ∃ g' w' merges,
    repair_loop fuel g w = (Ok g', w')
    ∧ repairs g merges g'
    ∧ S (length merges) = component_count g
    ∧ graph_wf g' ∧ nx.nodes g' = nx.nodes g ∧ connected g'
    ∧ extends w (add_edge_events merges) w'.
Proof.
  induction fuel as [|fuel IH]; intros g w Hwf Hne Hfuel.
  { pose proof (component_count_pos g Hne). lia. }
  simpl. unfold bind at 1, lift.
  destruct (nx.nodes g) as [|v0 rest] eqn:Hn; [done|].
  destruct (is_connected_spec g Hwf v0 rest Hn) as (c & -> & Hc).
  destruct c.
  - assert (connected g) as Hcon by (by apply Hc).
    exists g, w, []. split; [done|]. split; [constructor|].
    split; [|by auto using extends_refl].
    simpl. symmetry. apply connected_component_count; [done| |done].
    by rewrite Hn.
  - assert (¬ connected g) as Hncon by (intros ?%Hc; done).
    unfold bind at 1.
    destruct (repair_iteration_spec g w Hwf)
      as (u & v & w1 & -> & Hu & Hv & Hsep & Hcnt & Hw1);
      [by rewrite Hn|done|].
    assert (u ≠ v) as Huv by (intros ->; apply Hsep, rtc_refl).
    pose proof (graph_wf_add_edge g Hwf u v Hu Hv Huv) as Hwf1.
    pose proof (nodes_add_edge g u v Hu Hv) as Hn1.
    destruct (IH (nx.add_edge g u v) w1 Hwf1)
      as (g' & w' & merges & -> & Hrep & Hlen & Hwf' & Hn' & Hcon & Hw');
      [by rewrite Hn1, Hn|lia|].
    exists g', w', ((u, v) :: merges). split; [done|].
    split; [by constructor|]. split; [simpl; lia|].
    split; [done|]. split; [by rewrite Hn', Hn1|]. split; [done|].
    apply (extends_trans _ [EvAddEdge u v] _ _ _ Hw1 Hw').
Qed.

End repair.

(** ** Building the graph *)

Section build.

Lemma graph_wf_edgeless g : NoDup (nx.nodes g) → edgeless g → graph_wf g.
Proof.
  intros Hnd He. split; [done|..]; unfold edge; intros *; rewrite He;
    by intros ?%not_elem_of_empty.
Qed.

Lemma add_nodes_from_edgeless l : ∀ g,
  edgeless g → NoDup (nx.nodes g ++ l) →
  nx.nodes (nx.add_nodes_from g l) = nx.nodes g ++ l
  ∧ edgeless (nx.add_nodes_from g l).
Proof.
  unfold nx.add_nodes_from.
  induction l as [|x l IH]; intros g He Hnd; simpl.
  { by rewrite app_nil_r. }
  assert (x ∉ nx.nodes g) as Hx.
  { apply NoDup_app in Hnd as (_ & Hd & _). intros Hin.
    apply (Hd x Hin). left. }
  assert (nx.add_node g x
          = nx.mkGraph (nx.nodes g ++ [x]) (<[x:=∅]> (nx.adj g))) as ->.
  { unfold nx.add_node. by rewrite decide_False. }
  destruct (IH (nx.mkGraph (nx.nodes g ++ [x]) (<[x:=∅]> (nx.adj g))))
    as [Hn He'].
  - intros u. unfold nx.neighbors. simpl.
    destruct (decide (x = u)) as [->|Hne].
    + by rewrite lookup_insert_eq.
    + rewrite lookup_insert_ne by done. apply He.
  - simpl. by rewrite <- app_assoc.
  - split; [|done]. rewrite Hn. simpl. by rewrite <- app_assoc.
Qed.

Lemma add_nodes_from_empty l :
  NoDup l →
  nx.nodes (nx.add_nodes_from nx.empty_graph l) = l
  ∧ edgeless (nx.add_nodes_from nx.empty_graph l)
  ∧ graph_wf (nx.add_nodes_from nx.empty_graph l).
Proof.
  intros Hnd.
  destruct (add_nodes_from_edgeless l nx.empty_graph) as [Hn He]; [|done|].
  { intros u. unfold nx.neighbors. simpl. by rewrite lookup_empty. }
  split; [done|]. split; [done|].
  apply graph_wf_edgeless; [by rewrite Hn|done].
Qed.

Lemma for_each_inv {A S} (P : A → Prop) (I : S → world → Prop)
    (l : list A) (body : A → S → M S) s w :
  Forall P l →
  (∀ x s w, P x → I s w → ∃ s' w', body x s w = (Ok s', w') ∧ I s' w') →
  I s w →
  ∃ s' w', for_each l body s w = (Ok s', w') ∧ I s' w'.
Proof.
  intros Hl Hbody. revert s w.
  induction Hl as [|x l Hx _ IH]; intros s w HI; simpl.
  { by exists s, w. }
  unfold bind. destruct (Hbody x s w Hx HI) as (s1 & w1 & -> & HI1).
  by apply IH.
Qed.

Lemma random_spec w :
  ∃ q w', random.random w = (Ok (Finite q), w') ∧ extends w [] w'.
Proof.
  eexists _, _. split; [done|]. unfold extends. simpl.
  rewrite app_nil_r. split_and!; [done|lia|done].
Qed.

Lemma sample_edges_spec n p g w :
  graph_wf g → nx.nodes g = seqZ 0 n →
  ∃ g' w' sampled,
    sample_edges n p g w = (Ok g', w')
    ∧ graph_wf g' ∧ nx.nodes g' = nx.nodes g
    ∧ extends w (add_edge_events sampled) w'.
Proof.
  intros Hwf Hn. unfold sample_edges.
  destruct (for_each_inv (λ i, 0 ≤ i < n) (sampling_inv g w) (seqZ 0 n)
    (λ i g, for_each (seqZ (i + 1) (n - (i + 1))) (λ j g,
      let* x := random.random in
      if float_le x p
      then let* _ := emit (EvAddEdge i j) in ret (nx.add_edge g i j)
      else ret g) g) g w) as (g' & w' & Hrun & Hwf' & Hn' & l & Hl).
  - apply Forall_forall. intros i Hi%elem_of_seqZ. lia.
  - intros i g1 w1 Hi HI.
    apply (for_each_inv (λ j, i < j < n) (sampling_inv g w)); [| |done].
    { apply Forall_forall. intros j Hj%elem_of_seqZ. lia. }
    clear g1 w1 HI. intros j g1 w1 Hj (Hwf1 & Hn1 & l & Hl).
    unfold bind at 1.
    destruct (random_spec w1) as (q & w2 & -> & Hw2).
    pose proof (extends_trans _ _ _ _ _ Hl Hw2) as Hl2.
    rewrite app_nil_r in Hl2.
    destruct (float_le (Finite q) p).
    + unfold bind, emit, ret. eexists _, _. split; [done|].
      assert (i ∈ nx.nodes g1) as Hi1
        by (rewrite Hn1, Hn; apply elem_of_seqZ; lia).
      assert (j ∈ nx.nodes g1) as Hj1
        by (rewrite Hn1, Hn; apply elem_of_seqZ; lia).
      split; [apply graph_wf_add_edge; [done..|lia]|].
      split; [by rewrite nodes_add_edge|].
      exists (l ++ [(i, j)]). unfold add_edge_events. rewrite fmap_app.
      apply (extends_trans _ _ _ _ _ Hl2). simpl.
      unfold extends. simpl. done.
    + exists g1, w2. split; [done|]. split; [done|]. split; [done|].
      by exists l.
  - split; [done|]. split; [done|]. exists []. apply extends_refl.
  - exists g', w', l. done.
Qed.

End build.

(** ** [create_connected_graph] *)

Section generator.

Lemma probability_check_spec p :
  probability_check p = true ↔ probability p.
Proof.
  unfold probability_check, probability. split.
  - destruct p as [q| | |]; simpl; try done.
    intros [H0 H1]%andb_true_iff. exists q.
    by rewrite <- !Qle_bool_iff.
  - intros (q & -> & H0 & H1). simpl.
    apply andb_true_iff. by rewrite !Qle_bool_iff.
Qed.

Lemma build_connected_graph_spec n p w fuel :
  1 ≤ n → probability p → (Z.to_nat n ≤ fuel)%nat →
  ∃ g0 g w' sampled merges,
    build_connected_graph fuel n p w = (Ok g, w')
    ∧ graph_wf g0 ∧ nx.nodes g0 = seqZ 0 n
    ∧ repairs g0 merges g ∧ S (length merges) = component_count g0
    ∧ graph_wf g ∧ nx.nodes g = seqZ 0 n ∧ connected g
    ∧ extends w ([EvGraph; EvAddNodes (seqZ 0 n)]
                   ++ add_edge_events sampled ++ add_edge_events merges) w'.
Proof.
  intros Hn Hp%probability_check_spec Hfuel. unfold build_connected_graph.
  unfold probability_check in Hp. rewrite Hp. simpl.
  rewrite bool_decide_eq_false_2 by lia.
  unfold bind at 1.
  destruct (emit_spec EvGraph w) as (w1 & -> & Hw1).
  unfold bind at 1.
  destruct (emit_spec (EvAddNodes (seqZ 0 n)) w1) as (w2 & -> & Hw2).
  destruct (add_nodes_from_empty (seqZ 0 n) (NoDup_seqZ 0 n))
    as (Hnodes & _ & Hwf).
  unfold bind at 1.
  destruct (sample_edges_spec n p _ w2 Hwf Hnodes)
    as (g0 & w3 & sampled & -> & Hwf0 & Hn0 & Hw3).
  rewrite Hnodes in Hn0.
  assert (nx.nodes g0 ≠ []) as Hne.
  { rewrite Hn0. intros Hnil. apply (f_equal length) in Hnil.
    rewrite length_seqZ in Hnil. simpl in Hnil. lia. }
  unfold bind at 1.
  destruct (repair_loop_spec fuel g0 w3 Hwf0 Hne)
    as (g & w4 & merges & -> & Hrep & Hlen & Hwf4 & Hn4 & Hcon & Hw4).
  { unfold component_count, nx.connected_components.
    etrans; [apply component_count_le|].
    by rewrite Hn0, length_seqZ. }
  unfold bind at 1, lift.
  destruct (nx.nodes g) as [|v0 rest] eqn:Hng; [by rewrite Hn4 in Hng|].
  destruct (is_connected_spec g Hwf4 v0 rest Hng) as (c & -> & Hc).
  assert (c = true) as -> by (by apply Hc).
  exists g0, g, w4, sampled, merges. split; [done|].
  split_and!; try done.
  - congruence.
  - pose proof (extends_trans _ _ _ _ _ Hw1 Hw2) as H12.
    pose proof (extends_trans _ _ _ _ _ Hw3 Hw4) as H34.
    apply (extends_trans _ _ _ _ _ H12 H34).
Qed.

End generator.

(** ** Edge probability zero *)

Section probability_zero.

Lemma plain_bfs_edgeless g s : edgeless g → nx.plain_bfs g s = {[ s ]}.
Proof.
  intros He. unfold nx.plain_bfs. generalize (length (nx.nodes g)).
  intros k. induction k as [|k IH]; [done|]. simpl. rewrite IH.
  apply set_eq. intros x. rewrite elem_of_expand. unfold edge.
  split; [|by left]. intros [?|(u & _ & Hu)]; [done|].
  rewrite He in Hu. by apply not_elem_of_empty in Hu.
Qed.

Lemma components_from_edgeless g l seen :
  edgeless g → NoDup l → (∀ x, x ∈ l → x ∉ seen) →
  length (nx.connected_components_from g l seen) = length l.
Proof.
  intros He. revert seen.
  induction l as [|v l IH]; intros seen Hnd Hseen; [done|]. simpl.
  apply NoDup_cons in Hnd as [Hv Hnd].
  rewrite decide_False by (apply Hseen; left). simpl. f_equal.
  apply IH; [done|]. intros x Hx.
  rewrite plain_bfs_edgeless by done.
  intros [Hin| ->%elem_of_singleton]%elem_of_union; [|done].
  by apply (Hseen x); [right|].
Qed.

Lemma component_count_edgeless g :
  edgeless g → NoDup (nx.nodes g) →
  component_count g = length (nx.nodes g).
Proof.
  intros He Hnd. apply components_from_edgeless; [done..|].
  intros x _. apply not_elem_of_empty.
Qed.

(** A draw that is not the float 0.0 fails the test [x <= 0]. *)
Lemma float_le_zero (k : N) :
  (k mod 2 ^ 53 ≠ 0)%N →
  float_le (Finite (Z.of_N (k mod 2 ^ 53) # 2 ^ 53)) (Finite 0) = false.
Proof.
  generalize (k mod 2 ^ 53)%N. intros x Hx. simpl. unfold Qle_bool.
  simpl. apply Z.leb_gt. lia.
Qed.

Lemma sample_edges_zero n g w :
  (∀ i, (draws w i mod 2 ^ 53 ≠ 0)%N) →
  ∃ w', sample_edges n (Finite 0) g w = (Ok g, w') ∧ extends w [] w'.
Proof.
  intros Hd. unfold sample_edges.
  destruct (for_each_inv (λ _, True) (λ g' w', g' = g ∧ extends w [] w')
    (seqZ 0 n)
    (λ i g, for_each (seqZ (i + 1) (n - (i + 1))) (λ j g,
      let* x := random.random in
      if float_le x (Finite 0)
      then let* _ := emit (EvAddEdge i j) in ret (nx.add_edge g i j)
      else ret g) g) g w) as (g' & w' & Hrun & -> & Hw').
  - by apply Forall_forall.
  - intros i g1 w1 _ HI.
    apply (for_each_inv (λ _, True) (λ g' w', g' = g ∧ extends w [] w'));
      [by apply Forall_forall| |done].
    clear g1 w1 HI. intros j g1 w1 _ [-> Hw1].
    unfold bind, random.random, bind, random.next_raw, ret.
    rewrite float_le_zero.
    2:{ destruct Hw1 as (-> & _ & _). apply Hd. }
    eexists _, _. split; [done|]. split; [done|].
    destruct Hw1 as (Hd1 & Hc1 & He1). unfold extends. simpl.
    split_and!; [done|lia|done].
  - split; [done|apply extends_refl].
  - by exists w'.
Qed.

(** With [p = 0] and a random source that never yields the float 0.0,
    the sampling phase adds no edge and the repair loop performs exactly
    [n - 1] merges. *)
Lemma probability_zero_nonzero_draws (n : Z) (w : world) (fuel : nat) :
  1 ≤ n → (Z.to_nat n ≤ fuel)%nat →
  (∀ i, (draws w i mod 2 ^ 53 ≠ 0)%N) →
  ∃ g w' merges,
    build_connected_graph fuel n (Finite 0) w = (Ok g, w')
    ∧ repairs (nx.add_nodes_from nx.empty_graph (seqZ 0 n)) merges g
    ∧ Z.of_nat (length merges) = n - 1
    ∧ extends w ([EvGraph; EvAddNodes (seqZ 0 n)]
                   ++ add_edge_events merges) w'.
Proof.
  intros Hn Hfuel Hd. unfold build_connected_graph. simpl.
  rewrite bool_decide_eq_false_2 by lia.
  unfold bind at 1.
  destruct (emit_spec EvGraph w) as (w1 & -> & Hw1).
  unfold bind at 1.
  destruct (emit_spec (EvAddNodes (seqZ 0 n)) w1) as (w2 & -> & Hw2).
  pose proof (extends_trans _ _ _ _ _ Hw1 Hw2) as H12.
  destruct (add_nodes_from_empty (seqZ 0 n) (NoDup_seqZ 0 n))
    as (Hnodes & Hedgeless & Hwf).
  set (g0 := nx.add_nodes_from nx.empty_graph (seqZ 0 n)) in *.
  unfold bind at 1.
  destruct (sample_edges_zero n g0 w2) as (w3 & -> & Hw3).
  { intros i. destruct H12 as (-> & _ & _). apply Hd. }
  assert (nx.nodes g0 ≠ []) as Hne.
  { rewrite Hnodes. intros Hnil. apply (f_equal length) in Hnil.
    rewrite length_seqZ in Hnil. simpl in Hnil. lia. }
  assert (component_count g0 = Z.to_nat n) as Hcount.
  { rewrite component_count_edgeless; [|done|by rewrite Hnodes; apply NoDup_seqZ].
    by rewrite Hnodes, length_seqZ. }
  unfold bind at 1.
  destruct (repair_loop_spec fuel g0 w3 Hwf Hne)
    as (g & w4 & merges & -> & Hrep & Hlen & Hwf4 & Hn4 & Hcon & Hw4);
    [lia|].
  unfold bind at 1, lift.
  assert (∃ v0 rest, nx.nodes g = v0 :: rest) as (v0 & rest & Hng).
  { destruct (nx.nodes g); [by rewrite Hn4 in Hne|eauto]. }
  destruct (is_connected_spec g Hwf4 v0 rest Hng) as (c & -> & Hc).
  assert (c = true) as -> by (by apply Hc).
  exists g, w4, merges. split; [done|]. split; [done|]. split; [lia|].
  pose proof (extends_trans _ _ _ _ _ Hw3 Hw4) as H34.
  apply (extends_trans _ _ _ _ _ H12 H34).
Qed.

End probability_zero.

(** ** [get_neighborhood_indices] *)

Section neighborhood.

Lemma foldl_max_elem l : ∀ x, foldl Z.max x l ∈ x :: l.
Proof.
  induction l as [|y l IH]; intros x; simpl; [left|].
  pose proof (IH (Z.max x y)) as [Heq|Hin]%elem_of_cons.
  - rewrite Heq. destruct (Z.max_spec x y) as [[_ ->]|[_ ->]];
      [right; left|left].
  - by do 2 right.
Qed.

Lemma foldl_min_elem l : ∀ x, foldl Z.min x l ∈ x :: l.
Proof.
  induction l as [|y l IH]; intros x; simpl; [left|].
  pose proof (IH (Z.min x y)) as [Heq|Hin]%elem_of_cons.
  - rewrite Heq. destruct (Z.min_spec x y) as [[_ ->]|[_ ->]];
      [left|right; left].
  - by do 2 right.
Qed.

Lemma foldl_max_ge l : ∀ x y, y ∈ x :: l → y ≤ foldl Z.max x l.
Proof.
  induction l as [|z l IH]; intros x y Hy; simpl.
  - apply list_elem_of_singleton in Hy. lia.
  - apply elem_of_cons in Hy as [->|[->|Hy]%elem_of_cons].
    + etrans; [|apply IH; left]. lia.
    + etrans; [|apply IH; left]. lia.
    + apply IH. by right.
Qed.

Lemma foldl_min_le l : ∀ x y, y ∈ x :: l → foldl Z.min x l ≤ y.
Proof.
  induction l as [|z l IH]; intros x y Hy; simpl.
  - apply list_elem_of_singleton in Hy. lia.
  - apply elem_of_cons in Hy as [->|[->|Hy]%elem_of_cons].
    + etrans; [apply IH; left|]. lia.
    + etrans; [apply IH; left|]. lia.
    + apply IH. by right.
Qed.

(** The test of line 75. *)
Lemma upper_check_spec l n :
  from_option (λ mx, bool_decide (n ≤ mx)) false (py_max l) = true
  ↔ ∃ i, i ∈ l ∧ n ≤ i.
Proof.
  destruct l as [|x l]; simpl.
  { split; [done|]. by intros (i & ?%elem_of_nil & _). }
  rewrite bool_decide_eq_true. split.
  - intros H. exists (foldl Z.max x l). split; [apply foldl_max_elem|done].
  - intros (i & Hi & Hn). etrans; [done|]. by apply foldl_max_ge.
Qed.

(** The test of line 77. *)
Lemma lower_check_spec l :
  from_option (λ mn, bool_decide (mn < 0)) false (py_min l) = true
  ↔ ∃ i, i ∈ l ∧ i < 0.
Proof.
  destruct l as [|x l]; simpl.
  { split; [done|]. by intros (i & ?%elem_of_nil & _). }
  rewrite bool_decide_eq_true. split.
  - intros H. exists (foldl Z.min x l). split; [apply foldl_min_elem|done].
  - intros (i & Hi & Hn). eapply Z.le_lt_trans; [|done].
    by apply foldl_min_le.
Qed.

Lemma np_getitem_in_range (a : list nat) (i : Z) :
  0 ≤ i < Z.of_nat (length a) →
  ∃ x, np_getitem a i = Ok x ∧ a !! Z.to_nat i = Some x.
Proof.
  intros Hi. unfold np_getitem.
  rewrite (bool_decide_eq_false_2 (i < 0)) by lia. simpl.
  rewrite bool_decide_eq_false_2 by lia.
  destruct (lookup_lt_is_Some_2 a (Z.to_nat i)) as [x Hx]; [lia|].
  rewrite Hx. eauto.
Qed.

Lemma collect_neighbors_spec m n seeds : ∀ acc,
  length (sp.indptr m) = S n →
  Forall (λ i, i < n)%nat (sp.indices m) →
  Forall (λ i, 0 ≤ i < Z.of_nat n) seeds →
  ∃ S, collect_neighbors m seeds acc = Ok S
       ∧ acc ⊆ S
       ∧ ∀ x, x ∈ S → x ∈ acc ∨ 0 ≤ x < Z.of_nat n.
Proof.
  intros acc Hlen Hind Hseeds. revert acc.
  induction Hseeds as [|idx seeds Hidx _ IH]; intros acc; simpl.
  { exists acc. split; [done|]. split; [done|]. by left. }
  destruct (np_getitem_in_range (sp.indptr m) idx) as (s & -> & _);
    [lia|]. simpl.
  destruct (np_getitem_in_range (sp.indptr m) (idx + 1)) as (e & -> & _);
    [lia|]. simpl.
  destruct (IH (acc ∪ list_to_set
              (Z.of_nat <$> sp.slice (sp.indices m) s e)))
    as (S' & -> & Hsub & Hbound).
  exists S'. split; [done|]. split.
  - intros x Hx. apply Hsub, elem_of_union. by left.
  - intros x [[Hx|Hx]%elem_of_union|Hx]%Hbound; [by left| |by right].
    right. apply elem_of_list_to_set, list_elem_of_fmap in Hx
      as (k & -> & Hk).
    unfold sp.slice in Hk. apply subseteq_take, subseteq_drop in Hk.
    rewrite Forall_forall in Hind. apply Hind in Hk. lia.
Qed.

End neighborhood.

(** ** Sparse matrices *)

Section matrices.

Lemma prefix_sums_length lens : ∀ acc,
  length (sp.prefix_sums acc lens) = S (length lens).
Proof. induction lens as [|k lens IH]; intros acc; simpl; [done|by rewrite IH]. Qed.

Lemma prefix_sums_lookup lens : ∀ acc j,
  (j ≤ length lens)%nat →
  sp.prefix_sums acc lens !! j = Some (acc + sum_list (take j lens))%nat.
Proof.
  induction lens as [|k lens IH]; intros acc j Hj; simpl in *.
  - assert (j = 0%nat) as -> by lia. simpl. f_equal. lia.
  - destruct j as [|j]; simpl; [f_equal; lia|].
    rewrite IH by lia. f_equal. lia.
Qed.

Lemma sum_list_lengths {A} (ls : list (list A)) :
  sum_list (length <$> ls) = length (concat ls).
Proof.
  induction ls as [|l ls IH]; [done|].
  change (length l + sum_list (length <$> ls) = length (l ++ concat ls))%nat.
  by rewrite length_app, IH.
Qed.

Lemma column_csc_of_columns nrows cols j col :
  cols !! j = Some col →
  sp.column (sp.csc_of_columns nrows cols) j = col.
Proof.
  intros Hj. pose proof (lookup_lt_Some _ _ _ Hj) as Hlt.
  unfold sp.column, sp.csc_of_columns. simpl.
  rewrite !prefix_sums_lookup by (rewrite length_fmap; lia). simpl.
  rewrite <- !fmap_take, !sum_list_lengths.
  rewrite (take_S_r _ _ _ Hj), concat_app, length_app. simpl.
  rewrite app_nil_r. unfold sp.slice.
  replace (length (concat (take j cols)) + length col
           - length (concat (take j cols)))%nat with (length col) by lia.
  rewrite <- (take_drop_middle cols j col Hj) at 2 4.
  rewrite concat_app. simpl. rewrite !fmap_app.
  rewrite !drop_app_length' by (by rewrite length_fmap).
  rewrite !take_app_length' by (by rewrite length_fmap).
  apply zip_fst_snd.
Qed.

Lemma column_out_of_range nrows cols j :
  (length cols ≤ j)%nat → sp.column (sp.csc_of_columns nrows cols) j = [].
Proof.
  intros Hj. unfold sp.column, sp.csc_of_columns. simpl.
  rewrite (lookup_ge_None_2 _ (S j));
    [|rewrite prefix_sums_length, length_fmap; lia].
  by destruct (_ !! j).
Qed.

Lemma sum_values_indicator (l : list nat) (i : nat) :
  NoDup l →
  sp.sum_values (filter (λ rv, rv.1 = i) ((λ k, (k, 1)) <$> l))
  = if decide (i ∈ l) then 1 else 0.
Proof.
  induction 1 as [|k l Hk Hnd IH]; [done|].
  rewrite fmap_cons. destruct (decide (k = i)) as [->|Hne].
  - rewrite filter_cons_True by done. rewrite decide_True by left.
    change (1 + sp.sum_values
                  (filter (λ rv, rv.1 = i) ((λ k, (k, 1)) <$> l)) = 1).
    rewrite IH, decide_False by done. done.
  - rewrite filter_cons_False by done. rewrite IH. destruct (decide (i ∈ l)) as [Hin|Hout].
    + rewrite decide_True; [done|by right].
    + rewrite decide_False; [done|].
      intros [?|?]%elem_of_cons; congruence.
Qed.

Lemma get_adjacency_matrix g i j :
  sp.get (nx.adjacency_csc g) i j = if adjacent_at g i j then 1 else 0.
Proof.
  unfold sp.get, nx.adjacency_csc, adjacent_at.
  destruct (nx.nodes g !! j) as [v|] eqn:Hj.
  - erewrite column_csc_of_columns;
      [|by rewrite list_lookup_fmap, Hj].
    rewrite sum_values_indicator
      by (apply NoDup_filter, NoDup_seq).
    destruct (nx.is_neighbor_row g v i) eqn:Hrow.
    + rewrite decide_True; [done|].
      apply list_elem_of_filter. split; [by rewrite Hrow|].
      apply elem_of_seq. unfold nx.is_neighbor_row in Hrow.
      destruct (nx.nodes g !! i) eqn:Hi; [|done].
      apply lookup_lt_Some in Hi. lia.
    + rewrite decide_False; [done|].
      intros [Hp _]%list_elem_of_filter. by rewrite Hrow in Hp.
  - rewrite column_out_of_range; [done|].
    rewrite length_fmap. by apply lookup_ge_None.
Qed.

Lemma adjacent_at_spec g i j :
  adjacent_at g i j = true
  ↔ ∃ u v, nx.nodes g !! i = Some u ∧ nx.nodes g !! j = Some v
           ∧ edge g v u.
Proof.
  unfold adjacent_at, nx.is_neighbor_row, edge. split.
  - destruct (nx.nodes g !! j) as [v|]; [|done].
    destruct (nx.nodes g !! i) as [u|]; [|done].
    intros H%bool_decide_eq_true. eauto.
  - intros (u & v & -> & -> & H). by apply bool_decide_eq_true.
Qed.

Lemma adjacency_matrix_nonempty g :
  nx.nodes g ≠ [] → nx.adjacency_matrix g = Ok (nx.adjacency_csc g).
Proof. unfold nx.adjacency_matrix. by destruct (nx.nodes g). Qed.

Lemma adjacency_matrix_returned g m :
  nx.adjacency_matrix g = Ok m → m = nx.adjacency_csc g ∧ nx.nodes g ≠ [].
Proof.
  unfold nx.adjacency_matrix. destruct (nx.nodes g); [done|].
  by intros [= <-].
Qed.

Lemma adjacency_matrix_properties g :
  graph_wf g →
  symmetric (nx.adjacency_csc g)
  ∧ binary (nx.adjacency_csc g)
  ∧ zero_diagonal (nx.adjacency_csc g).
Proof.
  intros Hwf. split; [|split].
  - intros i j. rewrite !get_adjacency_matrix.
    assert (adjacent_at g i j = adjacent_at g j i) as ->; [|done].
    apply eq_true_iff_eq. rewrite !adjacent_at_spec.
    split; intros (u & v & Hu & Hv & He); exists v, u;
      split_and!; try done; by apply (wf_sym g Hwf).
  - intros i j. rewrite get_adjacency_matrix.
    destruct (adjacent_at g i j); auto.
  - intros i. rewrite get_adjacency_matrix.
    destruct (adjacent_at g i i) eqn:Hii; [|done].
    apply adjacent_at_spec in Hii as (u & v & Hu & Hv & He).
    assert (u = v) as -> by congruence. by apply (wf_irrefl g Hwf) in He.
Qed.

End matrices.

(** ** [loadsnap] *)

Section loading.

Lemma read_line_edges st line :
  edges_to_add (read_line st line)
  = match line_pair line with
    | Some (u, v) =>
        if bool_decide (u ≠ v)
        then {[ (Z.min u v, Z.max u v) ]} ∪ edges_to_add st
        else edges_to_add st
    | None => edges_to_add st
    end.
Proof.
  unfold read_line, line_pair.
  destruct (pystr.strip _) as [|c line']; [done|].
  destruct (bool_decide (c = "#"%char)); [done|].
  destruct (pystr.split _) as [|p0 [|p1 ps]]; [done..|].
  destruct (pystr.int p0) as [u|]; [|done].
  destruct (pystr.int p1) as [v|]; [|done].
  by destruct (bool_decide (u ≠ v)).
Qed.

Lemma elem_of_foldl_read_line lines : ∀ st e,
  e ∈ edges_to_add (foldl read_line st lines)
  ↔ e ∈ edges_to_add st
    ∨ ∃ line u v, line ∈ lines ∧ line_pair line = Some (u, v)
                  ∧ u ≠ v ∧ e = (Z.min u v, Z.max u v).
Proof.
  induction lines as [|line lines IH]; intros st e; simpl.
  { split; [by left|]. intros [?|(? & ? & ? & ?%elem_of_nil & _)]; done. }
  rewrite IH, read_line_edges. split.
  - intros [He|(l & u & v & Hl & Hp & Huv & ->)].
    + destruct (line_pair line) as [[u v]|] eqn:Hp; [|by left].
      case_bool_decide as Huv; [|by left].
      apply elem_of_union in He as [->%elem_of_singleton|He]; [|by left].
      right. exists line, u, v. split; [left|done].
    + right. exists l, u, v. split; [by right|done].
  - intros [He|(l & u & v & Hl & Hp & Huv & ->)].
    + left. destruct (line_pair line) as [[u v]|]; [|done].
      case_bool_decide; [|done]. apply elem_of_union. by right.
    + apply elem_of_cons in Hl as [->|Hl].
      * left. rewrite Hp, bool_decide_eq_true_2 by done.
        apply elem_of_union. left. by apply elem_of_singleton.
      * right. by exists l, u, v.
Qed.

Lemma elem_of_loaded_edges lines e :
  e ∈ loaded_edges lines
  ↔ ∃ line u v, line ∈ lines ∧ line_pair line = Some (u, v)
                ∧ u ≠ v ∧ e = (Z.min u v, Z.max u v).
Proof.
  unfold loaded_edges. rewrite elem_of_foldl_read_line. simpl.
  split; [|by right]. by intros [?%not_elem_of_empty|?].
Qed.

Lemma loaded_edges_ordered lines e : e ∈ loaded_edges lines → e.1 < e.2.
Proof.
  intros (line & u & v & _ & _ & Huv & ->)%elem_of_loaded_edges. simpl. lia.
Qed.

Lemma elem_of_all_nodes_of l x :
  x ∈ all_nodes_of l ↔ ∃ e, e ∈ l ∧ (x = e.1 ∨ x = e.2).
Proof.
  unfold all_nodes_of.
  assert (∀ acc : gset Z,
            x ∈ foldl (λ a (e : Z * Z), a ∪ {[e.1]} ∪ {[e.2]}) acc l
            ↔ x ∈ acc ∨ ∃ e, e ∈ l ∧ (x = e.1 ∨ x = e.2)) as Hgen.
  { induction l as [|e l IH]; intros acc; simpl.
    - split; [by left|]. intros [?|(? & ?%elem_of_nil & _)]; done.
    - rewrite IH, !elem_of_union, !elem_of_singleton. split.
      + intros [[[?|?]|?]|(e' & He' & Hx)]; [by left| | |].
        * right. exists e. split; [left|by left].
        * right. exists e. split; [left|by right].
        * right. exists e'. split; [by right|done].
      + intros [?|(e' & [->|He']%elem_of_cons & Hx)]; [by left; left; left| |].
        * destruct Hx; [left; left; by right|left; by right].
        * right. eauto. }
  rewrite Hgen. split; [|by right]. by intros [?%not_elem_of_empty|?].
Qed.

Lemma add_edges_from_spec l : ∀ g,
  graph_wf g →
  Forall (λ e, e.1 ∈ nx.nodes g ∧ e.2 ∈ nx.nodes g ∧ e.1 ≠ e.2) l →
  graph_wf (nx.add_edges_from g l)
  ∧ nx.nodes (nx.add_edges_from g l) = nx.nodes g
  ∧ ∀ x y, edge (nx.add_edges_from g l) x y
           ↔ edge g x y
             ∨ ∃ e, e ∈ l ∧ ((x = e.1 ∧ y = e.2) ∨ (x = e.2 ∧ y = e.1)).
Proof.
  unfold nx.add_edges_from.
  induction l as [|e l IH]; intros g Hwf Hl; simpl.
  { split; [done|]. split; [done|]. intros x y. split; [by left|].
    intros [?|(? & ?%elem_of_nil & _)]; done. }
  apply Forall_cons in Hl as [(H1 & H2 & Hne) Hl].
  pose proof (graph_wf_add_edge g Hwf e.1 e.2 H1 H2 Hne) as Hwf1.
  pose proof (nodes_add_edge g e.1 e.2 H1 H2) as Hn1.
  destruct (IH (nx.add_edge g e.1 e.2) Hwf1) as (Hwf' & Hn' & He').
  { by rewrite Hn1. }
  split; [done|]. split; [by rewrite Hn', Hn1|].
  intros x y. rewrite He', edge_add_edge by done. split.
  - intros [[?|Hxy]|(e' & He & Hxy)]; [by left| |].
    + right. exists e. split; [left|done].
    + right. exists e'. split; [by right|done].
  - intros [?|(e' & [->|He]%elem_of_cons & Hxy)]; [by left; left|by left; right|].
    right. eauto.
Qed.

Lemma loaded_graph_spec lines :
  graph_wf (loaded_graph lines)
  ∧ nx.nodes (loaded_graph lines)
    = merge_sort Z.le
        (elements (all_nodes_of (elements (loaded_edges lines))))
  ∧ ∀ x y, edge (loaded_graph lines) x y
           ↔ x ≠ y ∧ (Z.min x y, Z.max x y) ∈ loaded_edges lines.
Proof.
  unfold loaded_graph.
  set (E := loaded_edges lines).
  set (sorted := merge_sort Z.le (elements (all_nodes_of (elements E)))).
  assert (NoDup sorted) as Hnd.
  { unfold sorted. rewrite merge_sort_Permutation. apply NoDup_elements. }
  destruct (add_nodes_from_empty sorted Hnd) as (Hn0 & He0 & Hwf0).
  destruct (add_edges_from_spec (elements E) _ Hwf0) as (Hwf & Hn & He).
  { apply Forall_forall. intros e He%elem_of_elements. rewrite Hn0.
    unfold sorted. rewrite !merge_sort_Permutation, !elem_of_elements,
      !elem_of_all_nodes_of.
    split; [|split].
    - exists e. rewrite elem_of_elements. auto.
    - exists e. rewrite elem_of_elements. auto.
    - apply loaded_edges_ordered in He. lia. }
  split; [done|]. split; [by rewrite Hn|].
  intros x y. rewrite He. unfold edge at 1. rewrite He0. split.
  - intros [?%not_elem_of_empty|(e & Hin%elem_of_elements & Hxy)]; [done|].
    pose proof (loaded_edges_ordered lines e Hin) as Hlt.
    destruct e as [a b]. simpl in *.
    destruct Hxy as [[-> ->]|[-> ->]].
    + split; [lia|]. by rewrite Z.min_l, Z.max_r by lia.
    + split; [lia|]. by rewrite Z.min_r, Z.max_l by lia.
  - intros [Hne Hin]. right. exists (Z.min x y, Z.max x y).
    rewrite elem_of_elements. split; [done|]. simpl. lia.
Qed.

Lemma loadsnap_returned lines g adj_matrix deg_matrix out :
  loadsnap lines = (Ok (g, adj_matrix, deg_matrix), out) →
  g = loaded_graph lines
  ∧ adj_matrix = nx.adjacency_csc g
  ∧ deg_matrix = sp.diags (sp.row_sums adj_matrix)
  ∧ nx.nodes g ≠ [].
Proof.
  unfold loadsnap. fold (loaded_edges lines). fold (loaded_graph lines).
  destruct (nx.adjacency_matrix (loaded_graph lines)) as [m| |] eqn:Hm;
    [|done..].
  apply adjacency_matrix_returned in Hm as [-> Hne]. simpl.
  by intros [= <- <- <- _].
Qed.


End loading.

(** ** Whatever [create_connected_graph] returns *)

Section returned.

Lemma repair_loop_returned fuel : ∀ g w g' w',
  graph_wf g → nx.nodes g ≠ [] →
  repair_loop fuel g w = (Ok g', w') →
  graph_wf g' ∧ nx.nodes g' = nx.nodes g.
Proof.
  induction fuel as [|fuel IH]; intros g w g' w' Hwf Hne; [done|].
  simpl. unfold bind at 1, lift.
  destruct (nx.nodes g) as [|v0 rest] eqn:Hn; [done|].
  destruct (is_connected_spec g Hwf v0 rest Hn) as (c & -> & Hc).
  destruct c.
  - intros [= <- <-]. by rewrite Hn.
  - assert (¬ connected g) as Hncon by (intros ?%Hc; done).
    unfold bind at 1.
    destruct (repair_iteration_spec g w Hwf)
      as (u & v & w1 & -> & Hu & Hv & Hsep & _ & _);
      [by rewrite Hn|done|].
    assert (u ≠ v) as Huv by (intros ->; apply Hsep, rtc_refl).
    pose proof (graph_wf_add_edge g Hwf u v Hu Hv Huv) as Hwf1.
    pose proof (nodes_add_edge g u v Hu Hv) as Hn1.
    intros Hrun. apply IH in Hrun as [Hwf' Hn']; [|done|by rewrite Hn1, Hn].
    split; [done|]. by rewrite Hn', Hn1, Hn.
Qed.

Lemma build_connected_graph_returned fuel n p w g w' :
  build_connected_graph fuel n p w = (Ok g, w') →
  graph_wf g ∧ nx.nodes g = seqZ 0 n ∧ 1 ≤ n.
Proof.
  unfold build_connected_graph.
  destruct (negb _); [done|]. case_bool_decide as Hn; [done|].
  unfold bind at 1.
  destruct (emit_spec EvGraph w) as (w1 & -> & Hw1).
  unfold bind at 1.
  destruct (emit_spec (EvAddNodes (seqZ 0 n)) w1) as (w2 & -> & Hw2).
  destruct (add_nodes_from_empty (seqZ 0 n) (NoDup_seqZ 0 n))
    as (Hnodes & _ & Hwf).
  unfold bind at 1.
  destruct (sample_edges_spec n p _ w2 Hwf Hnodes)
    as (g0 & w3 & sampled & -> & Hwf0 & Hn0 & Hw3).
  rewrite Hnodes in Hn0.
  assert (nx.nodes g0 ≠ []) as Hne.
  { rewrite Hn0. intros Hnil. apply (f_equal length) in Hnil.
    rewrite length_seqZ in Hnil. simpl in Hnil. lia. }
  unfold bind at 1.
  destruct (repair_loop fuel g0 w3) as [[g1| |] w4] eqn:Hrun; [|done..].
  apply repair_loop_returned in Hrun as [Hwf1 Hn1]; [|done..].
  unfold bind, lift. destruct (nx.is_connected g1) as [[|]| |]; [|done..].
  intros [= <- <-]. split; [done|]. split; [congruence|lia].
Qed.

End returned.

(** ** Rows, columns and degrees *)

Section index_mapping.

Lemma sorted_lookup_lt (l : list Z) : ∀ i j u v,
  StronglySorted Z.le l → NoDup l →
  l !! i = Some u → l !! j = Some v → (i < j)%nat → u < v.
Proof.
  induction l as [|x l IH]; intros i j u v Hs Hnd Hi Hj Hij; [done|].
  apply StronglySorted_inv in Hs as [Hs Hall].
  apply NoDup_cons in Hnd as [Hx Hnd].
  destruct j as [|j]; [lia|]. simpl in Hj. destruct i as [|i].
  - injection Hi as <-. rewrite Forall_forall in Hall.
    pose proof (list_elem_of_lookup_2 _ _ _ Hj) as Hv.
    assert (x ≤ v) by (by apply Hall).
    assert (x ≠ v) by (by intros ->). lia.
  - simpl in Hi. apply (IH i j); [done..|lia].
Qed.

Lemma sum_values_app a b :
  sp.sum_values (a ++ b) = sp.sum_values a + sp.sum_values b.
Proof.
  unfold sp.sum_values. rewrite fmap_app.
  induction (a.*2) as [|x l IH]; simpl; [done|]. rewrite IH. lia.
Qed.

Lemma row_sum_columns g i u (l : list Z) :
  nx.nodes g !! i = Some u →
  sp.sum_values
    (filter (λ rv, rv.1 = i)
       (concat ((λ v, (λ k, (k, 1)) <$>
                   filter (λ k, nx.is_neighbor_row g v k)
                          (seq 0 (length (nx.nodes g)))) <$> l)))
  = Z.of_nat (length (filter (λ v, u ∈ nx.neighbors g v) l)).
Proof.
  intros Hi. induction l as [|v l IH]; [done|].
  rewrite fmap_cons. simpl concat. rewrite filter_app, sum_values_app, IH.
  rewrite sum_values_indicator by apply NoDup_filter, NoDup_seq.
  assert (i ∈ filter (λ k, nx.is_neighbor_row g v k)
                     (seq 0 (length (nx.nodes g)))
          ↔ u ∈ nx.neighbors g v) as Hiff.
  { rewrite list_elem_of_filter, elem_of_seq.
    unfold nx.is_neighbor_row. rewrite Hi.
    apply lookup_lt_Some in Hi. split.
    - intros [H%Is_true_true%bool_decide_eq_true _]. done.
    - intros H. split; [|lia].
      by apply Is_true_true, bool_decide_eq_true. }
  destruct (decide (u ∈ nx.neighbors g v)) as [Hin|Hout].
  - rewrite filter_cons_True by done. rewrite decide_True by (by apply Hiff).
    simpl length. lia.
  - rewrite filter_cons_False by done.
    rewrite decide_False by (by rewrite Hiff). lia.
Qed.

Lemma length_filter_elem_of (X : gset Z) (l : list Z) :
  NoDup l → (∀ x, x ∈ X → x ∈ l) →
  length (filter (λ v, v ∈ X) l) = size X.
Proof.
  intros Hnd Hsub.
  rewrite <- (size_list_to_set (C := gset Z)) by (by apply NoDup_filter).
  f_equal. apply set_eq. intros x.
  rewrite elem_of_list_to_set, list_elem_of_filter. naive_solver.
Qed.

Lemma row_sums_adjacency_matrix g i u :
  graph_wf g → nx.nodes g !! i = Some u →
  sp.row_sums (nx.adjacency_csc g) !! i
  = Some (Z.of_nat (size (nx.neighbors g u))).
Proof.
  intros Hwf Hi. pose proof (lookup_lt_Some _ _ _ Hi) as Hlt.
  unfold sp.row_sums. rewrite list_lookup_fmap.
  unfold nx.adjacency_csc at 2. simpl.
  rewrite (proj2 (lookup_seq 0 _ i i)) by (split; [done|lia]). simpl.
  f_equal. unfold nx.adjacency_csc, sp.csc_of_columns. simpl.
  rewrite zip_fst_snd, (row_sum_columns g i u) by done.
  f_equal. rewrite <- (length_filter_elem_of _ (nx.nodes g)).
  - f_equal. apply list_filter_iff. intros v. unfold edge in *.
    split; apply (wf_sym g Hwf).
  - apply Hwf.
  - intros x Hx. by apply (wf_closed g Hwf u x).
Qed.

Lemma get_diags d i j :
  sp.get (sp.diags d) i j
  = if decide (i = j) then default 0 (d !! j) else 0.
Proof.
  unfold sp.get, sp.diags.
  destruct (d !! j) as [x|] eqn:Hj.
  - erewrite column_csc_of_columns; [|by rewrite list_lookup_imap, Hj].
    destruct (decide (x = 0)) as [->|Hx]; [by case_decide|].
    destruct (decide (i = j)) as [->|Hne].
    + rewrite filter_cons_True by done. unfold sp.sum_values. simpl. lia.
    + rewrite filter_cons_False by (simpl; congruence). done.
  - rewrite column_out_of_range; [by case_decide|].
    rewrite length_imap. by apply lookup_ge_None.
Qed.

End index_mapping.

(** * The properties of the specification *)

(** C1.  For every [n >= 1], every probability [p] and every random
    source, [create_connected_graph] returns (given fuel for [n]
    evaluations of the loop condition); the graph it has built is
    connected, it is a single connected component, its nodes are exactly
    [0, ..., n-1], and the adjacency matrix returned is the [n] by [n]
    matrix of that graph. *)
Theorem create_connected_graph_connected
    (n : Z) (p : pyfloat) (w : world) (fuel : nat) :
  1 ≤ n → probability p → (Z.to_nat n ≤ fuel)%nat →
  ∃ g w1 w2,
    build_connected_graph fuel n p w = (Ok g, w1)
    ∧ create_connected_graph fuel n p w
      = (Ok (nx.adjacency_csc g,
             sp.diags (sp.row_sums (nx.adjacency_csc g))), w2)
    ∧ connected g
    ∧ component_count g = 1%nat
    ∧ nx.nodes g = seqZ 0 n
    ∧ length (nx.nodes g) = Z.to_nat n
    ∧ sp.shape (nx.adjacency_csc g) = (Z.to_nat n, Z.to_nat n).
Proof.
  intros Hn Hp Hfuel.
  destruct (build_connected_graph_spec n p w fuel Hn Hp Hfuel)
    as (g0 & g & w1 & sampled & merges & Hrun & _ & _ & _ & _
        & Hwf & Hnodes & Hcon & _).
  assert (length (nx.nodes g) = Z.to_nat n) as Hlen
    by (by rewrite Hnodes, length_seqZ).
  assert (nx.nodes g ≠ []) as Hne.
  { intros Hnil. rewrite Hnil in Hlen. simpl in Hlen. lia. }
  eexists g, w1, _. split; [done|]. split.
  { unfold create_connected_graph, bind. rewrite Hrun. unfold lift.
    rewrite adjacency_matrix_nonempty by done. simpl. done. }
  split; [done|]. split.
  { by apply connected_component_count. }
  split; [done|]. split; [done|].
  unfold nx.adjacency_csc, sp.csc_of_columns. simpl.
  by rewrite length_fmap, Hlen.
Qed.

Lemma create_connected_graph_connected_witness :
  ∃ g w1 w2,
    build_connected_graph 3 3 (Finite (1 # 2)) (mkWorld (λ _, 5%N) 0 [])
      = (Ok g, w1)
    ∧ create_connected_graph 3 3 (Finite (1 # 2)) (mkWorld (λ _, 5%N) 0 [])
      = (Ok (nx.adjacency_csc g,
             sp.diags (sp.row_sums (nx.adjacency_csc g))), w2)
    ∧ connected g
    ∧ component_count g = 1%nat
    ∧ nx.nodes g = seqZ 0 3
    ∧ length (nx.nodes g) = Z.to_nat 3
    ∧ sp.shape (nx.adjacency_csc g) = (Z.to_nat 3, Z.to_nat 3).
Proof.
  apply (create_connected_graph_connected 3 (Finite (1 # 2))
           (mkWorld (λ _, 5%N) 0 []) 3).
  - lia.
  - exists (1 # 2)%Q. split; [reflexivity|]. split; by vm_compute.
  - simpl. lia.
Defined.

(** C2.  Loading the lines "0 1", "0 2", "1 2", "2 3", "3 3", "0 1" gives
    the nodes 0, 1, 2, 3 and the four edges (0,1), (0,2), (1,2), (2,3):
    the self-loop "3 3" is dropped and the second "0 1" adds nothing.  The
    diagonal of the degree matrix is [2, 2, 3, 1].  The file of the
    module's example, with its comment line and newlines, loads to the
    same result. *)
Theorem loadsnap_sample :
  ∃ g adj_matrix deg_matrix,
    loadsnap sample_lines = (Ok (g, adj_matrix, deg_matrix), [])
    ∧ nx.nodes g = [0; 1; 2; 3]
    ∧ loaded_edges sample_lines = {[ (0, 1); (0, 2); (1, 2); (2, 3) ]}
    ∧ list_to_set (nx.edges g)
      = ({[ (0, 1); (0, 2); (1, 2); (2, 3) ]} : gset (Z * Z))
    ∧ length (nx.edges g) = 4%nat
    ∧ sp.diagonal deg_matrix = [2; 2; 3; 1]
    ∧ loadsnap sample_file = loadsnap sample_lines.
Proof.
  eexists _, _, _. split; [by vm_compute|].
  split; [by vm_compute|]. split; [by vm_compute|].
  split; [by vm_compute|]. split; [by vm_compute|].
  split; by vm_compute.
Qed.

(** C3.  The claim fails on the code: the sampling test is
    [random.random() <= edge_probability], and [random.random()] can be
    0.0.  For [n = 2], [p = 0] and a random source whose first float is 0.0
    the sampling phase adds the edge between 0 and 1; the graph is then
    connected and the repair loop returns it without a single merge
    (instead of [n - 1 = 1]). *)
Theorem probability_zero_zero_draw :
  let w := mkWorld (λ _, 0%N) 0 [] in
  let g := nx.add_nodes_from nx.empty_graph (seqZ 0 2) in
  ∃ g0 w0,
    sample_edges 2 (Finite 0) g w = (Ok g0, w0)
    ∧ events w0 = [EvAddEdge 0 1]
    ∧ nx.edges g0 = [(0, 1)]
    ∧ repair_loop 2 g0 w0 = (Ok g0, w0)
    ∧ (events (build_connected_graph 2 2 (Finite 0) w).2
       = [EvGraph; EvAddNodes [0; 1]; EvAddEdge 0 1]).
Proof.
  eexists _, _. split; [by vm_compute|].
  split; [by vm_compute|]. split; [by vm_compute|].
  split; by vm_compute.
Qed.

(** C4.  On a square, well-formed adjacency matrix and seeds that all lie
    in [[0, matrixSize)], [get_neighborhood_indices] returns a list that is
    sorted and free of duplicates, contains every seed and contains no
    index outside [[0, matrixSize)].  For the empty seed list it returns
    the empty list, whatever the matrix is: after the number of rows,
    which line 74 takes from the shape, nothing of the matrix is used
    (neither its format nor its stored structure). *)
Theorem get_neighborhood_indices_correct
    (indices : list Z) (adj_mat : sp.spmatrix) :
  adjacency_form adj_mat →
  Forall (λ i, 0 ≤ i < matrix_size adj_mat) indices →
  (∃ r, get_neighborhood_indices indices adj_mat = Ok r
        ∧ Sorted Z.le r ∧ NoDup r
        ∧ (∀ i, i ∈ indices → i ∈ r)
        ∧ (∀ x, x ∈ r → 0 ≤ x < matrix_size adj_mat))
  ∧ (∀ m : sp.spmatrix, get_neighborhood_indices [] m = Ok []).
Proof.
  intros (Hsq & Hlen & _ & _ & _ & _ & Hind) Hseeds.
  split; [|done]. unfold get_neighborhood_indices, matrix_size in *.
  set (n := (sp.shape (sp.csc_form adj_mat)).1) in *.
  destruct (from_option _ false (py_max indices)) eqn:Hup.
  { apply upper_check_spec in Hup as (i & Hi & Hn).
    rewrite Forall_forall in Hseeds. apply Hseeds in Hi. lia. }
  destruct (from_option _ false (py_min indices)) eqn:Hlo.
  { apply lower_check_spec in Hlo as (i & Hi & Hn).
    rewrite Forall_forall in Hseeds. apply Hseeds in Hi. lia. }
  case_bool_decide as Hnil.
  { subst indices. exists []. split; [done|].
    split; [constructor|]. split; [constructor|]. split; [done|].
    by intros x ?%elem_of_nil. }
  assert (sp.csc_form (if sp.is_csc adj_mat then adj_mat
                       else sp.tocsc adj_mat) = sp.csc_form adj_mat) as ->
    by (by destruct (sp.is_csc adj_mat)).
  destruct (collect_neighbors_spec (sp.csc_form adj_mat) n indices
              (list_to_set indices)) as (S & -> & Hsub & Hbound);
    [by rewrite Hlen, <- Hsq|done..|]. simpl.
  pose proof (merge_sort_Permutation Z.le (elements S)) as Hperm.
  assert (∀ x, x ∈ merge_sort Z.le (elements S) ↔ x ∈ S) as Hel.
  { intros x. by rewrite Hperm, elem_of_elements. }
  assert (forallb (λ idx, bool_decide (idx ∈ merge_sort Z.le (elements S)))
            indices = true) as ->.
  { apply forallb_forall. intros idx Hidx%list_elem_of_In.
    apply bool_decide_eq_true, Hel, Hsub. by apply elem_of_list_to_set. }
  eexists. split; [done|]. split; [apply Sorted_merge_sort; apply _|].
  split; [rewrite Hperm; apply NoDup_elements|]. split.
  - intros i Hi. apply Hel, Hsub. by apply elem_of_list_to_set.
  - intros x [Hx|Hx]%Hel%Hbound; [|done].
    apply elem_of_list_to_set in Hx.
    rewrite Forall_forall in Hseeds. by apply Hseeds.
Qed.

Lemma get_neighborhood_indices_correct_witness :
  (∃ r, get_neighborhood_indices [0] example_matrix = Ok r
        ∧ Sorted Z.le r ∧ NoDup r
        ∧ (∀ i, i ∈ [0] → i ∈ r)
        ∧ (∀ x, x ∈ r → 0 ≤ x < matrix_size example_matrix))
  ∧ (∀ m : sp.spmatrix, get_neighborhood_indices [] m = Ok []).
Proof.
  apply (get_neighborhood_indices_correct [0] example_matrix).
  - split; [reflexivity|]. unfold sp.well_formed. simpl.
    split_and!; try reflexivity.
    + repeat constructor.
    + repeat constructor.
  - repeat constructor; by vm_compute.
Defined.



(** The order of the two checks: when the seeds break both preconditions
    at once, as [-1, 5] on a matrix with three rows, the upper bound of
    line 75 is tested first and the out-of-bounds error is the one
    raised. *)
Lemma negative_seed_reported_out_of_bounds :
  -1 ∈ [-1; 5] ∧ -1 < 0
  ∧ get_neighborhood_indices [-1; 5] empty_matrix_3
    = Raise out_of_bounds_error
  ∧ get_neighborhood_indices [-1; 5] empty_matrix_3
    ≠ Raise negative_index_error.
Proof.
  split; [left|]. split; [lia|]. split; [by vm_compute|].
  by vm_compute.
Qed.

(** C6.  On a graph that is not connected, one iteration of the repair
    loop adds one edge between two nodes of different connected
    components, and the graph then has exactly one component less.  The
    loop therefore ends: started with fuel for as many evaluations of its
    condition as there are components, it returns a connected graph after
    exactly (so at most) [component_count g - 1] iterations, each of which
    was such a merge. *)
Theorem repair_loop_terminates (g : nx.Graph) (w : world) (fuel : nat) :
  graph_wf g → nx.nodes g ≠ [] → (component_count g ≤ fuel)%nat →
  (¬ connected g →
   ∃ u v w',
     repair_iteration g w = (Ok (Some (nx.add_edge g u v)), w')
     ∧ u ∈ nx.nodes g ∧ v ∈ nx.nodes g ∧ ¬ reachable g u v
     ∧ S (component_count (nx.add_edge g u v)) = component_count g
     ∧ extends w [EvAddEdge u v] w')
  ∧ ∃ g' w' merges,
      repair_loop fuel g w = (Ok g', w')
      ∧ repairs g merges g'
      ∧ extends w (add_edge_events merges) w'
      ∧ (length merges ≤ component_count g - 1)%nat
      ∧ component_count g' = (component_count g - length merges)%nat
      ∧ connected g'.
Proof.
  intros Hwf Hne Hfuel. split.
  - intros Hnc. by apply repair_iteration_spec.
  - destruct (repair_loop_spec fuel g w Hwf Hne Hfuel)
      as (g' & w' & merges & Hrun & Hrep & Hlen & Hwf' & Hn' & Hcon & Hw').
    exists g', w', merges. split_and!; try done; [lia|].
    assert (component_count g' = 1%nat) as ->; [|lia].
    apply connected_component_count; [done|by rewrite Hn'|done].
Qed.

Lemma repair_loop_terminates_witness :
  let g := nx.add_nodes_from nx.empty_graph [0; 1; 2] in
  let w := mkWorld (λ _, 0%N) 0 [] in
  (¬ connected g →
   ∃ u v w',
     repair_iteration g w = (Ok (Some (nx.add_edge g u v)), w')
     ∧ u ∈ nx.nodes g ∧ v ∈ nx.nodes g ∧ ¬ reachable g u v
     ∧ S (component_count (nx.add_edge g u v)) = component_count g
     ∧ extends w [EvAddEdge u v] w')
  ∧ ∃ g' w' merges,
      repair_loop 3 g w = (Ok g', w')
      ∧ repairs g merges g'
      ∧ extends w (add_edge_events merges) w'
      ∧ (length merges ≤ component_count g - 1)%nat
      ∧ component_count g' = (component_count g - length merges)%nat
      ∧ connected g'.
Proof.
  apply (repair_loop_terminates
           (nx.add_nodes_from nx.empty_graph [0; 1; 2])
           (mkWorld (λ _, 0%N) 0 []) 3).
  - apply add_nodes_from_empty. apply (bool_decide_unpack _). by vm_compute.
  - by vm_compute.
  - vm_compute. lia.
Defined.

(** C7.  The adjacency matrix that [loadsnap] returns, for any file, and
    the adjacency matrix that [create_connected_graph] returns, for any
    arguments and any random source, is symmetric, has the entries 0 and 1
    only, and has a zero diagonal. *)
Theorem adjacency_matrices_symmetric :
  (∀ lines g adj_matrix deg_matrix out,
     loadsnap lines = (Ok (g, adj_matrix, deg_matrix), out) →
     symmetric adj_matrix ∧ binary adj_matrix ∧ zero_diagonal adj_matrix)
  ∧ (∀ fuel n p w adj_matrix deg_matrix w',
       create_connected_graph fuel n p w
       = (Ok (adj_matrix, deg_matrix), w') →
       symmetric adj_matrix ∧ binary adj_matrix
       ∧ zero_diagonal adj_matrix).
Proof.
  split.
  - intros lines g A D out Hrun.
    apply loadsnap_returned in Hrun as (-> & -> & _ & _).
    apply adjacency_matrix_properties, loaded_graph_spec.
  - intros fuel n p w A D w'. unfold create_connected_graph.
    unfold bind at 1.
    destruct (build_connected_graph fuel n p w) as [[g| |] w1] eqn:Hrun;
      [|done..].
    apply build_connected_graph_returned in Hrun as (Hwf & _ & _).
    unfold bind at 1, lift.
    destruct (nx.adjacency_matrix g) as [m| |] eqn:Hm; [|done..].
    apply adjacency_matrix_returned in Hm as [-> _].
    unfold bind, emit, ret. simpl. intros [= <- _ _].
    by apply adjacency_matrix_properties.
Qed.

Lemma adjacency_matrices_symmetric_witness :
  (∃ g adj_matrix deg_matrix out,
     loadsnap sample_lines = (Ok (g, adj_matrix, deg_matrix), out)
     ∧ symmetric adj_matrix ∧ binary adj_matrix ∧ zero_diagonal adj_matrix)
  ∧ ∃ adj_matrix deg_matrix w',
      create_connected_graph 3 3 (Finite (1 # 2)) (mkWorld (λ _, 5%N) 0 [])
      = (Ok (adj_matrix, deg_matrix), w')
      ∧ symmetric adj_matrix ∧ binary adj_matrix ∧ zero_diagonal adj_matrix.
Proof.
  split.
  - eexists _, _, _, _. split; [by vm_compute|].
    eapply (proj1 adjacency_matrices_symmetric sample_lines).
    by vm_compute.
  - eexists _, _, _. split; [by vm_compute|].
    eapply (proj2 adjacency_matrices_symmetric 3%nat 3 (Finite (1 # 2))
              (mkWorld (λ _, 5%N) 0 [])).
    by vm_compute.
Defined.

(** C8.  In the graph that [loadsnap] returns the nodes are in strictly
    ascending order, so that the position of a node is its rank among the
    node identifiers: positions below the number of nodes and nodes
    correspond one to one, in order.  The matrices returned are built on
    these positions: the entry [(i, j)] of the adjacency matrix is 1
    exactly if the [i]-th and the [j]-th smallest node are joined by an
    edge, and the entry [(i, i)] of the degree matrix is the number of
    neighbours of the [i]-th smallest node.  (The matrices are values
    computed once from the final node order.) *)
Theorem loadsnap_index_mapping
    (lines : list string) (g : nx.Graph)
    (adj_matrix deg_matrix : sp.csc_matrix) (out : list string) :
  loadsnap lines = (Ok (g, adj_matrix, deg_matrix), out) →
  let n := length (nx.nodes g) in
  (∀ i j u v, nx.nodes g !! i = Some u → nx.nodes g !! j = Some v →
              ((i < j)%nat ↔ u < v) ∧ (i = j ↔ u = v))
  ∧ (∀ i, (i < n)%nat ↔ ∃ u, nx.nodes g !! i = Some u)
  ∧ (∀ u, u ∈ nx.nodes g ↔ ∃ i, (i < n)%nat ∧ nx.nodes g !! i = Some u)
  ∧ sp.shape adj_matrix = (n, n)
  ∧ sp.shape deg_matrix = (n, n)
  ∧ (∀ i j u v, nx.nodes g !! i = Some u → nx.nodes g !! j = Some v →
       (sp.get adj_matrix i j = 1 ↔ edge g u v)
       ∧ (edge g u v
          ↔ u ≠ v ∧ (Z.min u v, Z.max u v) ∈ loaded_edges lines))
  ∧ (∀ i u, nx.nodes g !! i = Some u →
       sp.get deg_matrix i i = Z.of_nat (size (nx.neighbors g u))).
Proof.
  intros (Hg & -> & -> & _)%loadsnap_returned n.
  destruct (loaded_graph_spec lines) as (Hwf & Hn & He).
  rewrite <- Hg in Hwf, Hn, He. clear Hg.
  assert (StronglySorted Z.le (nx.nodes g)) as Hs.
  { rewrite Hn. apply StronglySorted_merge_sort; apply _. }
  pose proof (wf_nodup g Hwf) as Hnd.
  assert (∀ i j u v, nx.nodes g !! i = Some u → nx.nodes g !! j = Some v →
            (i < j)%nat → u < v) as Hlt
    by (intros; by eapply (sorted_lookup_lt (nx.nodes g))).
  split.
  { intros i j u v Hi Hj. split; split.
    - by apply Hlt.
    - intros Huv. destruct (Nat.lt_trichotomy i j) as [?|[->|Hji]]; [done|..].
      + assert (u = v) by congruence. lia.
      + pose proof (Hlt j i v u Hj Hi Hji). lia.
    - intros ->. congruence.
    - intros ->. destruct (Nat.lt_trichotomy i j) as [Hij|[?|Hji]]; [|done|].
      + pose proof (Hlt i j v v Hi Hj Hij). lia.
      + pose proof (Hlt j i v v Hj Hi Hji). lia. }
  split; [intros i; symmetry; apply lookup_lt_is_Some|]. split.
  { intros u. rewrite list_elem_of_lookup. split.
    - intros [i Hi]. exists i. split; [by eapply lookup_lt_Some|done].
    - intros (i & _ & Hi). eauto. }
  assert (sp.shape (nx.adjacency_csc g) = (n, n)) as Hshape.
  { unfold nx.adjacency_csc, sp.csc_of_columns. simpl.
    by rewrite length_fmap. }
  split; [done|]. split.
  { assert (length (sp.row_sums (nx.adjacency_csc g)) = n) as Hlen.
    { unfold sp.row_sums. by rewrite length_fmap, length_seq, Hshape. }
    unfold sp.diags, sp.csc_of_columns. simpl.
    by rewrite length_imap, Hlen. }
  split.
  - intros i j u v Hi Hj. split; [|apply He].
    rewrite get_adjacency_matrix.
    destruct (adjacent_at g i j) eqn:Hadj.
    + apply adjacent_at_spec in Hadj as (u' & v' & Hu' & Hv' & Hedge).
      assert (u' = u) as -> by congruence.
      assert (v' = v) as -> by congruence.
      split; [intros _; by apply (wf_sym g Hwf)|done].
    + split; [done|]. intros Hedge. exfalso.
      assert (adjacent_at g i j = true); [|congruence].
      apply adjacent_at_spec. exists u, v.
      split_and!; [done..|by apply (wf_sym g Hwf)].
  - intros i u Hi.
    rewrite get_diags, decide_True by done.
    by rewrite (row_sums_adjacency_matrix g i u).
Qed.

Lemma loadsnap_index_mapping_witness :
  ∃ g adj_matrix deg_matrix,
    loadsnap sample_lines = (Ok (g, adj_matrix, deg_matrix), [])
    ∧ let n := length (nx.nodes g) in
      (∀ i j u v, nx.nodes g !! i = Some u → nx.nodes g !! j = Some v →
                  ((i < j)%nat ↔ u < v) ∧ (i = j ↔ u = v))
      ∧ (∀ i, (i < n)%nat ↔ ∃ u, nx.nodes g !! i = Some u)
      ∧ (∀ u, u ∈ nx.nodes g
              ↔ ∃ i, (i < n)%nat ∧ nx.nodes g !! i = Some u)
      ∧ sp.shape adj_matrix = (n, n)
      ∧ sp.shape deg_matrix = (n, n)
      ∧ (∀ i j u v, nx.nodes g !! i = Some u → nx.nodes g !! j = Some v →
           (sp.get adj_matrix i j = 1 ↔ edge g u v)
           ∧ (edge g u v
              ↔ u ≠ v ∧ (Z.min u v, Z.max u v) ∈ loaded_edges sample_lines))
      ∧ (∀ i u, nx.nodes g !! i = Some u →
           sp.get deg_matrix i i = Z.of_nat (size (nx.neighbors g u))).
Proof.
  eexists _, _, _. split; [by vm_compute|].
  eapply (loadsnap_index_mapping sample_lines). by vm_compute.
Defined.

(** C9.  With [n < 1] or with an [edge_probability] that is not a number
    in [0, 1], [create_connected_graph] raises a [ValueError] and leaves
    the world as it was: no random value was drawn and no graph or matrix
    was created.  The probability is checked first. *)
Theorem create_connected_graph_invalid
    (n : Z) (p : pyfloat) (w : world) (fuel : nat) :
  n < 1 ∨ ¬ probability p →
  ∃ msg,
    create_connected_graph fuel n p w = (Raise (ValueError msg), w)
    ∧ build_connected_graph fuel n p w = (Raise (ValueError msg), w)
    ∧ msg = if probability_check p
            then "n must be greater than 0"
            else "edge_probability must be between 0 and 1".
Proof.
  intros Hbad. unfold create_connected_graph, bind, build_connected_graph.
  fold (probability_check p).
  destruct (probability_check p) eqn:Hp; simpl.
  - destruct Hbad as [Hn|Hnp]; [|by apply probability_check_spec in Hp].
    rewrite bool_decide_eq_true_2 by done. by eexists.
  - by eexists.
Qed.

Lemma create_connected_graph_invalid_witness :
  ∃ msg,
    create_connected_graph 5 0 (Finite (1 # 2)) (mkWorld (λ _, 7%N) 0 [])
      = (Raise (ValueError msg), mkWorld (λ _, 7%N) 0 [])
    ∧ build_connected_graph 5 0 (Finite (1 # 2)) (mkWorld (λ _, 7%N) 0 [])
      = (Raise (ValueError msg), mkWorld (λ _, 7%N) 0 [])
    ∧ msg = if probability_check (Finite (1 # 2))
            then "n must be greater than 0"
            else "edge_probability must be between 0 and 1".
Proof.
  apply (create_connected_graph_invalid 0 (Finite (1 # 2))
           (mkWorld (λ _, 7%N) 0 []) 5).
  left. lia.
Defined.

(** C10.  Every node of the graph that [loadsnap] returns is an end point
    of a retained edge, which comes from a line with two different
    integers; so it has a neighbour, and the graph has no isolated node.
    A node identifier that the file has only on lines that are skipped or
    on self-loop lines is not a node of the graph. *)
Theorem loadsnap_no_isolated_nodes
    (lines : list string) (g : nx.Graph)
    (adj_matrix deg_matrix : sp.csc_matrix) (out : list string) :
  loadsnap lines = (Ok (g, adj_matrix, deg_matrix), out) →
  (∀ v, v ∈ nx.nodes g →
     (∃ e, e ∈ loaded_edges lines ∧ (v = e.1 ∨ v = e.2))
     ∧ (∃ line a b, line ∈ lines ∧ line_pair line = Some (a, b)
                    ∧ a ≠ b ∧ (v = a ∨ v = b))
     ∧ (∃ u, u ∈ nx.nodes g ∧ edge g v u)
     ∧ (0 < size (nx.neighbors g v))%nat)
  ∧ (∀ x, (∀ line a b, line ∈ lines → line_pair line = Some (a, b) →
                       x = a ∨ x = b → a = b) →
          x ∉ nx.nodes g).
Proof.
  intros (-> & _)%loadsnap_returned.
  destruct (loaded_graph_spec lines) as (Hwf & Hn & He).
  assert (∀ v, v ∈ nx.nodes (loaded_graph lines) →
            ∃ e, e ∈ loaded_edges lines ∧ (v = e.1 ∨ v = e.2)) as Hend.
  { intros v. rewrite Hn, merge_sort_Permutation, elem_of_elements,
      elem_of_all_nodes_of.
    intros (e & Hin%elem_of_elements & Hv). eauto. }
  assert (∀ v, v ∈ nx.nodes (loaded_graph lines) →
            ∃ line a b, line ∈ lines ∧ line_pair line = Some (a, b)
                        ∧ a ≠ b ∧ (v = a ∨ v = b)) as Hline.
  { intros v (e & Hin & Hv)%Hend.
    apply elem_of_loaded_edges in Hin as (line & a & b & Hl & Hp & Hab & ->).
    exists line, a, b. split_and!; try done. simpl in Hv. lia. }
  split.
  - intros v Hv. split; [by apply Hend|]. split; [by apply Hline|].
    assert (∃ u, edge (loaded_graph lines) v u) as [u Hu].
    { destruct (Hend v Hv) as (e & Hin & Hve).
      pose proof (loaded_edges_ordered lines e Hin) as Hlt.
      destruct e as [a b]. simpl in *. destruct Hve as [->| ->].
      - exists b. apply He. split; [lia|].
        by rewrite Z.min_l, Z.max_r by lia.
      - exists a. apply He. split; [lia|].
        by rewrite Z.min_r, Z.max_l by lia. }
    split.
    + exists u. split; [|done]. by apply (wf_closed _ Hwf v u).
    + assert (size (nx.neighbors (loaded_graph lines) v) ≠ 0%nat); [|lia].
      intros Hz%size_empty_iff. apply leibniz_equiv in Hz.
      unfold edge in Hu. rewrite Hz in Hu. by apply not_elem_of_empty in Hu.
  - intros x Hself Hx. destruct (Hline x Hx) as (line & a & b & Hl & Hp & Hab & Hxab).
    apply Hab. by apply (Hself line a b).
Qed.

Lemma loadsnap_no_isolated_nodes_witness :
  (∃ e, e ∈ loaded_edges sample_lines ∧ (3 = e.1 ∨ 3 = e.2))
  ∧ (∃ line a b, line ∈ sample_lines ∧ line_pair line = Some (a, b)
                 ∧ a ≠ b ∧ (3 = a ∨ 3 = b))
  ∧ (∃ u, u ∈ nx.nodes (loaded_graph sample_lines)
          ∧ edge (loaded_graph sample_lines) 3 u)
  ∧ (0 < size (nx.neighbors (loaded_graph sample_lines) 3))%nat.
Proof.
  assert (∃ adj_matrix deg_matrix out,
            loadsnap sample_lines
            = (Ok (loaded_graph sample_lines, adj_matrix, deg_matrix), out))
    as (adj_matrix & deg_matrix & out & Hrun)
    by (eexists _, _, _; by vm_compute).
  apply (proj1 (loadsnap_no_isolated_nodes sample_lines
                  (loaded_graph sample_lines) adj_matrix deg_matrix out
                  Hrun) 3).
  apply (bool_decide_unpack _). by vm_compute.
Defined.

(** * Further properties of the code *)

(** ** [loadsnap]: which files load, and to what *)

Section loading_more.


Lemma loadsnap_of_edges lines1 lines2 :
  loaded_edges lines1 = loaded_edges lines2 →
  (loadsnap lines1).1 = (loadsnap lines2).1.
Proof.
  intros Heq. unfold loadsnap. fold (loaded_edges lines1).
  fold (loaded_edges lines2). by rewrite Heq.
Qed.

Lemma loaded_edges_names lines e :
  e ∈ loaded_edges lines ↔ e.1 < e.2 ∧ names_edge lines e.1 e.2.
Proof.
  rewrite elem_of_loaded_edges. split.
  - intros (line & u & v & Hl & Hp & Huv & ->). simpl. split; [lia|].
    exists line. split; [done|].
    destruct (Z.le_gt_cases u v).
    + left. by rewrite Z.min_l, Z.max_r by done.
    + right. by rewrite Z.min_r, Z.max_l by lia.
  - destruct e as [a b]. simpl. intros (Hab & line & Hl & [Hp|Hp]).
    + exists line, a, b. split_and!; [done..|lia|].
      by rewrite Z.min_l, Z.max_r by lia.
    + exists line, b, a. split_and!; [done..|lia|].
      by rewrite Z.min_r, Z.max_l by lia.
Qed.

Lemma same_edges_loaded lines1 lines2 :
  same_edges lines1 lines2 → loaded_edges lines1 = loaded_edges lines2.
Proof.
  intros Hsame. apply set_eq. intros e. rewrite !loaded_edges_names.
  split; intros [Hlt Hn]; (split; [done|]); apply Hsame; (done || lia).
Qed.

Lemma names_edge_loaded lines u v :
  u ≠ v →
  names_edge lines u v ↔ (Z.min u v, Z.max u v) ∈ loaded_edges lines.
Proof.
  intros Huv. rewrite loaded_edges_names. simpl. split.
  - intros (line & Hl & Hp). split; [lia|]. exists line. split; [done|].
    destruct (Z.le_gt_cases u v).
    + by rewrite Z.min_l, Z.max_r by done.
    + rewrite Z.min_r, Z.max_l by lia. tauto.
  - intros (_ & line & Hl & Hp). exists line. split; [done|].
    destruct (Z.le_gt_cases u v).
    + by rewrite Z.min_l, Z.max_r in Hp by done.
    + rewrite Z.min_r, Z.max_l in Hp by lia. tauto.
Qed.

Lemma same_edges_loaded_conv lines1 lines2 :
  loaded_edges lines1 = loaded_edges lines2 → same_edges lines1 lines2.
Proof. intros Heq u v Huv. by rewrite !names_edge_loaded, Heq. Qed.

End loading_more.



(** X2.  What [loadsnap] returns depends on the undirected edges that the
    file names and on nothing else: the order of the lines, repeated
    lines, the order of the two integers on a line and the lines that
    are skipped do not matter. *)
Theorem loadsnap_same_edges (lines1 lines2 : list string) :
  same_edges lines1 lines2 →
  (loadsnap lines1).1 = (loadsnap lines2).1.
Proof. intros Hsame. by apply loadsnap_of_edges, same_edges_loaded. Qed.

Lemma loadsnap_same_edges_witness :
  (loadsnap ["0 1"; "1 2"]).1
  = (loadsnap ["2 1"; "# note"; "1 0"; "0 1"; "3 3"]).1.
Proof.
  apply (loadsnap_same_edges ["0 1"; "1 2"]
           ["2 1"; "# note"; "1 0"; "0 1"; "3 3"]).
  apply same_edges_loaded_conv. by vm_compute.
Defined.

(** X3.  Every line of the file that is a pair of two different integers
    can be read back from what [loadsnap] returns: both integers are
    nodes of the graph, they are neighbours of each other, and the
    adjacency matrix has a 1 at their two positions, in both orders. *)
Theorem loadsnap_line_in_matrix
    (lines : list string) (g : nx.Graph)
    (adj_matrix deg_matrix : sp.csc_matrix) (out : list string)
    (line : string) (u v : Z) :
  loadsnap lines = (Ok (g, adj_matrix, deg_matrix), out) →
  line ∈ lines → line_pair line = Some (u, v) → u ≠ v →
  edge g u v ∧ edge g v u
  ∧ ∃ i j, nx.nodes g !! i = Some u ∧ nx.nodes g !! j = Some v
           ∧ sp.get adj_matrix i j = 1 ∧ sp.get adj_matrix j i = 1.
Proof.
  intros (-> & -> & _ & _)%loadsnap_returned Hl Hp Huv.
  destruct (loaded_graph_spec lines) as (Hwf & _ & He).
  assert (edge (loaded_graph lines) u v) as Huv'.
  { apply He. split; [done|]. apply elem_of_loaded_edges.
    by exists line, u, v. }
  pose proof (wf_sym _ Hwf u v Huv') as Hvu.
  destruct (wf_closed _ Hwf u v Huv') as [Hu Hv].
  apply list_elem_of_lookup in Hu as [i Hi].
  apply list_elem_of_lookup in Hv as [j Hj].
  split; [done|]. split; [done|]. exists i, j.
  split; [done|]. split; [done|]. rewrite !get_adjacency_matrix.
  assert (adjacent_at (loaded_graph lines) i j = true) as ->
    by (apply adjacent_at_spec; eauto 6).
  assert (adjacent_at (loaded_graph lines) j i = true) as ->
    by (apply adjacent_at_spec; eauto 6).
  done.
Qed.

Lemma loadsnap_line_in_matrix_witness :
  ∃ g adj_matrix,
    edge g 7 (-2) ∧ edge g (-2) 7
    ∧ ∃ i j, nx.nodes g !! i = Some 7 ∧ nx.nodes g !! j = Some (-2)
             ∧ sp.get adj_matrix i j = 1 ∧ sp.get adj_matrix j i = 1.
Proof.
  assert (∃ g adj_matrix deg_matrix out,
            loadsnap ["1 5"; " 7  -2 "] = (Ok (g, adj_matrix, deg_matrix), out))
    as (g & adj_matrix & deg_matrix & out & Hrun)
    by (eexists _, _, _, _; by vm_compute).
  exists g, adj_matrix.
  apply (loadsnap_line_in_matrix ["1 5"; " 7  -2 "] g adj_matrix deg_matrix
           out " 7  -2 " 7 (-2) Hrun).
  - by right; left.
  - by vm_compute.
  - lia.
Defined.

(** ** The degree matrix *)

Section degrees.

Lemma sum_values_concat_filter (P : nat * Z → Prop)
    `{∀ x, Decision (P x)} (cols : list (list (nat * Z))) :
  sp.sum_values (filter P (concat cols))
  = foldr Z.add 0 ((λ c, sp.sum_values (filter P c)) <$> cols).
Proof.
  induction cols as [|c cols IH]; [done|].
  simpl concat. rewrite filter_app, sum_values_app, IH. done.
Qed.

Lemma row_total_csc_of_columns nrows cols i :
  row_total (sp.csc_of_columns nrows cols) i
  = sp.sum_values (filter (λ rv, rv.1 = i) (concat cols)).
Proof.
  rewrite sum_values_concat_filter. unfold row_total. f_equal.
  change (sp.shape (sp.csc_of_columns nrows cols)).2 with (length cols).
  apply list_eq. intros j. rewrite !list_lookup_fmap.
  destruct (cols !! j) as [c|] eqn:Hj.
  - rewrite (proj2 (lookup_seq 0 (length cols) j j));
      [|split; [done|by eapply lookup_lt_Some]].
    simpl. unfold sp.get. by rewrite (column_csc_of_columns _ _ _ c).
  - rewrite (lookup_ge_None_2 (seq 0 (length cols)) j); [done|].
    rewrite length_seq. by apply lookup_ge_None.
Qed.

Lemma row_sums_csc_of_columns nrows cols i :
  (i < nrows)%nat →
  sp.row_sums (sp.csc_of_columns nrows cols) !! i
  = Some (row_total (sp.csc_of_columns nrows cols) i).
Proof.
  intros Hi. rewrite row_total_csc_of_columns. unfold sp.row_sums.
  rewrite list_lookup_fmap. simpl.
  rewrite (proj2 (lookup_seq 0 nrows i i)) by (split; [done|lia]). simpl.
  by rewrite zip_fst_snd.
Qed.

Lemma degree_matrix_entries g i j :
  sp.get (sp.diags (sp.row_sums (nx.adjacency_csc g))) i j
  = if decide (i = j ∧ (i < length (nx.nodes g))%nat)
    then row_total (nx.adjacency_csc g) i else 0.
Proof.
  rewrite get_diags. destruct (decide (i = j)) as [<-|Hne].
  - destruct (decide (i < length (nx.nodes g))%nat) as [Hlt|Hge].
    + rewrite decide_True by done. unfold nx.adjacency_csc.
      by rewrite row_sums_csc_of_columns.
    + rewrite decide_False by tauto.
      rewrite (lookup_ge_None_2 (sp.row_sums _) i); [done|].
      unfold sp.row_sums. rewrite length_fmap, length_seq. simpl. lia.
  - rewrite decide_False by tauto. done.
Qed.

End degrees.

(** X4.  The degree matrix that [loadsnap] and [create_connected_graph]
    return is diagonal, and its entry [(i, i)] is the sum of row [i] of the
    adjacency matrix returned with it. *)
Theorem degree_matrix_row_sums :
  (∀ lines g adj_matrix deg_matrix out,
     loadsnap lines = (Ok (g, adj_matrix, deg_matrix), out) →
     ∀ i j, sp.get deg_matrix i j
            = if decide (i = j ∧ (i < (sp.shape adj_matrix).1)%nat)
              then row_total adj_matrix i else 0)
  ∧ (∀ fuel n p w adj_matrix deg_matrix w',
       create_connected_graph fuel n p w
       = (Ok (adj_matrix, deg_matrix), w') →
       ∀ i j, sp.get deg_matrix i j
              = if decide (i = j ∧ (i < (sp.shape adj_matrix).1)%nat)
                then row_total adj_matrix i else 0).
Proof.
  split.
  - intros lines g A D out (-> & -> & -> & _)%loadsnap_returned i j.
    apply degree_matrix_entries.
  - intros fuel n p w A D w'. unfold create_connected_graph.
    unfold bind at 1.
    destruct (build_connected_graph fuel n p w) as [[g| |] w1]; [|done..].
    unfold bind at 1, lift.
    destruct (nx.adjacency_matrix g) as [m| |] eqn:Hm; [|done..].
    apply adjacency_matrix_returned in Hm as [-> _].
    unfold bind, emit, ret. simpl. intros [= <- <- _] i j.
    apply degree_matrix_entries.
Qed.

Lemma degree_matrix_row_sums_witness :
  (∃ g adj_matrix deg_matrix out,
     loadsnap sample_lines = (Ok (g, adj_matrix, deg_matrix), out)
     ∧ ∀ i j, sp.get deg_matrix i j
              = if decide (i = j ∧ (i < (sp.shape adj_matrix).1)%nat)
                then row_total adj_matrix i else 0)
  ∧ ∃ adj_matrix deg_matrix w',
      create_connected_graph 3 3 (Finite (1 # 2)) (mkWorld (λ _, 5%N) 0 [])
      = (Ok (adj_matrix, deg_matrix), w')
      ∧ ∀ i j, sp.get deg_matrix i j
               = if decide (i = j ∧ (i < (sp.shape adj_matrix).1)%nat)
                 then row_total adj_matrix i else 0.
Proof.
  split.
  - eexists _, _, _, _. split; [by vm_compute|].
    eapply (proj1 degree_matrix_row_sums sample_lines). by vm_compute.
  - eexists _, _, _. split; [by vm_compute|].
    eapply (proj2 degree_matrix_row_sums 3%nat 3 (Finite (1 # 2))
              (mkWorld (λ _, 5%N) 0 [])).
    by vm_compute.
Defined.

(** ** The sampling phase in closed form *)

Section sampling.

Lemma for_each_prefix {A S} (I : list A → S → world → Prop)
    (l : list A) (body : A → S → M S) s w :
  I [] s w →
  (∀ done x s w, I done s w →
     ∃ s' w', body x s w = (Ok s', w') ∧ I (done ++ [x]) s' w') →
  ∃ s' w', for_each l body s w = (Ok s', w') ∧ I l s' w'.
Proof.
  intros Hinit Hbody.
  assert (∀ done s w, I done s w →
            ∃ s' w', for_each l body s w = (Ok s', w')
                     ∧ I (done ++ l) s' w') as Hgen.
  { induction l as [|x l IH]; intros done s0 w0 HI; simpl.
    - exists s0, w0. by rewrite app_nil_r.
    - unfold bind. destruct (Hbody done x s0 w0 HI) as (s1 & w1 & -> & HI1).
      destruct (IH (done ++ [x]) s1 w1 HI1) as (s2 & w2 & Hrun & HI2).
      exists s2, w2. split; [done|]. by rewrite <- app_assoc in HI2. }
  by apply (Hgen [] s w).
Qed.

Lemma kept_pairs_app d p l1 : ∀ c l2,
  kept_pairs d p c (l1 ++ l2)
  = kept_pairs d p c l1 ++ kept_pairs d p (c + length l1) l2.
Proof.
  induction l1 as [|e l1 IH]; intros c l2.
  - simpl. by rewrite Nat.add_0_r.
  - cbn [kept_pairs app length]. rewrite IH.
    replace (S c + length l1)%nat with (c + S (length l1))%nat by lia.
    by destruct (float_le (draw_float (d c)) p).
Qed.

Lemma kept_pairs_singleton d p c e :
  kept_pairs d p c [e] = if float_le (draw_float (d c)) p then [e] else [].
Proof. done. Qed.

Lemma random_eq w :
  random.random w
  = (Ok (draw_float (draws w (cursor w))),
     mkWorld (draws w) (S (cursor w)) (events w)).
Proof. done. Qed.

Lemma add_edges_from_app g l1 l2 :
  nx.add_edges_from g (l1 ++ l2)
  = nx.add_edges_from (nx.add_edges_from g l1) l2.
Proof. unfold nx.add_edges_from. apply foldl_app. Qed.

Lemma add_edge_events_app l1 l2 :
  add_edge_events (l1 ++ l2) = add_edge_events l1 ++ add_edge_events l2.
Proof. unfold add_edge_events. apply fmap_app. Qed.

(** One row of the sampling loop: the pairs [(i, j)] for [j] in [js]. *)
Lemma sample_row_closed p i js g w :
  for_each js (λ j g,
      let* x := random.random in
      if float_le x p
      then let* _ := emit (EvAddEdge i j) in ret (nx.add_edge g i j)
      else ret g) g w
  = (Ok (nx.add_edges_from g
           (kept_pairs (draws w) p (cursor w) ((λ j, (i, j)) <$> js))),
     mkWorld (draws w) (cursor w + length js)
       (events w ++ add_edge_events
          (kept_pairs (draws w) p (cursor w) ((λ j, (i, j)) <$> js)))).
Proof.
  destruct (for_each_prefix
    (λ done g' w',
       g' = nx.add_edges_from g
              (kept_pairs (draws w) p (cursor w) ((λ j, (i, j)) <$> done))
       ∧ w' = mkWorld (draws w) (cursor w + length done)
                (events w ++ add_edge_events
                   (kept_pairs (draws w) p (cursor w)
                      ((λ j, (i, j)) <$> done))))
    js (λ j g,
      let* x := random.random in
      if float_le x p
      then let* _ := emit (EvAddEdge i j) in ret (nx.add_edge g i j)
      else ret g) g w) as (g' & w' & -> & -> & ->); [| |done].
  - simpl. split; [done|]. destruct w. simpl.
    by rewrite Nat.add_0_r, app_nil_r.
  - intros done j g1 w1 [-> ->].
    rewrite fmap_app, kept_pairs_app, length_fmap.
    change ((λ j, (i, j)) <$> [j]) with [(i, j)].
    rewrite kept_pairs_singleton, length_app.
    unfold bind at 1. rewrite random_eq. cbn [draws cursor events].
    destruct (float_le (draw_float (draws w (cursor w + length done))) p).
    + unfold bind, emit, ret. cbn [draws cursor events].
      eexists _, _. split; [done|].
      rewrite add_edges_from_app, add_edge_events_app.
      split; [done|]. f_equal; [simpl; lia|]. by rewrite <- app_assoc.
    + eexists _, _. split; [done|]. rewrite !app_nil_r.
      split; [done|]. f_equal. simpl. lia.
Qed.

Lemma sample_edges_closed n p g w :
  sample_edges n p g w
  = (Ok (nx.add_edges_from g
           (kept_pairs (draws w) p (cursor w) (all_pairs n))),
     mkWorld (draws w) (cursor w + length (all_pairs n))
       (events w ++ add_edge_events
          (kept_pairs (draws w) p (cursor w) (all_pairs n)))).
Proof.
  unfold sample_edges, all_pairs.
  set (row := λ i : Z, (λ j, (i, j)) <$> seqZ (i + 1) (n - (i + 1))).
  destruct (for_each_prefix
    (λ done g' w',
       g' = nx.add_edges_from g
              (kept_pairs (draws w) p (cursor w) (concat (row <$> done)))
       ∧ w' = mkWorld (draws w)
                (cursor w + length (concat (row <$> done)))
                (events w ++ add_edge_events
                   (kept_pairs (draws w) p (cursor w)
                      (concat (row <$> done)))))
    (seqZ 0 n)
    (λ i g, for_each (seqZ (i + 1) (n - (i + 1))) (λ j g,
        let* x := random.random in
        if float_le x p
        then let* _ := emit (EvAddEdge i j) in ret (nx.add_edge g i j)
        else ret g) g) g w) as (g' & w' & -> & -> & ->); [| |done].
  - simpl. split; [done|]. destruct w. simpl.
    by rewrite Nat.add_0_r, app_nil_r.
  - intros done i g1 w1 [-> ->]. rewrite sample_row_closed. simpl.
    eexists _, _. split; [done|].
    rewrite fmap_app, concat_app. simpl. rewrite app_nil_r.
    fold (row i). rewrite kept_pairs_app, add_edges_from_app,
      add_edge_events_app, length_app, <- app_assoc.
    assert (length (row i) = length (seqZ (i + 1) (n - (i + 1)))) as ->
      by apply length_fmap.
    split; [done|]. f_equal. lia.
Qed.

Lemma elem_of_concat {A} (x : A) (ls : list (list A)) :
  x ∈ concat ls ↔ ∃ l, x ∈ l ∧ l ∈ ls.
Proof.
  induction ls as [|l ls IH]; simpl.
  - split; [by intros ?%elem_of_nil|]. by intros (? & _ & ?%elem_of_nil).
  - rewrite elem_of_app, IH. split.
    + intros [Hx|(l' & Hx & Hl')]; [exists l; split; [done|left]|].
      exists l'. split; [done|by right].
    + intros (l' & Hx & [->|Hl']%elem_of_cons); [by left|]. right. eauto.
Qed.

Lemma elem_of_all_pairs n i j :
  (i, j) ∈ all_pairs n ↔ 0 ≤ i ∧ i < j ∧ j < n.
Proof.
  unfold all_pairs. rewrite elem_of_concat. split.
  - intros (l & Hij & Hl). apply list_elem_of_fmap in Hl as (i' & -> & Hi').
    apply list_elem_of_fmap in Hij as (j' & [= -> ->] & Hj').
    apply elem_of_seqZ in Hi', Hj'. lia.
  - intros (Hi & Hij & Hj).
    exists ((λ j, (i, j)) <$> seqZ (i + 1) (n - (i + 1))). split.
    + apply list_elem_of_fmap. exists j. split; [done|].
      apply elem_of_seqZ. lia.
    + apply list_elem_of_fmap. exists i. split; [done|].
      apply elem_of_seqZ. lia.
Qed.

Lemma length_rows n (k : nat) : ∀ a,
  0 ≤ a → a + Z.of_nat k ≤ n →
  2 * Z.of_nat (length (concat
        ((λ i, (λ j, (i, j)) <$> seqZ (i + 1) (n - (i + 1)))
           <$> seqZ a (Z.of_nat k))))
  = Z.of_nat k * (2 * n - 2 * a - Z.of_nat k - 1).
Proof.
  induction k as [|k IH]; intros a Ha Hk; [done|].
  rewrite seqZ_cons by lia. rewrite fmap_cons. simpl concat.
  rewrite length_app, length_fmap, length_seqZ.
  replace (Z.pred (Z.of_nat (S k))) with (Z.of_nat k) by lia.
  rewrite Nat2Z.inj_add, Z.mul_add_distr_l, (IH (Z.succ a)) by lia. lia.
Qed.

Lemma length_all_pairs n :
  0 ≤ n → 2 * Z.of_nat (length (all_pairs n)) = n * (n - 1).
Proof.
  intros Hn. unfold all_pairs.
  pose proof (length_rows n (Z.to_nat n) 0) as Hlen.
  rewrite Z2Nat.id in Hlen by done. rewrite Hlen by lia. lia.
Qed.

End sampling.

(** X5.  The sampling phase of [create_connected_graph] performs one
    Bernoulli trial for each of the [n (n - 1) / 2] pairs [i < j], in the
    order of the two loops, each with a draw of its own: the [k]-th pair
    becomes an edge exactly if the [k]-th value of [random.random()] is
    [<= edge_probability].  Nothing else changes the graph, and exactly
    that many values are drawn. *)
Theorem sample_edges_trials
    (n : Z) (p : pyfloat) (g : nx.Graph) (w : world) :
  0 ≤ n →
  sample_edges n p g w
  = (Ok (nx.add_edges_from g
           (kept_pairs (draws w) p (cursor w) (all_pairs n))),
     mkWorld (draws w) (cursor w + length (all_pairs n))
       (events w ++ add_edge_events
          (kept_pairs (draws w) p (cursor w) (all_pairs n))))
  ∧ 2 * Z.of_nat (length (all_pairs n)) = n * (n - 1)
  ∧ ∀ i j, (i, j) ∈ all_pairs n ↔ 0 ≤ i ∧ i < j ∧ j < n.
Proof.
  intros Hn. split; [apply sample_edges_closed|].
  split; [by apply length_all_pairs|]. apply elem_of_all_pairs.
Qed.

Lemma sample_edges_trials_witness :
  let g := nx.add_nodes_from nx.empty_graph (seqZ 0 4) in
  let w := mkWorld (λ k, if Nat.even k then 0%N else (2 ^ 52)%N) 0 [] in
  sample_edges 4 (Finite (1 # 4)) g w
  = (Ok (nx.add_edges_from g
           (kept_pairs (draws w) (Finite (1 # 4)) (cursor w) (all_pairs 4))),
     mkWorld (draws w) (cursor w + length (all_pairs 4))
       (events w ++ add_edge_events
          (kept_pairs (draws w) (Finite (1 # 4)) (cursor w) (all_pairs 4))))
  ∧ 2 * Z.of_nat (length (all_pairs 4)) = 4 * (4 - 1)
  ∧ ∀ i j, (i, j) ∈ all_pairs 4 ↔ 0 ≤ i ∧ i < j ∧ j < 4.
Proof.
  apply (sample_edges_trials 4 (Finite (1 # 4))
           (nx.add_nodes_from nx.empty_graph (seqZ 0 4))
           (mkWorld (λ k, if Nat.even k then 0%N else (2 ^ 52)%N) 0 [])).
  lia.
Defined.

(** ** Edge probability one, one node, and the degrees *)

Section generated.

Lemma bind_emit {B} (e : event) (k : unit → M B) w :
  bind (emit e) k w
  = k tt (mkWorld (draws w) (cursor w) (events w ++ [e])).
Proof. done. Qed.

Lemma bind_ok {A B} (c : M A) (k : A → M B) w a w' :
  c w = (Ok a, w') → bind c k w = k a w'.
Proof. intros Hc. unfold bind. by rewrite Hc. Qed.

Lemma float_le_one (k : N) : float_le (draw_float k) (Finite 1) = true.
Proof.
  unfold draw_float.
  assert (k mod 2 ^ 53 < 2 ^ 53)%N as Hlt by (by apply N.mod_lt).
  revert Hlt. generalize (k mod 2 ^ 53)%N. intros x Hx.
  simpl. unfold Qle_bool. simpl. apply Z.leb_le. lia.
Qed.

Lemma kept_pairs_one d l : ∀ c, kept_pairs d (Finite 1) c l = l.
Proof.
  induction l as [|e l IH]; intros c; [done|].
  cbn [kept_pairs]. by rewrite float_le_one, IH.
Qed.

Lemma complete_graph_spec n :
  let g := nx.add_edges_from
             (nx.add_nodes_from nx.empty_graph (seqZ 0 n)) (all_pairs n) in
  graph_wf g ∧ nx.nodes g = seqZ 0 n
  ∧ ∀ u v, edge g u v ↔ (0 ≤ u < n ∧ 0 ≤ v < n ∧ u ≠ v).
Proof.
  destruct (add_nodes_from_empty (seqZ 0 n) (NoDup_seqZ 0 n))
    as (Hnodes & Hedgeless & Hwf0).
  destruct (add_edges_from_spec (all_pairs n) _ Hwf0) as (Hwf & Hn & He).
  { apply Forall_forall. intros [i j] Hij%elem_of_all_pairs.
    rewrite Hnodes, !elem_of_seqZ. simpl. lia. }
  simpl. split; [done|]. split; [by rewrite Hn|].
  intros u v. rewrite He. unfold edge at 1. rewrite Hedgeless. split.
  - intros [?%not_elem_of_empty|([i j] & Hij%elem_of_all_pairs & Huv)];
      [done|]. simpl in Huv. lia.
  - intros (Hu & Hv & Huv). right.
    destruct (Z.lt_trichotomy u v) as [Hlt|[?|Hgt]]; [|done|].
    + exists (u, v). rewrite elem_of_all_pairs. simpl. split; [lia|tauto].
    + exists (v, u). rewrite elem_of_all_pairs. simpl. split; [lia|tauto].
Qed.

Lemma connected_has_neighbor g u :
  graph_wf g → connected g → u ∈ nx.nodes g →
  (∃ v, v ∈ nx.nodes g ∧ v ≠ u) → ∃ x, edge g u x.
Proof.
  intros Hwf Hcon Hu (v & Hv & Hne).
  pose proof (Hcon u v Hu Hv) as Huv. unfold reachable in Huv.
  destruct Huv as [|u x v Hux _]; [done|]. eauto.
Qed.

Lemma degree_entry g i u :
  graph_wf g → nx.nodes g !! i = Some u →
  sp.get (sp.diags (sp.row_sums (nx.adjacency_csc g))) i i
  = Z.of_nat (size (nx.neighbors g u)).
Proof.
  intros Hwf Hi. rewrite get_diags, decide_True by done.
  by rewrite (row_sums_adjacency_matrix g i u).
Qed.

Lemma size_neighbors_lt g u :
  graph_wf g → u ∈ nx.nodes g →
  (size (nx.neighbors g u) < length (nx.nodes g))%nat.
Proof.
  intros Hwf Hu.
  rewrite <- (size_list_to_set (C := gset Z) (nx.nodes g)) by apply Hwf.
  apply subset_size. apply strict_spec_alt. split.
  - intros x Hx. apply elem_of_list_to_set. by apply (wf_closed g Hwf u x).
  - intros Heq.
    assert (u ∈ nx.neighbors g u) as Hin
      by (rewrite Heq; by apply elem_of_list_to_set).
    by apply (wf_irrefl g Hwf u).
Qed.

End generated.

(** X6.  With [edge_probability = 1] every trial succeeds, whatever the
    random source yields: the graph built has an edge between any two
    different nodes, the repair loop finds it connected at its first test
    and adds nothing, and the only values drawn are those of the
    [n (n - 1) / 2] trials. *)
Theorem probability_one_complete (n : Z) (w : world) (fuel : nat) :
  1 ≤ n → (1 ≤ fuel)%nat →
  let g := nx.add_edges_from
             (nx.add_nodes_from nx.empty_graph (seqZ 0 n)) (all_pairs n) in
  build_connected_graph fuel n (Finite 1) w
  = (Ok g,
     mkWorld (draws w) (cursor w + length (all_pairs n))
       (events w ++ [EvGraph; EvAddNodes (seqZ 0 n)]
          ++ add_edge_events (all_pairs n)))
  ∧ nx.nodes g = seqZ 0 n
  ∧ ∀ u v, edge g u v ↔ (0 ≤ u < n ∧ 0 ≤ v < n ∧ u ≠ v).
Proof.
  intros Hn Hfuel g. destruct (complete_graph_spec n) as (Hwf & Hnodes & He).
  fold g in Hwf, Hnodes, He. split; [|done].
  unfold build_connected_graph.
  assert (negb (float_le (Finite 0) (Finite 1)
                && float_le (Finite 1) (Finite 1)) = false) as ->
    by (by vm_compute).
  rewrite bool_decide_eq_false_2 by lia.
  rewrite !bind_emit. cbn [draws cursor events].
  erewrite bind_ok by apply sample_edges_closed.
  rewrite kept_pairs_one. cbn [draws cursor events]. fold g.
  destruct fuel as [|fuel]; [lia|]. cbn [repair_loop].
  assert (∃ v0 rest, nx.nodes g = v0 :: rest) as (v0 & rest & Hv0).
  { rewrite Hnodes, seqZ_cons by lia. eauto. }
  destruct (is_connected_spec g Hwf v0 rest Hv0) as (c & Hc & Hiff).
  assert (c = true) as ->.
  { apply Hiff. intros u v Hu Hv. rewrite Hnodes in Hu, Hv.
    apply elem_of_seqZ in Hu, Hv.
    destruct (decide (u = v)) as [->|Hne]; [apply rtc_refl|].
    apply rtc_once, He. lia. }
  unfold bind, lift, ret. rewrite Hc. rewrite Hc.
  by rewrite <- !app_assoc.
Qed.

Lemma probability_one_complete_witness :
  let g := nx.add_edges_from
             (nx.add_nodes_from nx.empty_graph (seqZ 0 3)) (all_pairs 3) in
  let w := mkWorld (λ _, 0%N) 0 [] in
  build_connected_graph 1 3 (Finite 1) w
  = (Ok g,
     mkWorld (draws w) (cursor w + length (all_pairs 3))
       (events w ++ [EvGraph; EvAddNodes (seqZ 0 3)]
          ++ add_edge_events (all_pairs 3)))
  ∧ nx.nodes g = seqZ 0 3
  ∧ ∀ u v, edge g u v ↔ (0 ≤ u < 3 ∧ 0 ≤ v < 3 ∧ u ≠ v).
Proof.
  apply (probability_one_complete 3 (mkWorld (λ _, 0%N) 0 []) 1); lia.
Defined.

(** X7.  For [n = 1] there is no pair to sample and nothing to repair:
    whatever the probability and the random source, the call draws no
    value and returns the 1 by 1 adjacency matrix without entry and a
    1 by 1 degree matrix with the degree 0. *)
Theorem create_connected_graph_single_node
    (p : pyfloat) (w : world) (fuel : nat) :
  probability p → (1 ≤ fuel)%nat →
  ∃ deg_matrix,
    create_connected_graph fuel 1 p w
    = (Ok (sp.mkCsc (1%nat, 1%nat) [0; 0]%nat [] [], deg_matrix),
       mkWorld (draws w) (cursor w)
         (events w ++ [EvGraph; EvAddNodes [0]; EvAdjacencyMatrix; EvDiags]))
    ∧ sp.shape deg_matrix = (1%nat, 1%nat)
    ∧ sp.diagonal deg_matrix = [0].
Proof.
  intros Hp%probability_check_spec Hfuel.
  exists (sp.diags (sp.row_sums (sp.mkCsc (1%nat, 1%nat) [0; 0]%nat [] []))).
  split; [|by vm_compute].
  unfold create_connected_graph, build_connected_graph.
  unfold probability_check in Hp. rewrite Hp.
  change (negb true) with false. cbv iota.
  rewrite bool_decide_eq_false_2 by lia.
  set (g := nx.add_nodes_from nx.empty_graph (seqZ 0 1)).
  assert (∀ w0, sample_edges 1 p g w0 = (Ok g, w0)) as Hs.
  { intros w0. rewrite sample_edges_closed.
    change (all_pairs 1) with (@nil (Z * Z)). cbn [kept_pairs length].
    destruct w0. unfold add_edge_events. simpl.
    by rewrite Nat.add_0_r, app_nil_r. }
  unfold bind at 1. rewrite !bind_emit. cbn [draws cursor events].
  erewrite bind_ok by apply Hs.
  assert (nx.is_connected g = Ok true) as Hc by (by vm_compute).
  assert (nx.adjacency_matrix g
          = Ok (sp.mkCsc (1%nat, 1%nat) [0; 0]%nat [] [])) as Ha
    by (by vm_compute).
  destruct fuel as [|fuel]; [lia|]. cbn [repair_loop].
  unfold bind, lift, ret, emit. rewrite Hc. rewrite Hc. rewrite Ha.
  cbn [draws cursor events]. rewrite <- !app_assoc. simpl.
  done.
Qed.

Lemma create_connected_graph_single_node_witness :
  ∃ deg_matrix,
    create_connected_graph 1 1 (Finite (3 # 10)) (mkWorld (λ _, 9%N) 4 [])
    = (Ok (sp.mkCsc (1%nat, 1%nat) [0; 0]%nat [] [], deg_matrix),
       mkWorld (λ _, 9%N) 4
         ([] ++ [EvGraph; EvAddNodes [0]; EvAdjacencyMatrix; EvDiags]))
    ∧ sp.shape deg_matrix = (1%nat, 1%nat)
    ∧ sp.diagonal deg_matrix = [0].
Proof.
  apply (create_connected_graph_single_node (Finite (3 # 10))
           (mkWorld (λ _, 9%N) 4 []) 1).
  - exists (3 # 10)%Q. split; [reflexivity|]. split; by vm_compute.
  - lia.
Defined.

(** X8.  For [n >= 2] the graph returned by [create_connected_graph] has
    no isolated node and no loop: every diagonal entry of the degree
    matrix lies between 1 and [n - 1]. *)
Theorem generated_degrees_bounded
    (n : Z) (p : pyfloat) (w : world) (fuel : nat) :
  2 ≤ n → probability p → (Z.to_nat n ≤ fuel)%nat →
  ∃ adj_matrix deg_matrix w',
    create_connected_graph fuel n p w = (Ok (adj_matrix, deg_matrix), w')
    ∧ ∀ i, (i < Z.to_nat n)%nat →
           1 ≤ sp.get deg_matrix i i ≤ n - 1.
Proof.
  intros Hn Hp Hfuel.
  destruct (build_connected_graph_spec n p w fuel) as
    (g0 & g & w1 & sampled & merges & Hrun & _ & _ & _ & _
     & Hwf & Hnodes & Hcon & _); [lia|done..|].
  assert (length (nx.nodes g) = Z.to_nat n) as Hlen
    by (by rewrite Hnodes, length_seqZ).
  assert (nx.nodes g ≠ []) as Hne.
  { intros Hnil. rewrite Hnil in Hlen. simpl in Hlen. lia. }
  eexists _, _, _. split.
  { unfold create_connected_graph, bind. rewrite Hrun. unfold lift.
    rewrite adjacency_matrix_nonempty by done. simpl. done. }
  intros i Hi.
  assert (nx.nodes g !! i = Some (Z.of_nat i)) as Hnode.
  { rewrite Hnodes. apply lookup_seqZ. lia. }
  pose proof (list_elem_of_lookup_2 _ _ _ Hnode) as Hin.
  rewrite (degree_entry g i (Z.of_nat i)) by done.
  pose proof (size_neighbors_lt g (Z.of_nat i) Hwf Hin) as Hup.
  destruct (connected_has_neighbor g (Z.of_nat i) Hwf Hcon Hin)
    as [x Hx].
  { exists (if decide (i = 0%nat) then 1 else 0).
    rewrite Hnodes, elem_of_seqZ. case_decide; lia. }
  assert (size (nx.neighbors g (Z.of_nat i)) ≠ 0%nat) as Hpos.
  { intros Hz%size_empty_iff. apply leibniz_equiv in Hz.
    unfold edge in Hx. rewrite Hz in Hx. by apply not_elem_of_empty in Hx. }
  lia.
Qed.

Lemma generated_degrees_bounded_witness :
  ∃ adj_matrix deg_matrix w',
    create_connected_graph 3 3 (Finite (1 # 2)) (mkWorld (λ _, 5%N) 0 [])
    = (Ok (adj_matrix, deg_matrix), w')
    ∧ ∀ i, (i < Z.to_nat 3)%nat →
           1 ≤ sp.get deg_matrix i i ≤ 3 - 1.
Proof.
  apply (generated_degrees_bounded 3 (Finite (1 # 2))
           (mkWorld (λ _, 5%N) 0 []) 3).
  - lia.
  - exists (1 # 2)%Q. split; [reflexivity|]. split; by vm_compute.
  - simpl. lia.
Defined.

(** ** The neighbourhood in closed form *)

Section neighborhood_more.

Lemma collect_neighbors_exact m n seeds : ∀ acc,
  length (sp.indptr m) = S n →
  Forall (λ i, 0 ≤ i < Z.of_nat n) seeds →
  collect_neighbors m seeds acc
  = Ok (acc ∪ ⋃ ((λ s, list_to_set (Z.of_nat <$> column_rows m (Z.to_nat s)))
                   <$> seeds)).
Proof.
  intros acc Hlen Hseeds. revert acc.
  induction Hseeds as [|idx seeds Hidx _ IH]; intros acc; simpl.
  { f_equal. by rewrite union_empty_r_L. }
  destruct (np_getitem_in_range (sp.indptr m) idx) as (s & -> & Hs); [lia|].
  destruct (np_getitem_in_range (sp.indptr m) (idx + 1)) as (e & -> & He);
    [lia|].
  simpl. rewrite IH. f_equal. rewrite <- union_assoc_L. do 3 f_equal.
  unfold column_rows. rewrite Z2Nat.inj_add in He by lia.
  rewrite Nat.add_1_r in He. by rewrite Hs, He.
Qed.

Lemma get_neighborhood_indices_exact indices adj_mat :
  adjacency_form adj_mat →
  Forall (λ i, 0 ≤ i < matrix_size adj_mat) indices →
  get_neighborhood_indices indices adj_mat
  = Ok (merge_sort Z.le
          (elements (closed_neighborhood (sp.csc_form adj_mat) indices))).
Proof.
  intros (Hsq & Hlen & _) Hseeds.
  unfold get_neighborhood_indices, matrix_size in *.
  set (n := (sp.shape (sp.csc_form adj_mat)).1) in *.
  destruct (from_option _ false (py_max indices)) eqn:Hup.
  { apply upper_check_spec in Hup as (i & Hi & Hn).
    rewrite Forall_forall in Hseeds. apply Hseeds in Hi. lia. }
  destruct (from_option _ false (py_min indices)) eqn:Hlo.
  { apply lower_check_spec in Hlo as (i & Hi & Hn).
    rewrite Forall_forall in Hseeds. apply Hseeds in Hi. lia. }
  case_bool_decide as Hnil.
  { subst indices. by vm_compute. }
  assert (sp.csc_form (if sp.is_csc adj_mat then adj_mat
                       else sp.tocsc adj_mat) = sp.csc_form adj_mat) as ->
    by (by destruct (sp.is_csc adj_mat)).
  rewrite (collect_neighbors_exact _ n) by (by rewrite ?Hlen, <- ?Hsq).
  simpl. fold (closed_neighborhood (sp.csc_form adj_mat) indices).
  set (nb := closed_neighborhood (sp.csc_form adj_mat) indices).
  assert (forallb (λ idx, bool_decide (idx ∈ merge_sort Z.le (elements nb)))
            indices = true) as ->; [|done].
  apply forallb_forall. intros idx Hidx%list_elem_of_In.
  apply bool_decide_eq_true.
  rewrite merge_sort_Permutation, elem_of_elements.
  unfold nb, closed_neighborhood.
  apply elem_of_union. left. by apply elem_of_list_to_set.
Qed.

Lemma elem_of_closed_neighborhood m seeds x :
  x ∈ closed_neighborhood m seeds
  ↔ x ∈ seeds
    ∨ ∃ s k, s ∈ seeds ∧ k ∈ column_rows m (Z.to_nat s) ∧ x = Z.of_nat k.
Proof.
  unfold closed_neighborhood.
  rewrite elem_of_union, elem_of_list_to_set, elem_of_union_list.
  split; (intros [?|H]; [by left|right]).
  - destruct H as (X & HX & Hx).
    apply list_elem_of_fmap in HX as (s & -> & Hs).
    apply elem_of_list_to_set, list_elem_of_fmap in Hx as (k & -> & Hk).
    eauto.
  - destruct H as (s & k & Hs & Hk & ->).
    exists (list_to_set (Z.of_nat <$> column_rows m (Z.to_nat s))). split.
    + apply list_elem_of_fmap. eauto.
    + apply elem_of_list_to_set, list_elem_of_fmap. eauto.
Qed.

Lemma elem_of_sorted_elements (X : gset Z) x :
  x ∈ merge_sort Z.le (elements X) ↔ x ∈ X.
Proof. by rewrite merge_sort_Permutation, elem_of_elements. Qed.

End neighborhood_more.

(** X9.  On a square, well-formed adjacency matrix and seeds in range,
    [get_neighborhood_indices] returns exactly the closed neighbourhood
    that the storage of the matrix defines: an index is in the result if
    and only if it is a seed or is stored as a row index in the column of
    a seed.  The values stored do not matter: an entry that is stored
    explicitly counts as a neighbour whatever its value. *)
Theorem get_neighborhood_indices_closed
    (indices : list Z) (adj_mat : sp.spmatrix) :
  adjacency_form adj_mat →
  Forall (λ i, 0 ≤ i < matrix_size adj_mat) indices →
  ∃ r, get_neighborhood_indices indices adj_mat = Ok r
       ∧ ∀ x, x ∈ r
              ↔ x ∈ indices
                ∨ ∃ s k, s ∈ indices
                         ∧ k ∈ column_rows (sp.csc_form adj_mat) (Z.to_nat s)
                         ∧ x = Z.of_nat k.
Proof.
  intros Hform Hseeds. eexists. split.
  - by apply get_neighborhood_indices_exact.
  - intros x. by rewrite elem_of_sorted_elements, elem_of_closed_neighborhood.
Qed.

Lemma get_neighborhood_indices_closed_witness :
  ∃ r, get_neighborhood_indices [3; 0] example_matrix = Ok r
       ∧ ∀ x, x ∈ r
              ↔ x ∈ [3; 0]
                ∨ ∃ s k, s ∈ [3; 0]
                         ∧ k ∈ column_rows (sp.csc_form example_matrix)
                                 (Z.to_nat s)
                         ∧ x = Z.of_nat k.
Proof.
  apply (get_neighborhood_indices_closed [3; 0] example_matrix).
  - split; [reflexivity|]. unfold sp.well_formed. simpl.
    split_and!; try reflexivity.
    + repeat constructor.
    + repeat constructor.
  - repeat constructor; by vm_compute.
Defined.

(** X10.  The result of [get_neighborhood_indices] depends on the set of
    the seeds only, not on their order or on repetitions, and it grows
    with this set: more seeds never give fewer indices. *)
Theorem get_neighborhood_indices_seed_set
    (indices1 indices2 : list Z) (adj_mat : sp.spmatrix) :
  adjacency_form adj_mat →
  Forall (λ i, 0 ≤ i < matrix_size adj_mat) indices1 →
  Forall (λ i, 0 ≤ i < matrix_size adj_mat) indices2 →
  ∃ r1 r2,
    get_neighborhood_indices indices1 adj_mat = Ok r1
    ∧ get_neighborhood_indices indices2 adj_mat = Ok r2
    ∧ ((∀ x, x ∈ indices1 → x ∈ indices2) → ∀ x, x ∈ r1 → x ∈ r2)
    ∧ ((∀ x, x ∈ indices1 ↔ x ∈ indices2) → r1 = r2).
Proof.
  intros Hform H1 H2. eexists _, _.
  split; [by apply get_neighborhood_indices_exact|].
  split; [by apply get_neighborhood_indices_exact|].
  assert (∀ l1 l2 : list Z, (∀ x, x ∈ l1 → x ∈ l2) →
            closed_neighborhood (sp.csc_form adj_mat) l1
            ⊆ closed_neighborhood (sp.csc_form adj_mat) l2) as Hmono.
  { intros l1 l2 Hsub x. rewrite !elem_of_closed_neighborhood.
    intros [?|(s & k & Hs & Hk & ->)]; [left; auto|].
    right. exists s, k. auto. }
  split.
  - intros Hsub x. rewrite !elem_of_sorted_elements. by apply Hmono.
  - intros Hsame.
    assert (closed_neighborhood (sp.csc_form adj_mat) indices1
            = closed_neighborhood (sp.csc_form adj_mat) indices2) as ->;
      [|done].
    apply set_eq. intros x. split; apply Hmono; intros y; apply Hsame.
Qed.

Lemma get_neighborhood_indices_seed_set_witness :
  ∃ r1 r2,
    get_neighborhood_indices [3; 0; 3] example_matrix = Ok r1
    ∧ get_neighborhood_indices [0; 3] example_matrix = Ok r2
    ∧ ((∀ x, x ∈ [3; 0; 3] → x ∈ [0; 3]) → ∀ x, x ∈ r1 → x ∈ r2)
    ∧ ((∀ x, x ∈ [3; 0; 3] ↔ x ∈ [0; 3]) → r1 = r2).
Proof.
  apply (get_neighborhood_indices_seed_set [3; 0; 3] [0; 3] example_matrix).
  - split; [reflexivity|]. unfold sp.well_formed. simpl.
    split_and!; try reflexivity.
    + repeat constructor.
    + repeat constructor.
  - repeat constructor; by vm_compute.
  - repeat constructor; by vm_compute.
Defined.

(** ** Matrices with more rows than columns *)

Section bounds.

Lemma np_getitem_cases (a : list nat) (i : Z) :
  0 ≤ i →
  (∃ x, np_getitem a i = Ok x ∧ i < Z.of_nat (length a))
  ∨ (np_getitem a i = Raise (IndexError "index out of bounds")
     ∧ Z.of_nat (length a) ≤ i).
Proof.
  intros Hi. unfold np_getitem.
  rewrite (bool_decide_eq_false_2 (i < 0)) by lia. simpl.
  rewrite bool_decide_eq_false_2 by lia.
  destruct (a !! Z.to_nat i) as [x|] eqn:Hx.
  - left. exists x. split; [done|]. apply lookup_lt_Some in Hx. lia.
  - right. split; [done|]. apply lookup_ge_None in Hx. lia.
Qed.

Lemma collect_neighbors_out_of_range m seeds : ∀ acc,
  Forall (λ i, 0 ≤ i) seeds →
  (∃ s, s ∈ seeds ∧ Z.of_nat (length (sp.indptr m)) ≤ s + 1) →
  collect_neighbors m seeds acc
  = Raise (IndexError "index out of bounds").
Proof.
  intros acc Hpos. revert acc.
  induction Hpos as [|idx seeds Hidx _ IH]; intros acc (s & Hs & Hbad).
  { by apply elem_of_nil in Hs. }
  simpl.
  destruct (np_getitem_cases (sp.indptr m) idx) as [(x & -> & Hx)|[-> _]];
    [done| |done].
  destruct (np_getitem_cases (sp.indptr m) (idx + 1))
    as [(y & -> & Hy)|[-> _]]; [lia| |done].
  simpl. apply IH. apply elem_of_cons in Hs as [->|Hs]; [lia|eauto].
Qed.

End bounds.

(** X11.  The bound that [get_neighborhood_indices] checks is the number
    of rows, while a seed selects a column.  On a CSC matrix with fewer
    columns than rows a seed that passes the check but is not below the
    number of columns makes the call fail with an [IndexError] (from the
    access to the column pointers), not with one of its own
    [ValueError]s. *)
Theorem get_neighborhood_indices_column_bound
    (indices : list Z) (adj_mat : sp.spmatrix) :
  length (sp.indptr (sp.csc_form adj_mat))
  = S (sp.shape (sp.csc_form adj_mat)).2 →
  Forall (λ i, 0 ≤ i < matrix_size adj_mat) indices →
  (∃ s, s ∈ indices ∧ Z.of_nat (sp.shape (sp.csc_form adj_mat)).2 ≤ s) →
  ∃ msg, get_neighborhood_indices indices adj_mat = Raise (IndexError msg).
Proof.
  intros Hlen Hseeds (s & Hs & Hbad). eexists.
  unfold get_neighborhood_indices, matrix_size in *.
  destruct (from_option _ false (py_max indices)) eqn:Hup.
  { apply upper_check_spec in Hup as (i & Hi & Hn).
    rewrite Forall_forall in Hseeds. apply Hseeds in Hi. lia. }
  destruct (from_option _ false (py_min indices)) eqn:Hlo.
  { apply lower_check_spec in Hlo as (i & Hi & Hn).
    rewrite Forall_forall in Hseeds. apply Hseeds in Hi. lia. }
  rewrite bool_decide_eq_false_2
    by (intros ->; by apply elem_of_nil in Hs).
  assert (sp.csc_form (if sp.is_csc adj_mat then adj_mat
                       else sp.tocsc adj_mat) = sp.csc_form adj_mat) as ->
    by (by destruct (sp.is_csc adj_mat)).
  rewrite collect_neighbors_out_of_range; [done| |].
  - eapply Forall_impl; [done|]. simpl. lia.
  - exists s. split; [done|]. rewrite Hlen. lia.
Qed.

Lemma get_neighborhood_indices_column_bound_witness :
  ∃ msg,
    get_neighborhood_indices [0; 2]
      (sp.mkSp sp.CSC
         (sp.mkCsc (3%nat, 2%nat) [0; 1; 2]%nat [2; 0]%nat [1; 1]))
    = Raise (IndexError msg).
Proof.
  apply (get_neighborhood_indices_column_bound [0; 2]
    (sp.mkSp sp.CSC
       (sp.mkCsc (3%nat, 2%nat) [0; 1; 2]%nat [2; 0]%nat [1; 1]))).
  - reflexivity.
  - repeat constructor; by vm_compute.
  - exists 2. split; [by right; left|]. simpl. lia.
Defined.

(** ** The matrices returned are well formed *)

Section well_formed.

Lemma last_prefix_sums lens : ∀ acc,
  last (sp.prefix_sums acc lens) = Some (acc + sum_list lens)%nat.
Proof.
  induction lens as [|k lens IH]; intros acc; simpl.
  - f_equal. lia.
  - specialize (IH (acc + k)%nat).
    destruct (sp.prefix_sums (acc + k) lens) as [|x l] eqn:Hp; [done|].
    rewrite <- Hp in *. unfold last in *. simpl. rewrite Hp in *. simpl.
    rewrite IH. f_equal. lia.
Qed.

Lemma Sorted_prefix_sums lens : ∀ acc, Sorted le (sp.prefix_sums acc lens).
Proof.
  induction lens as [|k lens IH]; intros acc; simpl.
  - repeat constructor.
  - constructor; [apply IH|]. destruct lens; simpl; constructor; lia.
Qed.

Lemma well_formed_csc_of_columns nrows cols :
  Forall (Forall (λ rv : nat * Z, rv.1 < nrows)%nat) cols →
  sp.well_formed (sp.csc_of_columns nrows cols).
Proof.
  intros Hrows. unfold sp.well_formed, sp.csc_of_columns. simpl.
  split; [by rewrite prefix_sums_length, length_fmap|].
  split; [by destruct (length <$> cols)|].
  split; [by rewrite last_prefix_sums, sum_list_lengths, length_fmap|].
  split; [apply Sorted_prefix_sums|].
  split; [by rewrite !length_fmap|].
  apply Forall_fmap. induction Hrows as [|c cols Hc _ IH]; simpl; [done|].
  apply Forall_app. split; [|done]. eapply Forall_impl; [done|]. done.
Qed.

Lemma adjacency_form_adjacency_csc g fmt :
  adjacency_form (sp.mkSp fmt (nx.adjacency_csc g)).
Proof.
  split; [unfold nx.adjacency_csc; simpl; by rewrite length_fmap|].
  apply well_formed_csc_of_columns. apply Forall_fmap, Forall_forall.
  intros v _. simpl. apply Forall_fmap, Forall_forall.
  intros i [_ Hi%elem_of_seq]%list_elem_of_filter. simpl. lia.
Qed.

Lemma adjacency_form_diags d fmt : adjacency_form (sp.mkSp fmt (sp.diags d)).
Proof.
  split; [unfold sp.diags; simpl; by rewrite length_imap|].
  apply well_formed_csc_of_columns. apply Forall_forall.
  intros c (j & x & -> & Hj)%elem_of_lookup_imap_1.
  apply lookup_lt_Some in Hj. case_decide; repeat constructor. done.
Qed.

End well_formed.

(** X12.  Both matrices that [loadsnap] and [create_connected_graph]
    return are square matrices in well-formed CSC form: the column
    pointers start at 0, do not decrease and end at the number of stored
    entries, and every stored row index is below the number of rows.  So
    the adjacency matrix meets what [get_neighborhood_indices] relies
    on. *)
Theorem returned_matrices_well_formed :
  (∀ lines g adj_matrix deg_matrix out,
     loadsnap lines = (Ok (g, adj_matrix, deg_matrix), out) →
     adjacency_form (sp.mkSp sp.CSC adj_matrix)
     ∧ adjacency_form (sp.mkSp sp.CSC deg_matrix)
     ∧ sp.shape deg_matrix = sp.shape adj_matrix)
  ∧ (∀ fuel n p w adj_matrix deg_matrix w',
       create_connected_graph fuel n p w
       = (Ok (adj_matrix, deg_matrix), w') →
       adjacency_form (sp.mkSp sp.CSC adj_matrix)
       ∧ adjacency_form (sp.mkSp sp.CSC deg_matrix)
       ∧ sp.shape deg_matrix = sp.shape adj_matrix).
Proof.
  assert (∀ g, sp.shape (sp.diags (sp.row_sums (nx.adjacency_csc g)))
               = sp.shape (nx.adjacency_csc g)) as Hshape.
  { intros g. unfold sp.diags, sp.row_sums, nx.adjacency_csc. simpl.
    by rewrite length_imap, !length_fmap, length_seq. }
  split.
  - intros lines g A D out (-> & -> & -> & _)%loadsnap_returned.
    split; [apply adjacency_form_adjacency_csc|].
    split; [apply adjacency_form_diags|apply Hshape].
  - intros fuel n p w A D w'. unfold create_connected_graph.
    unfold bind at 1.
    destruct (build_connected_graph fuel n p w) as [[g| |] w1]; [|done..].
    unfold bind at 1, lift.
    destruct (nx.adjacency_matrix g) as [m| |] eqn:Hm; [|done..].
    apply adjacency_matrix_returned in Hm as [-> _].
    unfold bind, emit, ret. simpl. intros [= <- <- _].
    split; [apply adjacency_form_adjacency_csc|].
    split; [apply adjacency_form_diags|apply Hshape].
Qed.

Lemma returned_matrices_well_formed_witness :
  (∃ g adj_matrix deg_matrix out,
     loadsnap sample_lines = (Ok (g, adj_matrix, deg_matrix), out)
     ∧ adjacency_form (sp.mkSp sp.CSC adj_matrix)
     ∧ adjacency_form (sp.mkSp sp.CSC deg_matrix)
     ∧ sp.shape deg_matrix = sp.shape adj_matrix)
  ∧ ∃ adj_matrix deg_matrix w',
      create_connected_graph 3 3 (Finite (1 # 2)) (mkWorld (λ _, 5%N) 0 [])
      = (Ok (adj_matrix, deg_matrix), w')
      ∧ adjacency_form (sp.mkSp sp.CSC adj_matrix)
      ∧ adjacency_form (sp.mkSp sp.CSC deg_matrix)
      ∧ sp.shape deg_matrix = sp.shape adj_matrix.
Proof.
  split.
  - eexists _, _, _, _. split; [by vm_compute|].
    eapply (proj1 returned_matrices_well_formed sample_lines).
    by vm_compute.
  - eexists _, _, _. split; [by vm_compute|].
    eapply (proj2 returned_matrices_well_formed 3%nat 3 (Finite (1 # 2))
              (mkWorld (λ _, 5%N) 0 [])).
    by vm_compute.
Defined.

(** ** Neighbourhoods in the graphs that were built *)

Section composition.

Lemma length_slice {A} (a : list A) s e :
  length (sp.slice a s e) = Nat.min (e - s) (length a - s).
Proof. unfold sp.slice. by rewrite length_take, length_drop. Qed.

Lemma column_rows_fst m j :
  length (sp.data m) = length (sp.indices m) →
  column_rows m j = (sp.column m j).*1.
Proof.
  intros Hlen. unfold column_rows, sp.column.
  destruct (sp.indptr m !! j) as [s|]; [|done].
  destruct (sp.indptr m !! S j) as [e|]; [|done].
  rewrite fst_zip; [done|]. rewrite !length_slice. lia.
Qed.

Lemma column_rows_adjacency g j v :
  nx.nodes g !! j = Some v →
  column_rows (nx.adjacency_csc g) j
  = filter (λ i, nx.is_neighbor_row g v i) (seq 0 (length (nx.nodes g))).
Proof.
  intros Hj. rewrite column_rows_fst
    by (unfold nx.adjacency_csc; simpl; by rewrite !length_fmap).
  unfold nx.adjacency_csc.
  erewrite column_csc_of_columns by (by rewrite list_lookup_fmap, Hj).
  rewrite <- list_fmap_compose. apply list_fmap_id.
Qed.

Lemma neighborhood_in_graph g fmt seeds :
  graph_wf g →
  Forall (λ i, 0 ≤ i < Z.of_nat (length (nx.nodes g))) seeds →
  ∃ r, get_neighborhood_indices seeds (sp.mkSp fmt (nx.adjacency_csc g))
       = Ok r
       ∧ ∀ x, x ∈ r
              ↔ x ∈ seeds
                ∨ ∃ s u v, s ∈ seeds
                           ∧ nx.nodes g !! Z.to_nat s = Some u
                           ∧ 0 ≤ x ∧ nx.nodes g !! Z.to_nat x = Some v
                           ∧ edge g u v.
Proof.
  intros Hwf Hseeds. eexists. split.
  { apply get_neighborhood_indices_exact;
      [apply adjacency_form_adjacency_csc|].
    unfold matrix_size, nx.adjacency_csc. simpl. done. }
  intros x. rewrite elem_of_sorted_elements, elem_of_closed_neighborhood.
  simpl. rewrite Forall_forall in Hseeds.
  split; (intros [?|H]; [by left|right]).
  - destruct H as (s & k & Hs & Hk & ->).
    destruct (lookup_lt_is_Some_2 (nx.nodes g) (Z.to_nat s)) as [u Hu].
    { apply Hseeds in Hs. lia. }
    rewrite (column_rows_adjacency g _ u Hu) in Hk.
    apply list_elem_of_filter in Hk as [Hrow _].
    unfold nx.is_neighbor_row in Hrow.
    destruct (nx.nodes g !! k) as [v|] eqn:Hv; [|done].
    apply Is_true_true, bool_decide_eq_true in Hrow.
    exists s, u, v. rewrite Nat2Z.id. split_and!; try done. lia.
  - destruct H as (s & u & v & Hs & Hu & Hx & Hv & He).
    exists s, (Z.to_nat x). split; [done|]. split; [|lia].
    rewrite (column_rows_adjacency g _ u Hu).
    apply list_elem_of_filter. split.
    + unfold nx.is_neighbor_row. rewrite Hv.
      by apply Is_true_true, bool_decide_eq_true.
    + apply elem_of_seq. apply lookup_lt_Some in Hv. lia.
Qed.

End composition.

(** X13.  The two calls of the example program compose: on the adjacency
    matrix that [create_connected_graph] returns, with seeds among the
    nodes [0, ..., n-1], [get_neighborhood_indices] returns, and the
    result consists of the seeds and of the nodes joined to a seed by an
    edge of the graph that was built. *)
Theorem generated_neighborhood
    (n : Z) (p : pyfloat) (w : world) (fuel : nat) (seeds : list Z) :
  1 ≤ n → probability p → (Z.to_nat n ≤ fuel)%nat →
  Forall (λ i, 0 ≤ i < n) seeds →
  ∃ g w1 adj_matrix deg_matrix w2 r,
    build_connected_graph fuel n p w = (Ok g, w1)
    ∧ create_connected_graph fuel n p w = (Ok (adj_matrix, deg_matrix), w2)
    ∧ get_neighborhood_indices seeds (sp.mkSp sp.CSC adj_matrix) = Ok r
    ∧ ∀ x, x ∈ r ↔ x ∈ seeds ∨ ∃ s, s ∈ seeds ∧ edge g s x.
Proof.
  intros Hn Hp Hfuel Hseeds.
  destruct (build_connected_graph_spec n p w fuel Hn Hp Hfuel)
    as (g0 & g & w1 & sampled & merges & Hrun & _ & _ & _ & _
        & Hwf & Hnodes & _ & _).
  assert (length (nx.nodes g) = Z.to_nat n) as Hlen
    by (by rewrite Hnodes, length_seqZ).
  assert (nx.nodes g ≠ []) as Hne.
  { intros Hnil. rewrite Hnil in Hlen. simpl in Hlen. lia. }
  destruct (neighborhood_in_graph g sp.CSC seeds Hwf) as (r & Hr & Hiff).
  { eapply Forall_impl; [done|]. simpl. lia. }
  eexists g, w1, _, _, _, r. split; [done|]. split.
  { unfold create_connected_graph, bind. rewrite Hrun. unfold lift.
    rewrite adjacency_matrix_nonempty by done. simpl. done. }
  split; [done|]. intros x. rewrite Hiff.
  assert (∀ y k, nx.nodes g !! k = Some y → y = Z.of_nat k) as Hpos.
  { intros y k. rewrite Hnodes. intros Hk%lookup_seqZ. lia. }
  rewrite Forall_forall in Hseeds.
  split; (intros [?|H]; [by left|right]).
  - destruct H as (s & u & v & Hs & Hu & Hx & Hv & He).
    apply Hpos in Hu, Hv. exists s.
    apply Hseeds in Hs as Hs'. split; [done|].
    replace s with u by lia. replace x with v by lia. done.
  - destruct H as (s & Hs & He). exists s, s, x.
    destruct (wf_closed g Hwf s x He) as [_ Hx].
    rewrite Hnodes in Hx. apply elem_of_seqZ in Hx.
    apply Hseeds in Hs as Hs'.
    split; [done|]. rewrite Hnodes.
    split; [apply lookup_seqZ; lia|]. split; [lia|].
    split; [apply lookup_seqZ; lia|done].
Qed.

Lemma generated_neighborhood_witness :
  ∃ g w1 adj_matrix deg_matrix w2 r,
    build_connected_graph 3 3 (Finite (1 # 2)) (mkWorld (λ _, 5%N) 0 [])
    = (Ok g, w1)
    ∧ create_connected_graph 3 3 (Finite (1 # 2)) (mkWorld (λ _, 5%N) 0 [])
      = (Ok (adj_matrix, deg_matrix), w2)
    ∧ get_neighborhood_indices [0; 2] (sp.mkSp sp.CSC adj_matrix) = Ok r
    ∧ ∀ x, x ∈ r ↔ x ∈ [0; 2] ∨ ∃ s, s ∈ [0; 2] ∧ edge g s x.
Proof.
  apply (generated_neighborhood 3 (Finite (1 # 2))
           (mkWorld (λ _, 5%N) 0 []) 3 [0; 2]).
  - lia.
  - exists (1 # 2)%Q. split; [reflexivity|]. split; by vm_compute.
  - simpl. lia.
  - repeat constructor; lia.
Defined.

(** X14.  On the adjacency matrix that [loadsnap] returns, with seeds that
    are positions of nodes, [get_neighborhood_indices] returns the
    positions of the seeds and of the nodes joined to the node of a seed
    by an edge of the loaded graph. *)
Theorem loaded_neighborhood
    (lines : list string) (g : nx.Graph)
    (adj_matrix deg_matrix : sp.csc_matrix) (out : list string)
    (seeds : list Z) :
  loadsnap lines = (Ok (g, adj_matrix, deg_matrix), out) →
  Forall (λ i, 0 ≤ i < Z.of_nat (length (nx.nodes g))) seeds →
  ∃ r, get_neighborhood_indices seeds (sp.mkSp sp.CSC adj_matrix) = Ok r
       ∧ ∀ x, x ∈ r
              ↔ x ∈ seeds
                ∨ ∃ s u v, s ∈ seeds
                           ∧ nx.nodes g !! Z.to_nat s = Some u
                           ∧ 0 ≤ x ∧ nx.nodes g !! Z.to_nat x = Some v
                           ∧ edge g u v.
Proof.
  intros (-> & -> & _ & _)%loadsnap_returned Hseeds.
  apply neighborhood_in_graph; [|done]. apply loaded_graph_spec.
Qed.

Lemma loaded_neighborhood_witness :
  ∃ g adj_matrix r,
    get_neighborhood_indices [0] (sp.mkSp sp.CSC adj_matrix) = Ok r
    ∧ ∀ x, x ∈ r
           ↔ x ∈ [0]
             ∨ ∃ s u v, s ∈ [0]
                        ∧ nx.nodes g !! Z.to_nat s = Some u
                        ∧ 0 ≤ x ∧ nx.nodes g !! Z.to_nat x = Some v
                        ∧ edge g u v.
Proof.
  assert (∃ g adj_matrix deg_matrix out,
            loadsnap sample_lines = (Ok (g, adj_matrix, deg_matrix), out)
            ∧ length (nx.nodes g) = 4%nat)
    as (g & adj_matrix & deg_matrix & out & Hrun & Hlen)
    by (eexists _, _, _, _; split; by vm_compute).
  exists g, adj_matrix.
  apply (loaded_neighborhood sample_lines g adj_matrix deg_matrix out [0]
           Hrun).
  rewrite Hlen. repeat constructor; lia.
Defined.

(** ** What the repair loop changes *)

Section repair_more.

Lemma repairs_edges g merges g' :
  repairs g merges g' → graph_wf g →
  nx.nodes g' = nx.nodes g
  ∧ ∀ x y, edge g' x y
           ↔ edge g x y
             ∨ ∃ e, e ∈ merges
                    ∧ ((x = e.1 ∧ y = e.2) ∨ (x = e.2 ∧ y = e.1)).
Proof.
  induction 1 as [g|g u v l g' Hu Hv Hsep _ _ IH]; intros Hwf.
  - split; [done|]. intros x y. split; [by left|].
    intros [?|(? & ?%elem_of_nil & _)]; done.
  - assert (u ≠ v) as Huv by (intros ->; apply Hsep, rtc_refl).
    destruct IH as [IHn IHe]; [by apply graph_wf_add_edge|].
    split; [by rewrite IHn, nodes_add_edge|].
    intros x y. rewrite IHe, edge_add_edge by done. split.
    + intros [[?|Hxy]|(e & He & Hxy)]; [by left| |].
      * right. exists (u, v). split; [left|done].
      * right. exists e. split; [by right|done].
    + intros [?|(e & [->|He]%elem_of_cons & Hxy)];
        [by left; left|by left; right|]. right. eauto.
Qed.

Lemma repair_loop_connected fuel g w :
  graph_wf g → nx.nodes g ≠ [] → connected g →
  repair_loop (S fuel) g w = (Ok g, w).
Proof.
  intros Hwf Hne Hcon. simpl. unfold bind, lift.
  destruct (nx.nodes g) as [|v0 rest] eqn:Hn; [done|].
  destruct (is_connected_spec g Hwf v0 rest Hn) as (c & -> & Hc).
  by rewrite (proj2 Hc Hcon).
Qed.

End repair_more.

(** X15.  The repair loop only adds edges: it keeps the nodes and every
    edge of the graph it is given, and the edges of its result are those
    of that graph together with the edges passed to [g.add_edge] in the
    loop.  On a graph that is connected already the body never runs: the
    graph comes back as it is and no random value is drawn. *)
Theorem repair_loop_only_adds (g : nx.Graph) (w : world) (fuel : nat) :
  graph_wf g → nx.nodes g ≠ [] → (component_count g ≤ fuel)%nat →
  ∃ g' w' merges,
    repair_loop fuel g w = (Ok g', w')
    ∧ nx.nodes g' = nx.nodes g
    ∧ events w' = events w ++ add_edge_events merges
    ∧ (∀ x y, edge g' x y
              ↔ edge g x y
                ∨ ∃ e, e ∈ merges
                       ∧ ((x = e.1 ∧ y = e.2) ∨ (x = e.2 ∧ y = e.1)))
    ∧ (connected g → g' = g ∧ w' = w).
Proof.
  intros Hwf Hne Hfuel.
  destruct (repair_loop_spec fuel g w Hwf Hne Hfuel)
    as (g' & w' & merges & Hrun & Hrep & _ & _ & _ & _ & (_ & _ & Hev)).
  destruct (repairs_edges g merges g' Hrep Hwf) as [Hn He].
  exists g', w', merges. split_and!; try done.
  intros Hcon. destruct fuel as [|fuel].
  { pose proof (component_count_pos g Hne). lia. }
  rewrite repair_loop_connected in Hrun by done. by injection Hrun.
Qed.

Lemma repair_loop_only_adds_witness :
  let g := nx.add_nodes_from nx.empty_graph [0; 1; 2] in
  let w := mkWorld (λ _, 0%N) 0 [] in
  ∃ g' w' merges,
    repair_loop 3 g w = (Ok g', w')
    ∧ nx.nodes g' = nx.nodes g
    ∧ events w' = events w ++ add_edge_events merges
    ∧ (∀ x y, edge g' x y
              ↔ edge g x y
                ∨ ∃ e, e ∈ merges
                       ∧ ((x = e.1 ∧ y = e.2) ∨ (x = e.2 ∧ y = e.1)))
    ∧ (connected g → g' = g ∧ w' = w).
Proof.
  apply (repair_loop_only_adds
           (nx.add_nodes_from nx.empty_graph [0; 1; 2])
           (mkWorld (λ _, 0%N) 0 []) 3).
  - apply add_nodes_from_empty. apply (bool_decide_unpack _). by vm_compute.
  - by vm_compute.
  - vm_compute. lia.
Defined.

(** ** Every edge counts twice *)

Section handshake.

Lemma sum_list_indicator (l : list Z) u :
  NoDup l → u ∈ l →
  sum_list ((λ x, if decide (x = u) then 1 else 0)%nat <$> l) = 1%nat.
Proof.
  induction 1 as [|x l Hx Hnd IH]; intros Hu; [by apply elem_of_nil in Hu|].
  rewrite fmap_cons. simpl. destruct (decide (x = u)) as [->|Hne].
  - assert (sum_list ((λ x, if decide (x = u) then 1 else 0)%nat <$> l)
            = 0%nat) as ->; [|done].
    clear IH Hnd Hu. induction l as [|y l IH]; [done|].
    rewrite fmap_cons. simpl. rewrite decide_False, IH; [done| |].
    + intros Hin. apply Hx. by right.
    + intros ->. apply Hx. left.
  - apply elem_of_cons in Hu as [->|Hu]; [done|]. by rewrite IH.
Qed.

Lemma sum_list_plus {A} (f a : A → nat) l :
  sum_list ((λ x, f x + a x)%nat <$> l)
  = (sum_list (f <$> l) + sum_list (a <$> l))%nat.
Proof.
  induction l as [|x l IH]; [done|]. rewrite !fmap_cons. simpl.
  rewrite IH. lia.
Qed.

Lemma size_neighbors_add_edge g u v x :
  graph_wf g → u ∈ nx.nodes g → v ∈ nx.nodes g → u ≠ v → ¬ edge g u v →
  size (nx.neighbors (nx.add_edge g u v) x)
  = (size (nx.neighbors g x)
     + ((if decide (x = u) then 1 else 0)
        + (if decide (x = v) then 1 else 0)))%nat.
Proof.
  intros Hwf Hu Hv Huv Hnew.
  assert (¬ edge g v u) as Hnew' by (intros ?; by apply Hnew, (wf_sym g Hwf)).
  assert (∀ y, y ∈ nx.neighbors (nx.add_edge g u v) x
               ↔ y ∈ nx.neighbors g x ∨ (x = u ∧ y = v) ∨ (x = v ∧ y = u))
    as Hel by (intros y; by apply (edge_add_edge g Hwf u v Hu Hv x y)).
  destruct (decide (x = u)) as [->|Hxu]; [|destruct (decide (x = v)) as [->|Hxv]].
  - rewrite decide_False by done.
    assert (nx.neighbors (nx.add_edge g u v) u
            = {[v]} ∪ nx.neighbors g u) as ->.
    { apply set_eq. intros y. rewrite Hel, elem_of_union, elem_of_singleton.
      naive_solver. }
    rewrite size_union, size_singleton; [lia|].
    by apply disjoint_singleton_l.
  - assert (nx.neighbors (nx.add_edge g u v) v
            = {[u]} ∪ nx.neighbors g v) as ->.
    { apply set_eq. intros y. rewrite Hel, elem_of_union, elem_of_singleton.
      naive_solver. }
    rewrite size_union, size_singleton; [lia|].
    by apply disjoint_singleton_l.
  - assert (nx.neighbors (nx.add_edge g u v) x = nx.neighbors g x) as ->;
      [|lia].
    apply set_eq. intros y. rewrite Hel. naive_solver.
Qed.

Lemma degree_sum_add_edge g u v :
  graph_wf g → u ∈ nx.nodes g → v ∈ nx.nodes g → u ≠ v → ¬ edge g u v →
  degree_sum (nx.add_edge g u v) = (degree_sum g + 2)%nat.
Proof.
  intros Hwf Hu Hv Huv Hnew. unfold degree_sum.
  rewrite nodes_add_edge by done.
  erewrite (list_fmap_ext _ _ (nx.nodes g));
    [|intros i x _; by apply size_neighbors_add_edge].
  rewrite sum_list_plus, sum_list_plus.
  rewrite !sum_list_indicator by (done || apply Hwf). lia.
Qed.

Lemma degree_sum_edgeless g : edgeless g → degree_sum g = 0%nat.
Proof.
  intros He. unfold degree_sum.
  induction (nx.nodes g) as [|x l IH]; [done|].
  rewrite fmap_cons. simpl. by rewrite He, size_empty, IH.
Qed.

(** Adding pairwise different edges, each given with its smaller end
    first, to a graph that has none of them. *)
Lemma degree_sum_add_edges_from l : ∀ g,
  graph_wf g → NoDup l →
  Forall (λ e, e.1 ∈ nx.nodes g ∧ e.2 ∈ nx.nodes g ∧ e.1 < e.2
               ∧ ¬ edge g e.1 e.2) l →
  degree_sum (nx.add_edges_from g l) = (degree_sum g + 2 * length l)%nat.
Proof.
  unfold nx.add_edges_from.
  induction l as [|e l IH]; intros g Hwf Hnd Hl; simpl; [lia|].
  apply NoDup_cons in Hnd as [He Hnd].
  apply Forall_cons in Hl as [(H1 & H2 & Hlt & Hnew) Hl].
  assert (e.1 ≠ e.2) as Hne by lia.
  rewrite IH; [rewrite degree_sum_add_edge by done; lia|
               by apply graph_wf_add_edge|done|].
  rewrite Forall_forall in Hl. apply Forall_forall. intros e' He'.
  destruct (Hl e' He') as (H1' & H2' & Hlt' & Hnew').
  rewrite nodes_add_edge by done. split_and!; try done.
  rewrite edge_add_edge by done. intros [?|[[Ha Hb]|[Ha Hb]]]; [done| |lia].
  apply He. destruct e, e'. simpl in *. by subst.
Qed.

Lemma sum_diagonal_degrees g :
  graph_wf g →
  foldr Z.add 0
    (sp.diagonal (sp.diags (sp.row_sums (nx.adjacency_csc g))))
  = Z.of_nat (degree_sum g).
Proof.
  intros Hwf. unfold sp.diagonal, degree_sum.
  assert (sp.shape (sp.diags (sp.row_sums (nx.adjacency_csc g)))
          = (length (nx.nodes g), length (nx.nodes g))) as ->.
  { unfold sp.diags, sp.row_sums, nx.adjacency_csc. simpl.
    by rewrite length_imap, !length_fmap, length_seq. }
  simpl. rewrite Nat.min_id.
  assert ((λ i, sp.get (sp.diags (sp.row_sums (nx.adjacency_csc g))) i i)
            <$> seq 0 (length (nx.nodes g))
          = (λ v, Z.of_nat (size (nx.neighbors g v))) <$> nx.nodes g) as ->.
  { apply list_eq. intros i. rewrite !list_lookup_fmap.
    destruct (nx.nodes g !! i) as [u|] eqn:Hi.
    - rewrite (proj2 (lookup_seq 0 _ i i))
        by (split; [done|by eapply lookup_lt_Some]).
      simpl. by rewrite (degree_entry g i u).
    - rewrite (lookup_ge_None_2 (seq _ _) i); [done|].
      rewrite length_seq. by apply lookup_ge_None. }
  induction (nx.nodes g) as [|x l IH]; [done|].
  rewrite !fmap_cons. simpl. rewrite IH. lia.
Qed.

End handshake.

(** X16.  In what [loadsnap] returns every edge counts twice: the degrees
    on the diagonal of the degree matrix add up to twice the number of
    different undirected edges that the file names. *)
Theorem loadsnap_degree_sum
    (lines : list string) (g : nx.Graph)
    (adj_matrix deg_matrix : sp.csc_matrix) (out : list string) :
  loadsnap lines = (Ok (g, adj_matrix, deg_matrix), out) →
  foldr Z.add 0 (sp.diagonal deg_matrix)
  = 2 * Z.of_nat (size (loaded_edges lines)).
Proof.
  intros (-> & -> & -> & _)%loadsnap_returned.
  destruct (loaded_graph_spec lines) as (Hwf & Hn & _).
  rewrite sum_diagonal_degrees by done.
  unfold loaded_graph in *.
  set (sorted := merge_sort Z.le
         (elements (all_nodes_of (elements (loaded_edges lines))))) in *.
  assert (NoDup sorted) as Hnd.
  { unfold sorted. rewrite merge_sort_Permutation. apply NoDup_elements. }
  destruct (add_nodes_from_empty sorted Hnd) as (Hn0 & He0 & Hwf0).
  rewrite degree_sum_add_edges_from; [|done|apply NoDup_elements|].
  - rewrite degree_sum_edgeless by done.
    unfold size, set_size. simpl. lia.
  - assert (∀ x e, e ∈ loaded_edges lines → x = e.1 ∨ x = e.2 → x ∈ sorted)
      as Hin.
    { intros x e He Hx. unfold sorted. rewrite merge_sort_Permutation.
      apply elem_of_elements, elem_of_all_nodes_of. exists e.
      split; [by apply elem_of_elements|done]. }
    apply Forall_forall. intros e He%elem_of_elements. rewrite Hn0.
    split; [|split; [|split]].
    + apply (Hin _ e); auto.
    + apply (Hin _ e); auto.
    + by apply loaded_edges_ordered in He.
    + unfold edge. rewrite He0. apply not_elem_of_empty.
Qed.

Lemma loadsnap_degree_sum_witness :
  ∃ deg_matrix,
    foldr Z.add 0 (sp.diagonal deg_matrix)
    = 2 * Z.of_nat (size (loaded_edges sample_lines)).
Proof.
  assert (∃ g adj_matrix deg_matrix out,
            loadsnap sample_lines = (Ok (g, adj_matrix, deg_matrix), out))
    as (g & adj_matrix & deg_matrix & out & Hrun)
    by (eexists _, _, _, _; by vm_compute).
  exists deg_matrix.
  apply (loadsnap_degree_sum sample_lines g adj_matrix deg_matrix out Hrun).
Defined.

Section handshake_generated.

Lemma kept_pairs_sublist d p l : ∀ c, kept_pairs d p c l `sublist_of` l.
Proof.
  induction l as [|e l IH]; intros c; [done|]. cbn [kept_pairs].
  destruct (float_le (draw_float (d c)) p).
  - by apply sublist_skip.
  - by apply sublist_cons.
Qed.

Lemma NoDup_rows n (k : nat) : ∀ a,
  NoDup (concat ((λ i, (λ j, (i, j)) <$> seqZ (i + 1) (n - (i + 1)))
                   <$> seqZ a (Z.of_nat k)))
  ∧ ∀ e, e ∈ concat ((λ i, (λ j, (i, j)) <$> seqZ (i + 1) (n - (i + 1)))
                       <$> seqZ a (Z.of_nat k)) → a ≤ e.1.
Proof.
  induction k as [|k IH]; intros a.
  { split; [constructor|]. by intros e ?%elem_of_nil. }
  rewrite seqZ_cons by lia. rewrite fmap_cons. cbn [concat].
  replace (Z.pred (Z.of_nat (S k))) with (Z.of_nat k) by lia.
  replace (Z.succ a) with (a + 1) by lia.
  destruct (IH (a + 1)) as [IHnd IHle]. split.
  - apply NoDup_app. split; [|split; [|done]].
    + apply NoDup_fmap_2; [by intros ?? [=]|apply NoDup_seqZ].
    + intros e (j & -> & _)%list_elem_of_fmap Hin%IHle. simpl in Hin. lia.
  - intros e [(j & -> & _)%list_elem_of_fmap|Hin%IHle]%elem_of_app;
      simpl; lia.
Qed.

Lemma NoDup_all_pairs n : NoDup (all_pairs n).
Proof.
  unfold all_pairs. destruct (decide (0 ≤ n)) as [Hn|Hn].
  - pose proof (proj1 (NoDup_rows n (Z.to_nat n) 0)) as Hnd.
    by rewrite Z2Nat.id in Hnd.
  - assert (seqZ 0 n = []) as ->; [|constructor].
    unfold seqZ. by replace (Z.to_nat n) with 0%nat by lia.
Qed.

Lemma degree_sum_repairs g merges g' :
  repairs g merges g' → graph_wf g →
  degree_sum g' = (degree_sum g + 2 * length merges)%nat.
Proof.
  induction 1 as [g|g u v l g' Hu Hv Hsep _ _ IH]; intros Hwf;
    [simpl; lia|].
  assert (u ≠ v) as Huv by (intros ->; apply Hsep, rtc_refl).
  assert (¬ edge g u v) as Hnew by (intros ?; by apply Hsep, rtc_once).
  rewrite IH by (by apply graph_wf_add_edge).
  rewrite degree_sum_add_edge by done. simpl. lia.
Qed.

Lemma build_connected_graph_added n p w fuel :
  1 ≤ n → probability p → (Z.to_nat n ≤ fuel)%nat →
  ∃ g w' added,
    build_connected_graph fuel n p w = (Ok g, w')
    ∧ graph_wf g ∧ nx.nodes g = seqZ 0 n
    ∧ events w' = events w ++ [EvGraph; EvAddNodes (seqZ 0 n)]
                    ++ add_edge_events added
    ∧ degree_sum g = (2 * length added)%nat.
Proof.
  intros Hn Hp%probability_check_spec Hfuel. unfold build_connected_graph.
  unfold probability_check in Hp. rewrite Hp.
  change (negb true) with false. cbv iota.
  rewrite bool_decide_eq_false_2 by lia.
  rewrite !bind_emit. cbn [draws cursor events].
  erewrite bind_ok by apply sample_edges_closed.
  cbn [draws cursor events].
  destruct (add_nodes_from_empty (seqZ 0 n) (NoDup_seqZ 0 n))
    as (Hnodes & Hnone & Hwf).
  set (K := kept_pairs (draws w) p (cursor w) (all_pairs n)).
  assert (Forall (λ e, 0 ≤ e.1 ∧ e.1 < e.2 ∧ e.2 < n) K) as HK.
  { apply Forall_forall. intros [i j] Hin. simpl.
    apply elem_of_all_pairs.
    eapply elem_of_sublist; [done|apply kept_pairs_sublist]. }
  assert (NoDup K) as Hnd.
  { eapply sublist_NoDup; [apply NoDup_all_pairs|apply kept_pairs_sublist]. }
  set (g0 := nx.add_edges_from
               (nx.add_nodes_from nx.empty_graph (seqZ 0 n)) K).
  destruct (add_edges_from_spec K _ Hwf) as (Hwf0 & Hn0 & _).
  { eapply Forall_impl; [done|]. intros e (? & ? & ?).
    rewrite Hnodes, !elem_of_seqZ. lia. }
  fold g0 in Hwf0, Hn0. rewrite Hnodes in Hn0.
  assert (degree_sum g0 = (2 * length K)%nat) as Hsum0.
  { unfold g0. rewrite degree_sum_add_edges_from; [|done..|].
    - by rewrite degree_sum_edgeless.
    - eapply Forall_impl; [done|]. intros e (? & ? & ?).
      rewrite Hnodes, !elem_of_seqZ. split_and!; try lia.
      unfold edge. rewrite Hnone. apply not_elem_of_empty. }
  assert (nx.nodes g0 ≠ []) as Hne.
  { rewrite Hn0. intros Hnil. apply (f_equal length) in Hnil.
    rewrite length_seqZ in Hnil. simpl in Hnil. lia. }
  unfold bind at 1.
  match goal with |- context [repair_loop fuel g0 ?w1] =>
    destruct (repair_loop_spec fuel g0 w1 Hwf0 Hne)
      as (g & w4 & merges & -> & Hrep & Hlen & Hwf4 & Hn4 & Hcon & Hw4)
  end.
  { unfold component_count, nx.connected_components.
    etrans; [apply component_count_le|].
    by rewrite Hn0, length_seqZ. }
  unfold bind at 1, lift.
  destruct (nx.nodes g) as [|v0 rest] eqn:Hng; [by rewrite Hn4 in Hng|].
  destruct (is_connected_spec g Hwf4 v0 rest Hng) as (c & -> & Hc).
  assert (c = true) as -> by (by apply Hc).
  exists g, w4, (K ++ merges). split; [done|].
  split; [done|]. split; [congruence|]. split.
  - destruct Hw4 as (_ & _ & ->). cbn [events].
    unfold add_edge_events. rewrite fmap_app, <- !app_assoc. done.
  - rewrite (degree_sum_repairs g0 merges g) by done.
    rewrite Hsum0, length_app. lia.
Qed.

End handshake_generated.

(** X17.  No call of [g.add_edge] in [create_connected_graph] adds an
    edge that the graph already has: the degrees on the diagonal of the
    returned degree matrix add up to twice the number of [add_edge]
    calls of the run, those of the sampling phase and those of the
    repair loop together. *)
Theorem create_connected_graph_degree_sum
    (n : Z) (p : pyfloat) (w : world) (fuel : nat) :
  1 ≤ n → probability p → (Z.to_nat n ≤ fuel)%nat →
  ∃ adj_matrix deg_matrix w' added,
    create_connected_graph fuel n p w = (Ok (adj_matrix, deg_matrix), w')
    ∧ events w' = events w ++ [EvGraph; EvAddNodes (seqZ 0 n)]
                    ++ add_edge_events added
                    ++ [EvAdjacencyMatrix; EvDiags]
    ∧ foldr Z.add 0 (sp.diagonal deg_matrix)
      = 2 * Z.of_nat (length added).
Proof.
  intros Hn Hp Hfuel.
  destruct (build_connected_graph_added n p w fuel Hn Hp Hfuel)
    as (g & w1 & added & Hrun & Hwf & Hnodes & Hev & Hsum).
  assert (nx.nodes g ≠ []) as Hne.
  { rewrite Hnodes. intros Hnil. apply (f_equal length) in Hnil.
    rewrite length_seqZ in Hnil. simpl in Hnil. lia. }
  eexists _, _, _, added. split; [|split].
  - unfold create_connected_graph, bind. rewrite Hrun. unfold lift.
    rewrite adjacency_matrix_nonempty by done. simpl. done.
  - cbn [events]. rewrite Hev, <- !app_assoc. done.
  - rewrite sum_diagonal_degrees by done. lia.
Qed.

Lemma create_connected_graph_degree_sum_witness :
  ∃ adj_matrix deg_matrix w' added,
    create_connected_graph 3 3 (Finite (1 # 2)) (mkWorld (λ _, 5%N) 0 [])
    = (Ok (adj_matrix, deg_matrix), w')
    ∧ events w' = [] ++ [EvGraph; EvAddNodes (seqZ 0 3)]
                    ++ add_edge_events added
                    ++ [EvAdjacencyMatrix; EvDiags]
    ∧ foldr Z.add 0 (sp.diagonal deg_matrix)
      = 2 * Z.of_nat (length added).
Proof.
  apply (create_connected_graph_degree_sum 3 (Finite (1 # 2))
           (mkWorld (λ _, 5%N) 0 []) 3).
  - lia.
  - exists (1 # 2)%Q. split; [reflexivity|]. split; by vm_compute.
  - simpl. lia.
Defined.
